(** * LARS / LASSO / Elastic-Net path solver (lars.h): shallow embedding

    The class [Lars] of lars.h is embedded as a record with one field per
    member, and every member function as a function on that record.  The
    arithmetic of [double] is kept behind the interface [Scalar], with two
    instances: the real numbers (exact arithmetic, used for the algebraic
    properties of the Cholesky factor and of the path) and the binary64
    numbers of the kernel (used to run the solver on concrete data).
    Operations that Armadillo or the C++ runtime refuse (an index out of
    bounds, operands of different sizes) end the computation with [None]. *)

From Stdlib Require Import PrimFloat.
From Stdlib Require Import Reals Lra Lia List Bool Arith ZArith NArith Psatz.
Import ListNotations.

Set Implicit Arguments.
Set Default Proof Using "Type".

(** ** Failure monad *)

Notation "x <- e ;; k" := (match e with Some x => k | None => None end)
  (at level 61, e at next level, right associativity, only parsing).

Notation "'check' b ;; k" := (if b then k else None)
  (at level 61, b at next level, right associativity, only parsing).

Fixpoint mapM {A B : Type} (f : A -> option B) (l : list A) : option (list B) :=
  match l with
  | [] => Some []
  | a :: l' => b <- f a ;; bs <- mapM f l' ;; Some (b :: bs)
  end.

Fixpoint foldM {A S : Type} (f : S -> A -> option S) (l : list A) (s : S)
  : option S :=
  match l with
  | [] => Some s
  | a :: l' => s' <- f s a ;; foldM f l' s'
  end.

(** ** Unsigned 32-bit indices ([u32]) *)

Definition u32_modulus : Z := 4294967296.

Definition wrap32 (z : Z) : N := Z.to_N (z mod u32_modulus).

Definition u32_incr (n : N) : N := wrap32 (Z.of_N n + 1).
Definition u32_decr (n : N) : N := wrap32 (Z.of_N n - 1).

(** [(u32) -1] *)
Definition u32_minus_one : N := wrap32 (-1).

(** The indices [0, 1, ..., n-1] of a [for (u32 i = 0; i < n; i++)] loop. *)
Definition upto (n : N) : list N := map N.of_nat (seq 0 (N.to_nat n)).

(** The indices [a, a+1, ..., b-1]. *)
Definition range (a b : N) : list N :=
  map (fun k => (a + N.of_nat k)%N) (seq 0 (N.to_nat (b - a))).

(** Element access; [None] outside the container. *)
Definition lookupN {A : Type} (l : list A) (i : N) : option A :=
  if (i <? N.of_nat (length l))%N then nth_error l (N.to_nat i) else None.

Fixpoint set_nth {A : Type} (l : list A) (i : nat) (x : A) : list A :=
  match l, i with
  | [], _ => []
  | _ :: l', O => x :: l'
  | a :: l', S i' => a :: set_nth l' i' x
  end.

(** Element assignment; [None] outside the container. *)
Definition updateN {A : Type} (l : list A) (i : N) (x : A) : option (list A) :=
  if (i <? N.of_nat (length l))%N then Some (set_nth l (N.to_nat i) x) else None.

Fixpoint remove_nth {A : Type} (l : list A) (i : nat) : list A :=
  match l, i with
  | [], _ => []
  | _ :: l', O => l'
  | a :: l', S i' => a :: remove_nth l' i'
  end.

(** ** The arithmetic of [double] *)

Class Scalar (F : Type) : Type := {
  f0 : F;
  f1 : F;
  fadd : F -> F -> F;
  fsub : F -> F -> F;
  fmul : F -> F -> F;
  fdiv : F -> F -> F;
  fopp : F -> F;
  fsqrt : F -> F;
  fabs : F -> F;
  fltb : F -> F -> bool;
  fleb : F -> F -> bool;
  feqb : F -> F -> bool;
  EPS : F;
  DBL_MAX : F;
  most_neg : F
}.

Definition Rltb (a b : R) : bool := if Rlt_dec a b then true else false.
Definition Rleb (a b : R) : bool := if Rle_dec a b then true else false.
Definition Reqb (a b : R) : bool := if Req_dec_T a b then true else false.

(** Exact arithmetic. *)
#[export] Instance Scalar_R : Scalar R := {|
  f0 := 0%R;
  f1 := 1%R;
  fadd := Rplus;
  fsub := Rminus;
  fmul := Rmult;
  fdiv := Rdiv;
  fopp := Ropp;
  fsqrt := sqrt;
  fabs := Rabs;
  fltb := Rltb;
  fleb := Rleb;
  feqb := Reqb;
  EPS := (1 / 10 ^ 16)%R;
  DBL_MAX := IZR (2 ^ 1024 - 2 ^ 971);
  most_neg := (- IZR (2 ^ 1024 - 2 ^ 971))%R
|}.

(** IEEE 754 binary64. *)
#[export] Instance Scalar_float : Scalar float := {|
  f0 := 0%float;
  f1 := 1%float;
  fadd := PrimFloat.add;
  fsub := PrimFloat.sub;
  fmul := PrimFloat.mul;
  fdiv := PrimFloat.div;
  fopp := PrimFloat.opp;
  fsqrt := PrimFloat.sqrt;
  fabs := PrimFloat.abs;
  fltb := PrimFloat.ltb;
  fleb := PrimFloat.leb;
  feqb := PrimFloat.eqb;
  EPS := 0x1.cd2b297d889bcp-54%float;
  DBL_MAX := 0x1.fffffffffffffp+1023%float;
  most_neg := PrimFloat.neg_infinity
|}.

Section Model.

Context {F : Type} `{SF : Scalar F}.

(** ** Vectors and matrices (Armadillo [vec] and [mat]) *)

Definition vec : Type := list F.

(** A matrix is stored by columns, as Armadillo does. *)
Record mat : Type := Mat { n_rows : N; mcols : list vec }.

Definition n_cols (M : mat) : N := N.of_nat (length (mcols M)).

Definition empty_mat : mat := Mat 0 [].

(** [M.col(j)] *)
Definition col (M : mat) (j : N) : option vec := lookupN (mcols M) j.

(** [M(i, j)] *)
Definition at_ (M : mat) (i j : N) : option F :=
  c <- col M j ;; lookupN c i.

(** [zeros(n)] *)
Definition zeros (n : N) : vec := repeat f0 (N.to_nat n).

Definition dot_raw (u v : vec) : F :=
  fold_left (fun acc ab => fadd acc (fmul (fst ab) (snd ab))) (combine u v) f0.

(** [dot(u, v)] *)
Definition dot (u v : vec) : option F :=
  check (length u =? length v) ;; Some (dot_raw u v).

(** [sum(v)] *)
Definition vsum (v : vec) : F := fold_left fadd v f0.

(** [norm(v, 2)] *)
Definition norm2 (v : vec) : F := fsqrt (dot_raw v v).

(** [trans(M) * v] *)
Definition trans_mul (M : mat) (v : vec) : option vec :=
  check (N.of_nat (length v) =? n_rows M)%N ;;
  mapM (fun c => dot c v) (mcols M).

(** ** The class [Lars] *)

Record Lars : Type := mkLars {
  X_ : mat;
  y_ : vec;
  n_ : N;
  p_ : N;
  Gram_ : mat;
  Xty_ : vec;
  use_cholesky_ : bool;
  lasso_ : bool;
  desired_lambda_ : F;
  elastic_net_ : bool;
  lambda_2_ : F;
  beta_path_ : list vec;
  lambda_path_ : list F;
  n_active_ : N;
  active_set_ : list N;
  is_active_ : list bool
}.

Definition set_data (L : Lars) (X : mat) (y : vec) (c : bool) : Lars :=
  mkLars X y (n_rows X) (n_cols X) (Gram_ L) (Xty_ L) c
    (lasso_ L) (desired_lambda_ L) (elastic_net_ L) (lambda_2_ L)
    (beta_path_ L) (lambda_path_ L) (n_active_ L) (active_set_ L) (is_active_ L).

Definition set_X (L : Lars) (X : mat) : Lars :=
  mkLars X (y_ L) (n_ L) (p_ L) (Gram_ L) (Xty_ L) (use_cholesky_ L)
    (lasso_ L) (desired_lambda_ L) (elastic_net_ L) (lambda_2_ L)
    (beta_path_ L) (lambda_path_ L) (n_active_ L) (active_set_ L) (is_active_ L).

Definition set_y (L : Lars) (y : vec) : Lars :=
  mkLars (X_ L) y (n_ L) (p_ L) (Gram_ L) (Xty_ L) (use_cholesky_ L)
    (lasso_ L) (desired_lambda_ L) (elastic_net_ L) (lambda_2_ L)
    (beta_path_ L) (lambda_path_ L) (n_active_ L) (active_set_ L) (is_active_ L).

Definition set_Gram (L : Lars) (G : mat) : Lars :=
  mkLars (X_ L) (y_ L) (n_ L) (p_ L) G (Xty_ L) (use_cholesky_ L)
    (lasso_ L) (desired_lambda_ L) (elastic_net_ L) (lambda_2_ L)
    (beta_path_ L) (lambda_path_ L) (n_active_ L) (active_set_ L) (is_active_ L).

Definition set_Xty (L : Lars) (v : vec) : Lars :=
  mkLars (X_ L) (y_ L) (n_ L) (p_ L) (Gram_ L) v (use_cholesky_ L)
    (lasso_ L) (desired_lambda_ L) (elastic_net_ L) (lambda_2_ L)
    (beta_path_ L) (lambda_path_ L) (n_active_ L) (active_set_ L) (is_active_ L).

Definition set_lasso (L : Lars) (b : bool) (d : F) : Lars :=
  mkLars (X_ L) (y_ L) (n_ L) (p_ L) (Gram_ L) (Xty_ L) (use_cholesky_ L)
    b d (elastic_net_ L) (lambda_2_ L)
    (beta_path_ L) (lambda_path_ L) (n_active_ L) (active_set_ L) (is_active_ L).

Definition set_elastic_net (L : Lars) (b : bool) : Lars :=
  mkLars (X_ L) (y_ L) (n_ L) (p_ L) (Gram_ L) (Xty_ L) (use_cholesky_ L)
    (lasso_ L) (desired_lambda_ L) b (lambda_2_ L)
    (beta_path_ L) (lambda_path_ L) (n_active_ L) (active_set_ L) (is_active_ L).

Definition set_lambda_2 (L : Lars) (l2 : F) : Lars :=
  mkLars (X_ L) (y_ L) (n_ L) (p_ L) (Gram_ L) (Xty_ L) (use_cholesky_ L)
    (lasso_ L) (desired_lambda_ L) (elastic_net_ L) l2
    (beta_path_ L) (lambda_path_ L) (n_active_ L) (active_set_ L) (is_active_ L).

Definition set_paths (L : Lars) (bp : list vec) (lp : list F) : Lars :=
  mkLars (X_ L) (y_ L) (n_ L) (p_ L) (Gram_ L) (Xty_ L) (use_cholesky_ L)
    (lasso_ L) (desired_lambda_ L) (elastic_net_ L) (lambda_2_ L)
    bp lp (n_active_ L) (active_set_ L) (is_active_ L).

Definition set_active (L : Lars) (k : N) (a : list N) (f : list bool) : Lars :=
  mkLars (X_ L) (y_ L) (n_ L) (p_ L) (Gram_ L) (Xty_ L) (use_cholesky_ L)
    (lasso_ L) (desired_lambda_ L) (elastic_net_ L) (lambda_2_ L)
    (beta_path_ L) (lambda_path_ L) k a f.

(** [Lars()]: the constructor clears the two mode flags; the containers are
    default-constructed (empty); the scalar members are not initialised and
    keep whatever the storage [raw] held. *)
Definition Lars_new (raw : Lars) : Lars :=
  mkLars empty_mat [] (n_ raw) (p_ raw) empty_mat [] (use_cholesky_ raw)
    false (desired_lambda_ raw) false (lambda_2_ raw)
    [] [] (n_active_ raw) [] [].

(** [ComputeGram()] *)
Definition ComputeGram (L : Lars) : option Lars :=
  let cs := mcols (X_ L) in
  G <- mapM (fun jc : N * vec =>
         mapM (fun ic : N * vec =>
           d <- dot (snd ic) (snd jc) ;;
           Some (if elastic_net_ L
                 then fadd d (fmul (lambda_2_ L)
                                   (if (fst ic =? fst jc)%N then f1 else f0))
                 else d))
           (combine (upto (n_cols (X_ L))) cs))
         (combine (upto (n_cols (X_ L))) cs) ;;
  Some (set_Gram L (Mat (n_cols (X_ L)) G)).

(** [ComputeXty()] *)
Definition ComputeXty (L : Lars) : option Lars :=
  v <- trans_mul (X_ L) (y_ L) ;; Some (set_Xty L v).

(** [Init(X, y, use_cholesky)] *)
Definition Init3 (L : Lars) (X : mat) (y : vec) (use_cholesky : bool)
  : option Lars :=
  let L := set_data L X y use_cholesky in
  L <- ComputeXty L ;;
  L <- (if negb (use_cholesky_ L) then ComputeGram L else Some L) ;;
  Some (set_active L 0 [] (repeat false (N.to_nat (p_ L)))).

(** [Init(X, y, use_cholesky, desired_lambda)] *)
Definition Init4 (L : Lars) (X : mat) (y : vec) (use_cholesky : bool)
  (desired_lambda : F) : option Lars :=
  Init3 (set_lasso L true desired_lambda) X y use_cholesky.

(** [Init(X, y, use_cholesky, desired_lambda, lambda_2)] *)
Definition Init5 (L : Lars) (X : mat) (y : vec) (use_cholesky : bool)
  (desired_lambda lambda_2 : F) : option Lars :=
  Init4 (set_lambda_2 (set_elastic_net L true) lambda_2) X y use_cholesky
    desired_lambda.

(** [SetY(y)] *)
Definition SetY (L : Lars) (y : vec) : Lars := set_y L y.

(** [SetDesiredLambda(desired_lambda)] *)
Definition SetDesiredLambda (L : Lars) (desired_lambda : F) : Lars :=
  set_lasso L (lasso_ L) desired_lambda.

(** [M.col(j) = c] *)
Definition set_col (M : mat) (j : N) (c : vec) : option mat :=
  check (N.of_nat (length c) =? n_rows M)%N ;;
  cs <- updateN (mcols M) j c ;;
  Some (Mat (n_rows M) cs).

(** [M(i, j) = x] *)
Definition set_at (M : mat) (i j : N) (x : F) : option mat :=
  c <- col M j ;;
  c' <- updateN c i x ;;
  cs <- updateN (mcols M) j c' ;;
  Some (Mat (n_rows M) cs).

(** An [int] used as an Armadillo index is converted to [u32]. *)
Definition index_of_int (z : Z) : N := wrap32 z.

(** [UpdateGram(col_inds)] *)
Definition UpdateGram (L : Lars) (col_inds : list Z) : option Lars :=
  G <- foldM (fun G i =>
         foldM (fun G j =>
           ci <- col (X_ L) (index_of_int i) ;;
           cj <- col (X_ L) (index_of_int j) ;;
           d <- dot ci cj ;;
           set_at G (index_of_int i) (index_of_int j) d)
           col_inds G)
         col_inds (Gram_ L) ;;
  G <- (if elastic_net_ L
        then foldM (fun G i =>
               g <- at_ G (index_of_int i) (index_of_int i) ;;
               set_at G (index_of_int i) (index_of_int i)
                 (fadd g (lambda_2_ L)))
               col_inds G
        else Some G) ;;
  Some (set_Gram L G).

(** [UpdateXty(col_inds)] *)
Definition UpdateXty (L : Lars) (col_inds : list Z) : option Lars :=
  v <- foldM (fun v i =>
         ci <- col (X_ L) (index_of_int i) ;;
         d <- dot ci (y_ L) ;;
         updateN v (index_of_int i) d)
         col_inds (Xty_ L) ;;
  Some (set_Xty L v).

(** [UpdateX(col_inds, new_cols)] *)
Definition UpdateX (L : Lars) (col_inds : list Z) (new_cols : mat)
  : option Lars :=
  X <- foldM (fun X (ic : N * Z) =>
         c <- col new_cols (fst ic) ;;
         set_col X (index_of_int (snd ic)) c)
         (combine (upto (N.of_nat (length col_inds))) col_inds) (X_ L) ;;
  let L := set_X L X in
  L <- (if negb (use_cholesky_ L) then UpdateGram L col_inds else Some L) ;;
  UpdateXty L col_inds.

(** [Deactivate(active_var_ind)] *)
Definition Deactivate (L : Lars) (active_var_ind : N) : option Lars :=
  a <- lookupN (active_set_ L) active_var_ind ;;
  flags <- updateN (is_active_ L) a false ;;
  Some (set_active L (u32_decr (n_active_ L))
          (remove_nth (active_set_ L) (N.to_nat active_var_ind)) flags).

(** [Activate(var_ind)] *)
Definition Activate (L : Lars) (var_ind : N) : option Lars :=
  flags <- updateN (is_active_ L) var_ind true ;;
  Some (set_active L (u32_incr (n_active_ L))
          (active_set_ L ++ [var_ind]) flags).

(** ** Cholesky factor *)

(** [solve(trimatl(trans(R)), g)]: forward substitution on the lower
    triangle of [trans(R)], whose entry (i, k) is entry k of column i of
    [R]; [x] holds the part of the solution computed so far. *)
Fixpoint forward_subst (Rcols : list vec) (g : vec) (x : vec) : vec :=
  match Rcols, g with
  | c :: cs, gi :: gs =>
      let i := length x in
      let xi := fdiv (fsub gi (dot_raw (firstn i c) x)) (nth i c f0) in
      forward_subst cs gs (x ++ [xi])
  | _, _ => x
  end.

Definition solve_trimatl_trans (R : mat) (g : vec) : option vec :=
  check (n_rows R =? n_cols R)%N ;;
  check (N.of_nat (length g) =? n_rows R)%N ;;
  Some (forward_subst (mcols R) g []).

(** [CholeskyInsert(R, new_x, new_Gram_col)], the overload whose third
    argument is a vector. *)
Definition CholeskyInsert (L : Lars) (R : mat) (new_x new_Gram_col : vec)
  : option mat :=
  let n := n_rows R in
  if (n =? 0)%N then
    Some (Mat 1 [[ if elastic_net_ L
                   then fsqrt (fadd (dot_raw new_x new_x) (lambda_2_ L))
                   else norm2 new_x ]])
  else
    let sq_norm_new_x :=
      if elastic_net_ L then fadd (dot_raw new_x new_x) (lambda_2_ L)
      else dot_raw new_x new_x in
    R_k <- solve_trimatl_trans R new_Gram_col ;;
    Some (Mat (n + 1)
            (map (fun c => c ++ [f0]) (mcols R)
             ++ [R_k ++ [fsqrt (fsub sq_norm_new_x (dot_raw R_k R_k))]])).

(** [CholeskyInsert(R, new_x, X)], the overload whose third argument is the
    matrix of the active columns. *)
Definition CholeskyInsert_mat (L : Lars) (R : mat) (new_x : vec) (X : mat)
  : option mat :=
  if (n_rows R =? 0)%N then
    Some (Mat 1 [[ if elastic_net_ L
                   then fsqrt (fadd (dot_raw new_x new_x) (lambda_2_ L))
                   else norm2 new_x ]])
  else
    new_Gram_col <- trans_mul X new_x ;;
    CholeskyInsert L R new_x new_Gram_col.

(** [GivensRotate(x, rotated_x, G)] on the pair [x = (x0, x1)]: returns
    [rotated_x] and the four entries G(0,0), G(0,1), G(1,0), G(1,1). *)
Definition GivensRotate (x0 x1 : F) : (F * F) * (F * F * F * F) :=
  if feqb x1 f0 then ((x0, x1), (f1, f0, f0, f1))
  else
    let r := norm2 [x0; x1] in
    let scaled_x1 := fdiv x0 r in
    let scaled_x2 := fdiv x1 r in
    ((r, f0), (scaled_x1, scaled_x2, fopp scaled_x2, scaled_x1)).

(** Rows [k] and [k+1] of a column are replaced by [a] and [b]. *)
Definition set_pair (c : vec) (k : N) (a b : F) : option vec :=
  c <- updateN c k a ;; updateN c (k + 1) b.

(** One pass of the loop of [CholeskyDelete] at index [k]; the matrix has
    [n] columns. *)
Definition givens_step (n : N) (R : mat) (k : N) : option mat :=
  ck <- col R k ;;
  x0 <- lookupN ck k ;;
  x1 <- lookupN ck (k + 1) ;;
  let '((r0, r1), (g00, g01, g10, g11)) := GivensRotate x0 x1 in
  ck' <- set_pair ck k r0 r1 ;;
  cs <- updateN (mcols R) k ck' ;;
  if (k <? u32_decr n)%N then
    cs <- foldM (fun cs j =>
            c <- lookupN cs j ;;
            u <- lookupN c k ;;
            v <- lookupN c (k + 1) ;;
            c' <- set_pair c k (fadd (fmul g00 u) (fmul g01 v))
                               (fadd (fmul g10 u) (fmul g11 v)) ;;
            updateN cs j c')
            (range (k + 1) n) cs ;;
    Some (Mat (n_rows R) cs)
  else Some (Mat (n_rows R) cs).

(** [M(span(0, b), span(0, b))] *)
Definition leading_block (M : mat) (b : N) : option mat :=
  check (b <? n_rows M)%N ;;
  check (b <? n_cols M)%N ;;
  Some (Mat (b + 1)
          (map (firstn (N.to_nat (b + 1))) (firstn (N.to_nat (b + 1)) (mcols M)))).

(** [M.shed_col(j)] *)
Definition shed_col (M : mat) (j : N) : option mat :=
  check (j <? n_cols M)%N ;;
  Some (Mat (n_rows M) (remove_nth (mcols M) (N.to_nat j))).

(** [M.shed_row(i)] *)
Definition shed_row (M : mat) (i : N) : option mat :=
  check (i <? n_rows M)%N ;;
  Some (Mat (n_rows M - 1) (map (fun c => remove_nth c (N.to_nat i)) (mcols M))).

(** [CholeskyDelete(R, col_to_kill)] *)
Definition CholeskyDelete (R : mat) (col_to_kill : N) : option mat :=
  let n := n_rows R in
  if (col_to_kill =? u32_decr n)%N then
    leading_block R (wrap32 (Z.of_N n - 2))
  else
    R <- shed_col R col_to_kill ;;
    let n := u32_decr n in
    R <- foldM (givens_step n) (range col_to_kill n) R ;;
    shed_row R n.

(** ** The main loop of [DoLARS] *)

(** The general dense solver [solve(A, b)] of the linear-algebra library;
    [None] when the library reports no solution. *)
Variable solve : mat -> vec -> option vec.

(** The local variables of [DoLARS], together with the object. *)
Record LoopState : Type := mkLoop {
  obj : Lars;
  beta : vec;
  y_hat : vec;
  y_hat_direction : vec;
  kick_out : bool;
  corr : vec;
  max_corr : F;
  change_ind : N;
  Rfac : mat
}.

(** [v.max(index)]: the largest element and the first position that holds
    it; the search starts from the most negative value of the type. *)
Definition max_index (v : vec) : option (F * N) :=
  match v with
  | [] => None
  | _ => Some (fold_left
                 (fun (best : F * N) (ix : N * F) =>
                    if fltb (fst best) (snd ix) then (snd ix, fst ix) else best)
                 (combine (upto (N.of_nat (length v))) v) (most_neg, 0%N))
  end.

(** Element-wise combination of two vectors of the same length. *)
Definition vzip (f : F -> F -> F) (u v : vec) : option vec :=
  check (length u =? length v) ;;
  Some (map (fun ab => f (fst ab) (snd ab)) (combine u v)).

(** [trans(M)] *)
Definition trans (M : mat) : mat :=
  Mat (n_cols M)
    (map (fun i => map (fun c => nth i c f0) (mcols M))
         (seq 0 (N.to_nat (n_rows M)))).

(** The statements of [DoLARS] before the main loop. *)
Definition DoLARS_begin (L : Lars) : option LoopState :=
  let beta := zeros (p_ L) in
  let y_hat := zeros (n_ L) in
  let L := if elastic_net_ L then L else set_lambda_2 L (fopp f1) in
  let corr := Xty_ L in
  let abs_corr := map fabs corr in
  mc <- max_index abs_corr ;;
  let L := set_paths L (beta_path_ L ++ [beta]) (lambda_path_ L ++ [fst mc]) in
  Some (mkLoop L beta y_hat (zeros (n_ L)) false corr (fst mc) (snd mc)
          empty_mat).

(** The loop condition. *)
Definition loop_cond (s : LoopState) : bool :=
  (n_active_ (obj s) <? p_ (obj s))%N && fltb EPS (max_corr s).

(** The vector [new_Gram_col] that [DoLARS] fills before it calls
    [CholeskyInsert]: the inner products of the active columns with column
    [change_ind]. *)
Definition new_Gram_col_of (L : Lars) (change_ind : N) : option vec :=
  mapM (fun i =>
      a <- lookupN (active_set_ L) i ;;
      ca <- col (X_ L) a ;;
      cc <- col (X_ L) change_ind ;;
      dot ca cc)
    (upto (n_active_ L)).

(** First part of the loop body: the pending removal, or the activation of
    [change_ind]. *)
Definition top_phase (s : LoopState) : option LoopState :=
  let L := obj s in
  if kick_out s then
    R <- (if use_cholesky_ L then CholeskyDelete (Rfac s) (change_ind s)
          else Some (Rfac s)) ;;
    L <- Deactivate L (change_ind s) ;;
    Some (mkLoop L (beta s) (y_hat s) (y_hat_direction s) false (corr s)
            (max_corr s) (change_ind s) R)
  else
    R <- (if use_cholesky_ L then
            new_Gram_col <- new_Gram_col_of L (change_ind s) ;;
            cx <- col (X_ L) (change_ind s) ;;
            CholeskyInsert L (Rfac s) cx new_Gram_col
          else Some (Rfac s)) ;;
    L <- Activate L (change_ind s) ;;
    Some (mkLoop L (beta s) (y_hat s) (y_hat_direction s) false (corr s)
            (max_corr s) (change_ind s) R).

(** The signs of the correlations of the active variables. *)
Definition signs (L : Lars) (corr : vec) : option vec :=
  mapM (fun i =>
      a <- lookupN (active_set_ L) i ;;
      c <- lookupN corr a ;;
      Some (fdiv c (fabs c)))
    (upto (n_active_ L)).

(** [beta_direction] and [normalization]. *)
Definition direction (L : Lars) (R : mat) (s : vec) : option (vec * F) :=
  if use_cholesky_ L then
    z <- solve (trans R) s ;;
    unnormalized_beta_direction <- solve R z ;;
    d <- dot s unnormalized_beta_direction ;;
    let normalization := fdiv f1 (fsqrt d) in
    Some (map (fmul normalization) unnormalized_beta_direction, normalization)
  else
    Gram_active <- mapM (fun j =>
        mapM (fun i =>
            ai <- lookupN (active_set_ L) i ;;
            aj <- lookupN (active_set_ L) j ;;
            g <- at_ (Gram_ L) ai aj ;;
            si <- lookupN s i ;;
            sj <- lookupN s j ;;
            Some (fmul (fmul g (fmul sj f1)) (fmul si f1)))
          (upto (n_active_ L)))
      (upto (n_active_ L)) ;;
    unnormalized_beta_direction <-
      solve (Mat (n_active_ L) Gram_active)
            (repeat f1 (N.to_nat (n_active_ L))) ;;
    let normalization := fdiv f1 (fsqrt (vsum unnormalized_beta_direction)) in
    bd <- vzip fmul (map (fmul normalization) unnormalized_beta_direction) s ;;
    Some (bd, normalization).

(** [ComputeYHatDirection(beta_direction, y_hat_direction)] *)
Definition ComputeYHatDirection (L : Lars) (beta_direction : vec)
  (y_hat_direction : vec) : option vec :=
  foldM (fun yhd i =>
      b <- lookupN beta_direction i ;;
      a <- lookupN (active_set_ L) i ;;
      c <- col (X_ L) a ;;
      vzip fadd yhd (map (fmul b) c))
    (upto (n_active_ L)) (map (fun _ => f0) y_hat_direction).

(** The minimum-ratio test over the inactive variables; the state of the
    scan is the pair ([gamma], [change_ind]). *)
Definition inactive_scan (L : Lars) (corr y_hat_direction : vec)
  (max_corr normalization : F) (gc : F * N) : option (F * N) :=
  if (n_active_ L <? p_ L)%N then
    foldM (fun (gc : F * N) ind =>
        act <- lookupN (is_active_ L) ind ;;
        if act : bool then Some gc
        else
          c <- col (X_ L) ind ;;
          dir_corr <- dot c y_hat_direction ;;
          ci <- lookupN corr ind ;;
          let val1 := fdiv (fsub max_corr ci) (fsub normalization dir_corr) in
          let val2 := fdiv (fadd max_corr ci) (fadd normalization dir_corr) in
          let gc := if fltb f0 val1 && fltb val1 (fst gc)
                    then (val1, ind) else gc in
          let gc := if fltb f0 val2 && fltb val2 (fst gc)
                    then (val2, ind) else gc in
          Some gc)
      (upto (p_ L)) gc
  else Some gc.

(** The scan of the active positions in LASSO mode; the state of the scan
    is the pair ([lasso_bound_on_gamma], [active_ind_to_kick_out]). *)
Definition lasso_scan (L : Lars) (beta beta_direction : vec)
  : option (F * N) :=
  foldM (fun (bk : F * N) i =>
      a <- lookupN (active_set_ L) i ;;
      b <- lookupN beta a ;;
      d <- lookupN beta_direction i ;;
      let val := fdiv (fopp b) d in
      Some (if fltb f0 val && fltb val (fst bk) then (val, i) else bk))
    (upto (n_active_ L)) (DBL_MAX, u32_minus_one).

(** [if (lasso_) { ... }] after the scan of the inactive variables; the
    result is ([kick_out], [gamma], [change_ind]). *)
Definition lasso_bound (L : Lars) (beta beta_direction : vec)
  (kick_out : bool) (gc : F * N) : option (bool * (F * N)) :=
  if lasso_ L then
    bk <- lasso_scan L beta beta_direction ;;
    Some (if fltb (fst bk) (fst gc) then (true, bk) else (kick_out, gc))
  else Some (kick_out, gc).

(** [beta(active_set_[i]) += gamma * beta_direction(i)] for every active
    position. *)
Definition update_beta (L : Lars) (beta beta_direction : vec) (gamma : F)
  : option vec :=
  foldM (fun beta i =>
      a <- lookupN (active_set_ L) i ;;
      d <- lookupN beta_direction i ;;
      b <- lookupN beta a ;;
      updateN beta a (fadd b (fmul gamma d)))
    (upto (n_active_ L)) beta.

(** A container index computed in [int]; a negative value is out of range. *)
Definition lookupZ {A : Type} (l : list A) (z : Z) : option A :=
  if (z <? 0)%Z then None else lookupN l (Z.to_N z).

Definition updateZ {A : Type} (l : list A) (z : Z) (x : A) : option (list A) :=
  if (z <? 0)%Z then None else updateN l (Z.to_N z) x.

(** [InterpolateBeta(ultimate_lambda)] *)
Definition InterpolateBeta (L : Lars) (ultimate_lambda : F) : option Lars :=
  let path_length := Z.of_nat (length (beta_path_ L)) in
  penultimate_lambda <- lookupZ (lambda_path_ L) (path_length - 2) ;;
  let interp := fdiv (fsub penultimate_lambda (desired_lambda_ L))
                     (fsub penultimate_lambda ultimate_lambda) in
  b2 <- lookupZ (beta_path_ L) (path_length - 2) ;;
  b1 <- lookupZ (beta_path_ L) (path_length - 1) ;;
  b <- vzip fadd (map (fmul (fsub f1 interp)) b2) (map (fmul interp) b1) ;;
  bp <- updateZ (beta_path_ L) (path_length - 1) b ;;
  lp <- updateZ (lambda_path_ L) (path_length - 1) (desired_lambda_ L) ;;
  Some (set_paths L bp lp).

(** Second part of the loop body: everything after the activation or
    removal.  The boolean is [true] when the body ends in [break]. *)
Definition rest_phase (s : LoopState) : option (LoopState * bool) :=
  let L := obj s in
  sg <- signs L (corr s) ;;
  dn <- direction L (Rfac s) sg ;;
  let beta_direction := fst dn in
  let normalization := snd dn in
  y_hat_direction <- ComputeYHatDirection L beta_direction (y_hat_direction s) ;;
  let gamma := fdiv (max_corr s) normalization in
  gc <- inactive_scan L (corr s) y_hat_direction (max_corr s) normalization
          (gamma, u32_minus_one) ;;
  kgc <- lasso_bound L (beta s) beta_direction (kick_out s) gc ;;
  let kick_out := fst kgc in
  let gamma := fst (snd kgc) in
  let change_ind := snd (snd kgc) in
  y_hat <- vzip fadd (y_hat s) (map (fmul gamma) y_hat_direction) ;;
  beta <- update_beta L (beta s) beta_direction gamma ;;
  let L := set_paths L (beta_path_ L ++ [beta]) (lambda_path_ L) in
  Xt_yhat <- trans_mul (X_ L) y_hat ;;
  corr <- vzip fsub (Xty_ L) Xt_yhat ;;
  let max_corr := fsub (max_corr s) (fmul gamma normalization) in
  let L := set_paths L (beta_path_ L) (lambda_path_ L ++ [max_corr]) in
  if lasso_ L && fleb max_corr (desired_lambda_ L) then
    L <- InterpolateBeta L max_corr ;;
    Some (mkLoop L beta y_hat y_hat_direction kick_out corr max_corr
            change_ind (Rfac s), true)
  else
    Some (mkLoop L beta y_hat y_hat_direction kick_out corr max_corr
            change_ind (Rfac s), false).

(** The body of the main loop. *)
Definition body (s : LoopState) : option (LoopState * bool) :=
  s <- top_phase s ;; rest_phase s.

(** How a run ends: the loop is left, an operation is refused, or the
    iteration budget given to the model is used up. *)
Inductive outcome : Type :=
| Finished (s : LoopState)
| Crashed
| Timeout.

(** [while ((n_active_ < p_) && (max_corr > EPS)) { ... }] *)
Fixpoint main_loop (fuel : nat) (s : LoopState) : outcome :=
  if loop_cond s then
    match fuel with
    | O => Timeout
    | S fuel' =>
        match body s with
        | None => Crashed
        | Some (s', true) => Finished s'
        | Some (s', false) => main_loop fuel' s'
        end
    end
  else Finished s.

(** [DoLARS()] *)
Definition DoLARS (fuel : nat) (L : Lars) : outcome :=
  match DoLARS_begin L with
  | None => Crashed
  | Some s => main_loop fuel s
  end.

(** [DoLARS(desired_lambda)] *)
Definition DoLARS_lambda (fuel : nat) (L : Lars) (desired_lambda : F)
  : outcome :=
  DoLARS fuel (SetDesiredLambda L desired_lambda).

End Model.

Arguments Finished {F}%_type_scope s.
Arguments Crashed {F}%_type_scope.
Arguments Timeout {F}%_type_scope.

(** ** A dense solver for runs on concrete data

    Gaussian elimination without pivoting on the rows of the system,
    each row carrying its right-hand side as last entry. *)

Section ExampleSolver.

Context {F : Type} `{SF : Scalar F}.

Fixpoint eliminate (fuel : nat) (rows : list (list F)) : option (list F) :=
  match fuel, rows with
  | _, [] => Some []
  | O, _ => None
  | S fuel', r :: rs =>
      match r with
      | [] => None
      | pivot :: r_tail =>
          check (negb (feqb pivot f0)) ;;
          let r' := map (fun x => fdiv x pivot) r_tail in
          let rs' := map (fun q =>
                        match q with
                        | [] => []
                        | q0 :: q_tail =>
                            map (fun ab => fsub (fst ab) (fmul q0 (snd ab)))
                                (combine q_tail r')
                        end) rs in
          xs <- eliminate fuel' rs' ;;
          let rhs := last r' f0 in
          Some (fsub rhs (dot_raw (removelast r') xs) :: xs)
      end
  end.

Definition example_solve (A : mat) (b : vec) : option vec :=
  check (n_rows A =? n_cols A)%N ;;
  check (N.of_nat (length b) =? n_rows A)%N ;;
  eliminate (length b)
    (map (fun rb => fst rb ++ [snd rb]) (combine (mcols (trans A)) b)).

End ExampleSolver.

(** ** Concrete data *)

(** Storage before construction. *)
Definition ex_raw : @Lars float :=
  mkLars empty_mat [] 0 0 empty_mat [] false false 0%float false 0%float
    [] [] 0 [] [].

(** One predictor, one observation. *)
Definition ex_X1 : @mat float := Mat 1 [[1%float]].
Definition ex_y1 : @vec float := [1%float].

(** The object after [Lars()] and [Init(X, y, false, 5.0)]. *)
Definition ex_lasso5 : @Lars float :=
  Eval vm_compute in
    match Init4 (Lars_new ex_raw) ex_X1 ex_y1 false 5%float with
    | Some L => L
    | None => ex_raw
    end.

(** The same object after a further [Init(X, y, false)]. *)
Definition ex_lasso5_again : @Lars float :=
  Eval vm_compute in
    match Init3 ex_lasso5 ex_X1 ex_y1 false with
    | Some L => L
    | None => ex_raw
    end.

(** An object in LASSO mode whose paths end in the lambdas 5 and 3, with
    target 4. *)
Definition ex_interp : @Lars R :=
  mkLars empty_mat [] 1 1 empty_mat [] false true 4%R false 0%R
    [[0%R]; [2%R]] [5%R; 3%R] 1 [0%N] [true].

(** The object after [Lars()] and [Init(X, y, false)]. *)
Definition ex_fresh : @Lars float :=
  Eval vm_compute in
    match Init3 (Lars_new ex_raw) ex_X1 ex_y1 false with
    | Some L => L
    | None => ex_raw
    end.

(** The state in which a first [DoLARS()] on [ex_fresh] leaves the loop. *)
Definition ex_first_run : @LoopState float :=
  Eval vm_compute in
    match DoLARS example_solve 10 ex_fresh with
    | Finished s => s
    | _ => mkLoop ex_raw [] [] [] false [] 0%float 0 empty_mat
    end.

(** The state in which a second [DoLARS()] on the same object leaves the
    loop. *)
Definition ex_second_run : @LoopState float :=
  Eval vm_compute in
    match DoLARS example_solve 10 (obj ex_first_run) with
    | Finished s => s
    | _ => mkLoop ex_raw [] [] [] false [] 0%float 0 empty_mat
    end.

(** ** Predicates used in the statements *)

Section Predicates.

Context {F : Type} `{SF : Scalar F}.

(** The data and mode fields of two objects agree. *)
Definition same_data (L L' : @Lars F) : Prop :=
  X_ L' = X_ L /\ y_ L' = y_ L /\ n_ L' = n_ L /\ p_ L' = p_ L /\
  Gram_ L' = Gram_ L /\ Xty_ L' = Xty_ L /\
  use_cholesky_ L' = use_cholesky_ L /\ lasso_ L' = lasso_ L /\
  desired_lambda_ L' = desired_lambda_ L /\
  elastic_net_ L' = elastic_net_ L /\ lambda_2_ L' = lambda_2_ L.

(** The active-set fields of two objects agree. *)
Definition same_active (L L' : @Lars F) : Prop :=
  n_active_ L' = n_active_ L /\ active_set_ L' = active_set_ L /\
  is_active_ L' = is_active_ L.

(** The three active-set fields describe one set of at most [p_] distinct
    column indices. *)
Definition wf_active (L : @Lars F) : Prop :=
  n_active_ L = N.of_nat (length (active_set_ L)) /\
  length (is_active_ L) = N.to_nat (p_ L) /\
  (Z.of_N (p_ L) < u32_modulus)%Z /\
  (n_active_ L <= p_ L)%N /\
  NoDup (active_set_ L) /\
  (forall a, In a (active_set_ L) <-> lookupN (is_active_ L) a = Some true).

(** Between two iterations: the active set is well formed and, unless a
    removal is pending, [change_ind] is not an active column. *)
Definition loop_inv (s : @LoopState F) : Prop :=
  wf_active (obj s) /\
  (kick_out s = false ->
   lookupN (is_active_ (obj s)) (change_ind s) <> Some true).

End Predicates.

(** The state a run would start from if every call cleared the active set
    and the two paths. *)
Definition fresh_run_state {F : Type} (L : @Lars F) : Prop :=
  n_active_ L = 0%N /\ active_set_ L = [] /\
  beta_path_ L = [] /\ lambda_path_ L = [].





(** The argument of the square root in [CholeskyInsert]. *)
Definition insert_radicand {F : Type} `{Scalar F} (L : @Lars F) (R : @mat F)
  (new_x new_Gram_col : @vec F) : option F :=
  let sq_norm_new_x :=
    if elastic_net_ L then fadd (dot_raw new_x new_x) (lambda_2_ L)
    else dot_raw new_x new_x in
  if (n_rows R =? 0)%N then Some sq_norm_new_x
  else
    R_k <- solve_trimatl_trans R new_Gram_col ;;
    Some (fsub sq_norm_new_x (dot_raw R_k R_k)).

(** The factor of the single column (3, 4). *)
Definition ex_R5 : @mat float := Mat 1 [[5%float]].





(** The state before the loop of a first [DoLARS()] on [ex_fresh]. *)
Definition ex_begin : @LoopState float :=
  Eval vm_compute in
    match DoLARS_begin ex_fresh with
    | Some s => s
    | None => mkLoop ex_raw [] [] [] false [] 0%float 0 empty_mat
    end.

(** The ratios [-beta(active_set_[i]) / beta_direction(i)] of the LASSO
    scan, one per active position. *)
Definition lasso_ratios {F : Type} `{Scalar F} (L : @Lars F)
  (beta beta_direction : @vec F) : option (list F) :=
  mapM (fun i =>
      a <- lookupN (active_set_ L) i ;;
      b <- lookupN beta a ;;
      d <- lookupN beta_direction i ;;
      Some (fdiv (fopp b) d))
    (upto (n_active_ L)).

(** A coefficient vector is zero at every index outside a set of
    columns. *)
Definition zero_outside (A : list N) (b : @vec R) : Prop :=
  forall j x, ~ In j A -> lookupN b j = Some x -> x = 0%R.

(** Between two iterations, in exact arithmetic: the coefficients of the
    inactive columns are zero, the coefficient of a column whose removal is
    pending is zero, and the last entry of the coefficient path is the
    current [beta]. *)
Definition sparse_inv (s : @LoopState R) : Prop :=
  loop_inv s /\
  zero_outside (active_set_ (obj s)) (beta s) /\
  (kick_out s = true ->
   forall a x, lookupN (active_set_ (obj s)) (change_ind s) = Some a ->
               lookupN (beta s) a = Some x -> x = 0%R) /\
  (exists bp, beta_path_ (obj s) = bp ++ [beta s]).

(** ** The Cholesky invariant, in exact arithmetic *)

(** [cs] are the columns of an upper-triangular matrix with positive
    diagonal whose Gram matrix is that of the vectors [xs], with [ridge]
    added on the diagonal. *)
Definition factor_of (ridge : R) (xs cs : list (list R)) : Prop :=
  length cs = length xs /\
  (forall j c, nth_error cs j = Some c ->
     length c = length cs /\
     (forall i, (j < i)%nat -> nth i c 0%R = 0%R) /\
     (0 < nth j c 0%R)%R) /\
  (forall i j ci cj xi xj,
     nth_error cs i = Some ci -> nth_error cs j = Some cj ->
     nth_error xs i = Some xi -> nth_error xs j = Some xj ->
     dot_raw ci cj = (dot_raw xi xj + (if (i =? j)%nat then ridge else 0))%R).

(** The ridge term of the object: [lambda_2_] in Elastic-Net mode. *)
Definition ridge_of (L : @Lars R) : R :=
  if elastic_net_ L then lambda_2_ L else 0%R.

(** The columns of the dataset listed by the active set, in its order. *)
Definition active_columns (L : @Lars R) : option (list (@vec R)) :=
  mapM (fun a => col (X_ L) a) (active_set_ L).

(** The factor [Rm] is consistent with the active set of [L]: it is
    square of dimension [n_active_], upper triangular, and
    [trans(Rm) * Rm] is the Gram matrix of the active columns with the
    ridge term on the diagonal. *)
Definition chol_inv (L : @Lars R) (Rm : @mat R) : Prop :=
  n_rows Rm = n_active_ L /\
  n_cols Rm = n_active_ L /\
  n_active_ L = N.of_nat (length (active_set_ L)) /\
  (forall x, In x (mcols (X_ L)) -> N.of_nat (length x) = n_rows (X_ L)) /\
  exists xs, active_columns L = Some xs /\
             factor_of (ridge_of L) xs (mcols Rm).

(** ** The factor under deletion *)

(** The dataset is rectangular: every column has [n_rows] entries. *)
Definition rectangular (M : @mat R) : Prop :=
  forall x, In x (mcols M) -> N.of_nat (length x) = n_rows M.

(** The rotation with cosine [c] and sine [s] applied to rows [m] and
    [m + 1] of a column. *)
Definition rot2 (m : nat) (c s : R) (v : list R) : list R :=
  set_nth (set_nth v m (c * nth m v 0 + s * nth (S m) v 0)%R) (S m)
          (- s * nth m v 0 + c * nth (S m) v 0)%R.

(** The update of one later column in the loop of [CholeskyDelete]. *)
Definition rotate_col (k : N) (g00 g01 g10 g11 : R) (c : list R)
  : option (list R) :=
  u <- lookupN c k ;;
  v <- lookupN c (k + 1) ;;
  set_pair c k (fadd (fmul g00 u) (fmul g01 v))
               (fadd (fmul g10 u) (fmul g11 v)).

(** The matrix inside the loop of [CholeskyDelete], before the pass at
    index [m]: one row more than columns; columns before [m] are upper
    triangular with a positive diagonal, columns from [m] on reach one row
    below the diagonal, with a positive entry there; the inner products of
    the columns are those of [xs], with the ridge term on the diagonal. *)
Definition hess_of (ridge : R) (m : nat) (xs cs : list (list R)) : Prop :=
  length cs = length xs /\
  (forall j c, nth_error cs j = Some c ->
     length c = S (length cs) /\
     if (j <? m)%nat
     then (forall i, (j < i)%nat -> nth i c 0%R = 0%R) /\ (0 < nth j c 0%R)%R
     else (forall i, (S j < i)%nat -> nth i c 0%R = 0%R) /\
          (0 < nth (S j) c 0%R)%R) /\
  (forall i j ci cj xi xj,
     nth_error cs i = Some ci -> nth_error cs j = Some cj ->
     nth_error xs i = Some xi -> nth_error xs j = Some xj ->
     dot_raw ci cj = (dot_raw xi xj + (if (i =? j)%nat then ridge else 0))%R).

(** One predictor with the single observation 1, in Cholesky mode, before
    any variable is active. *)
Definition ex_unit : @Lars R :=
  mkLars (Mat 1 [[1%R]]) [1%R] 1 1 empty_mat [1%R] true false 0%R false 0%R
    [] [] 0 [] [false].

(** ** One iteration in exact arithmetic

    One predictor and one observation, both 1, in LASSO mode with target 0;
    the state before the first iteration, the state after its first part,
    and a solver that is right for the 1 x 1 unit system. *)
Definition ex_step0 : @LoopState R :=
  mkLoop
    (mkLars (Mat 1 [[1%R]]) [1%R] 1 1 (Mat 1 [[1%R]]) [1%R] false true 0%R
       false (-1)%R [[0%R]] [1%R] 0 [] [false])
    [0%R] [0%R] [0%R] false [1%R] 1%R 0 empty_mat.

Definition ex_step1 : @LoopState R :=
  mkLoop
    (mkLars (Mat 1 [[1%R]]) [1%R] 1 1 (Mat 1 [[1%R]]) [1%R] false true 0%R
       false (-1)%R [[0%R]] [1%R] 1 [0%N] [true])
    [0%R] [0%R] [0%R] false [1%R] 1%R 0 empty_mat.

Definition ex_solve (A : @mat R) (b : @vec R) : option (@vec R) := Some b.

(** A state after the first part of an iteration in which the coefficient
    of the only active variable, -1, has the sign opposite to its
    direction. *)
Definition ex_kick : @LoopState R :=
  mkLoop
    (mkLars (Mat 1 [[1%R]]) [1%R] 1 1 (Mat 1 [[1%R]]) [1%R] false true 0%R
       false (-1)%R [[0%R]; [(-1)%R]] [3%R; 2%R] 1 [0%N] [true])
    [(-1)%R] [(-1)%R] [0%R] false [2%R] 2%R 0 empty_mat.

(** The run of [DoLARS] on the object initialised in LASSO mode with
    target 5. *)
Definition ex_lasso5_run : @LoopState float :=
  Eval vm_compute in
    match DoLARS example_solve 10 ex_lasso5 with
    | Finished s => s
    | _ => ex_first_run
    end.

(** ** Loops that store one value per step *)


(** ** A LASSO run with a removal, in binary64

    Three predictors and three observations, Gram-matrix mode, LASSO with
    target 0. *)
Definition ex_X3 : @mat float :=
  Mat 3 [[0; 1; -1]; [-3; -2; 3]; [-3; 1; 1]]%float.

Definition ex_y3 : @vec float := [-1; -2; -3]%float.

Definition ex_sparse : @Lars float :=
  Eval vm_compute in
    match Init4 (Lars_new ex_raw) ex_X3 ex_y3 false 0%float with
    | Some L => L
    | None => ex_raw
    end.

(** The state after [k] iterations of the main loop on [ex_sparse]. *)
Fixpoint iterate_body (k : nat) (s : @LoopState float)
  : option (@LoopState float) :=
  match k with
  | O => Some s
  | S k' =>
      match body example_solve s with
      | Some (s', false) => iterate_body k' s'
      | _ => None
      end
  end.

Definition ex_sparse_after (k : nat) : @LoopState float :=
  match DoLARS_begin ex_sparse with
  | Some s0 =>
      match iterate_body k s0 with
      | Some s => s
      | None => ex_first_run
      end
  | None => ex_first_run
  end.

Definition ex_sparse_s2 : @LoopState float :=
  Eval vm_compute in ex_sparse_after 2.

(** The one-predictor object with its variable active. *)
Definition ex_active1 : @Lars float := set_active ex_fresh 1 [0%N] [true].

(** Two orthonormal predictors, both active, in Cholesky mode, and the
    factor of their Gram matrix. *)
Definition ex_pair : @Lars R :=
  mkLars (Mat 2 [[1%R; 0%R]; [0%R; 1%R]]) [1%R; 1%R] 2 2 empty_mat
    [1%R; 1%R] true false 0%R false 0%R [] [] 2 [0%N; 1%N] [true; true].

Definition ex_R2 : @mat R := Mat 2 [[1%R; 0%R]; [0%R; 1%R]].

(** ** Runs on objects that differ in fields the run does not read *)

(** The object [L] with [y_] and [desired_lambda_] replaced. *)
Definition touch {F : Type} `{Scalar F} (y : @vec F) (d : F) (L : @Lars F)
  : @Lars F :=
  mkLars (X_ L) y (n_ L) (p_ L) (Gram_ L) (Xty_ L) (use_cholesky_ L)
    (lasso_ L) d (elastic_net_ L) (lambda_2_ L)
    (beta_path_ L) (lambda_path_ L) (n_active_ L) (active_set_ L) (is_active_ L).

(** A function of the object applied inside a loop state or an outcome. *)
Definition map_obj {F : Type} `{Scalar F} (f : @Lars F -> @Lars F)
  (s : @LoopState F) : @LoopState F :=
  mkLoop (f (obj s)) (beta s) (y_hat s) (y_hat_direction s) (kick_out s)
    (corr s) (max_corr s) (change_ind s) (Rfac s).

Definition map_outcome {F : Type} `{Scalar F} (f : @Lars F -> @Lars F)
  (o : @outcome F) : @outcome F :=
  match o with
  | Finished s => Finished (map_obj f s)
  | Crashed => Crashed
  | Timeout => Timeout
  end.

(** The two ratios that the minimum-ratio test of [DoLARS] computes for
    the inactive variable [ind]. *)
Definition scan_ratios (L : @Lars R) (corr yhd : @vec R) (mc nrm : R)
  (ind : N) (v1 v2 : R) : Prop :=
  exists c dc ci,
    lookupN (is_active_ L) ind = Some false /\
    col (X_ L) ind = Some c /\ dot c yhd = Some dc /\
    lookupN corr ind = Some ci /\
    v1 = ((mc - ci) / (nrm - dc))%R /\ v2 = ((mc + ci) / (nrm + dc))%R.

(** The value of [normalization] in the iteration that starts from [s]. *)
Definition step_normalization {F : Type} `{Scalar F}
  (solve : @mat F -> @vec F -> option (@vec F)) (s : @LoopState F)
  : option F :=
  s1 <- top_phase s ;;
  sg <- signs (obj s1) (corr s1) ;;
  dn <- direction solve (obj s1) (Rfac s1) sg ;;
  Some (snd dn).

(** One predictor with the single observation 1, LASSO mode off, before
    the first iteration. *)
Definition ex_last : @LoopState R :=
  mkLoop
    (mkLars (Mat 1 [[1%R]]) [1%R] 1 1 (Mat 1 [[1%R]]) [1%R] false false 0%R
       false (-1)%R [[0%R]] [1%R] 0 [] [false])
    [0%R] [0%R] [0%R] false [1%R] 1%R 0 empty_mat.


(** ** The linear systems a run hands to [solve] *)

Section Systems.

Context {F : Type} `{SF : Scalar F}.

Variable solve : @mat F -> @vec F -> option (@vec F).

(** The system [Gram_active % trans(S) % S], [ones] of the Gram-matrix
    branch of the direction step. *)
Definition gram_system (L : @Lars F) (s : @vec F) : option (@mat F * @vec F) :=
  Gram_active <- mapM (fun j =>
      mapM (fun i =>
          ai <- lookupN (active_set_ L) i ;;
          aj <- lookupN (active_set_ L) j ;;
          g <- at_ (Gram_ L) ai aj ;;
          si <- lookupN s i ;;
          sj <- lookupN s j ;;
          Some (fmul (fmul g (fmul sj f1)) (fmul si f1)))
        (upto (n_active_ L)))
    (upto (n_active_ L)) ;;
  Some (Mat (n_active_ L) Gram_active, repeat f1 (N.to_nat (n_active_ L))).

(** The systems on which the iteration that starts from [s] calls
    [solve]: one in the Gram-matrix branch, two in the Cholesky branch,
    the second with the solution of the first as right-hand side. *)
Definition iteration_systems (s : @LoopState F) : list (@mat F * @vec F) :=
  match top_phase s with
  | Some s1 =>
      match signs (obj s1) (corr s1) with
      | Some sg =>
          if use_cholesky_ (obj s1) then
            (trans (Rfac s1), sg) ::
            match solve (trans (Rfac s1)) sg with
            | Some z => [(Rfac s1, z)]
            | None => []
            end
          else
            match gram_system (obj s1) sg with
            | Some sys => [sys]
            | None => []
            end
      | None => []
      end
  | None => []
  end.

(** The systems of the iterations of the main loop, in order. *)
Fixpoint run_systems (fuel : nat) (s : @LoopState F)
  : list (@mat F * @vec F) :=
  if loop_cond s then
    match fuel with
    | O => []
    | S fuel' =>
        iteration_systems s ++
        match body solve s with
        | Some (s', false) => run_systems fuel' s'
        | _ => []
        end
    end
  else [].

Definition DoLARS_systems (fuel : nat) (L : @Lars F)
  : list (@mat F * @vec F) :=
  match DoLARS_begin L with
  | Some s => run_systems fuel s
  | None => []
  end.

End Systems.

(** ** Inputs on which the claims are evaluated *)

(** Three predictors and three observations, Gram-matrix mode, LASSO with
    target 0.  Every linear system of the run on it has a solution that
    binary64 represents, except the first, whose solution is one
    division. *)
Definition ex_X5 : @mat float :=
  Mat 3 [[0; 0; -1]; [1; -2; -1]; [-1; 1; 2]]%float.

Definition ex_y5 : @vec float := [1; -1; 3]%float.

Definition ex_resid : @Lars float :=
  Eval vm_compute in
    match Init4 (Lars_new ex_raw) ex_X5 ex_y5 false 0%float with
    | Some L => L
    | None => ex_raw
    end.

(** The state after [k] iterations of the main loop on the object [L]. *)
Definition state_after (L : @Lars float) (k : nat) : @LoopState float :=
  match DoLARS_begin L with
  | Some s0 =>
      match iterate_body k s0 with
      | Some s => s
      | None => ex_first_run
      end
  | None => ex_first_run
  end.

Definition ex_resid_s0 : @LoopState float :=
  Eval vm_compute in state_after ex_resid 0.

Definition ex_resid_s1 : @LoopState float :=
  Eval vm_compute in state_after ex_resid 1.

Definition ex_resid_s2 : @LoopState float :=
  Eval vm_compute in state_after ex_resid 2.

Definition ex_resid_s3 : @LoopState float :=
  Eval vm_compute in state_after ex_resid 3.

Definition ex_resid_run : @LoopState float :=
  Eval vm_compute in
    match DoLARS example_solve 10 ex_resid with
    | Finished s => s
    | _ => ex_first_run
    end.

(** Two predictors and two observations, Gram-matrix mode, LASSO with
    target 0; both systems of the run have solutions that binary64
    represents. *)
Definition ex_X_stuck : @mat float := Mat 2 [[-1; 2]; [2; -2]]%float.

Definition ex_y_stuck : @vec float := [-1; 3]%float.

Definition ex_stuck : @Lars float :=
  Eval vm_compute in
    match Init4 (Lars_new ex_raw) ex_X_stuck ex_y_stuck false 0%float with
    | Some L => L
    | None => ex_raw
    end.

Definition ex_stuck_run : @LoopState float :=
  Eval vm_compute in
    match DoLARS example_solve 10 ex_stuck with
    | Finished s => s
    | _ => ex_first_run
    end.

(** Two predictors and two observations, Gram-matrix mode, LASSO mode
    off. *)
Definition ex_X_drift : @mat float := Mat 2 [[-3; -1]; [-2; -3]]%float.

Definition ex_y_drift : @vec float := [2; 1]%float.

Definition ex_drift : @Lars float :=
  Eval vm_compute in
    match Init3 (Lars_new ex_raw) ex_X_drift ex_y_drift false with
    | Some L => L
    | None => ex_raw
    end.

Definition ex_drift_s0 : @LoopState float :=
  Eval vm_compute in state_after ex_drift 0.

Definition ex_drift_s1 : @LoopState float :=
  Eval vm_compute in state_after ex_drift 1.

(** The two unit vectors as predictors, Cholesky mode, LASSO mode off;
    the response is the first predictor. *)
Definition ex_X_twice : @mat float := Mat 2 [[1; 0]; [0; 1]]%float.

Definition ex_y_twice : @vec float := [1; 0]%float.

Definition ex_twice : @Lars float :=
  Eval vm_compute in
    match Init3 (Lars_new ex_raw) ex_X_twice ex_y_twice true with
    | Some L => L
    | None => ex_raw
    end.

(** The state in which the first [DoLARS()] on [ex_twice] leaves the
    loop, the state before the loop of a second [DoLARS()], and that state
    after the first part of its first iteration. *)
Definition ex_twice_run : @LoopState float :=
  Eval vm_compute in
    match DoLARS example_solve 10 ex_twice with
    | Finished s => s
    | _ => ex_first_run
    end.

Definition ex_twice_s0 : @LoopState float :=
  Eval vm_compute in state_after (obj ex_twice_run) 0.

Definition ex_twice_s1 : @LoopState float :=
  Eval vm_compute in
    match top_phase ex_twice_s0 with
    | Some s => s
    | None => ex_first_run
    end.

(** ** Column replacement with repeated indices *)





(** One predictor whose single observation is not a number. *)
Definition ex_nan : @Lars float :=
  Eval vm_compute in
    match Init3 (Lars_new ex_raw) ex_X1 [PrimFloat.nan] false with
    | Some L => L
    | None => ex_raw
    end.

(** * Properties *)

(** ** Containers and indices *)

Lemma lookupN_Some_lt {A : Type} (l : list A) (i : N) (x : A) :
  lookupN l i = Some x -> (N.to_nat i < length l)%nat /\ nth_error l (N.to_nat i) = Some x.
Proof.
  unfold lookupN. destruct (N.ltb_spec i (N.of_nat (length l))); intros E.
  - split; [lia | exact E].
  - discriminate.
Qed.

Lemma lookupN_of_nat {A : Type} (l : list A) (k : nat) :
  lookupN l (N.of_nat k) = nth_error l k.
Proof.
  unfold lookupN. rewrite Nat2N.id.
  destruct (N.ltb_spec (N.of_nat k) (N.of_nat (length l))); [reflexivity|].
  symmetry. apply nth_error_None. lia.
Qed.

Lemma lookupN_nth_error {A : Type} (l : list A) (i : N) :
  lookupN l i = nth_error l (N.to_nat i).
Proof. rewrite <- (N2Nat.id i) at 1. apply lookupN_of_nat. Qed.

Lemma updateN_of_nat {A : Type} (l : list A) (k : nat) (x : A) :
  (k < length l)%nat -> updateN l (N.of_nat k) x = Some (set_nth l k x).
Proof.
  intros Hk. unfold updateN. rewrite Nat2N.id.
  destruct (N.ltb_spec (N.of_nat k) (N.of_nat (length l))); [reflexivity | lia].
Qed.

Lemma updateN_Some {A : Type} (l l' : list A) (i : N) (x : A) :
  updateN l i x = Some l' ->
  (N.to_nat i < length l)%nat /\ l' = set_nth l (N.to_nat i) x.
Proof.
  unfold updateN. destruct (N.ltb_spec i (N.of_nat (length l))); intros E.
  - inversion E. split; [lia | reflexivity].
  - discriminate.
Qed.

Lemma set_nth_length {A : Type} (l : list A) (i : nat) (x : A) :
  length (set_nth l i x) = length l.
Proof.
  revert i. induction l as [|a l IH]; intros [|i]; simpl; auto.
Qed.

Lemma nth_error_set_nth_eq {A : Type} (l : list A) (i : nat) (x : A) :
  (i < length l)%nat -> nth_error (set_nth l i x) i = Some x.
Proof.
  revert i. induction l as [|a l IH]; intros [|i] Hi; simpl in *; try lia; auto.
  apply IH. lia.
Qed.

Lemma nth_error_set_nth_neq {A : Type} (l : list A) (i j : nat) (x : A) :
  i <> j -> nth_error (set_nth l i x) j = nth_error l j.
Proof.
  revert i j. induction l as [|a l IH]; intros [|i] [|j] Hij; simpl; auto;
    try congruence.
Qed.

Lemma set_nth_app_at {A : Type} (l r : list A) (x y : A) :
  set_nth (l ++ x :: r) (length l) y = l ++ y :: r.
Proof. induction l as [|a l IH]; simpl; [reflexivity | now rewrite IH]. Qed.

Lemma nth_error_app_at {A : Type} (l r : list A) (x : A) :
  nth_error (l ++ x :: r) (length l) = Some x.
Proof. induction l as [|a l IH]; simpl; auto. Qed.

Lemma lookupZ_app_at {A : Type} (l r : list A) (x : A) (z : Z) :
  z = Z.of_nat (length l) -> lookupZ (l ++ x :: r) z = Some x.
Proof.
  intros ->. unfold lookupZ.
  destruct (Z.ltb_spec (Z.of_nat (length l)) 0); [lia|].
  rewrite lookupN_nth_error, Z_N_nat, Nat2Z.id. apply nth_error_app_at.
Qed.

Lemma updateZ_app_at {A : Type} (l r : list A) (x y : A) (z : Z) :
  z = Z.of_nat (length l) -> updateZ (l ++ x :: r) z y = Some (l ++ y :: r).
Proof.
  intros ->. unfold updateZ.
  destruct (Z.ltb_spec (Z.of_nat (length l)) 0); [lia|].
  replace (Z.to_N (Z.of_nat (length l))) with (N.of_nat (length l)) by lia.
  rewrite updateN_of_nat by (rewrite length_app; simpl; lia).
  now rewrite set_nth_app_at.
Qed.

Lemma lookupZ_penult {A : Type} (l : list A) (x y : A) (z : Z) :
  z = (Z.of_nat (length ((l ++ [x]) ++ [y])) - 2)%Z ->
  lookupZ ((l ++ [x]) ++ [y]) z = Some x.
Proof.
  intros ->. rewrite <- app_assoc. apply lookupZ_app_at.
  rewrite !length_app. simpl. lia.
Qed.

(** ** Initialisation keeps the mode fields (C10) *)

Section InitFrame.

Context {F : Type} `{SF : Scalar F}.

Lemma ComputeXty_frame (L L' : Lars) :
  ComputeXty L = Some L' ->
  lasso_ L' = lasso_ L /\ elastic_net_ L' = elastic_net_ L /\
  desired_lambda_ L' = desired_lambda_ L /\ lambda_2_ L' = lambda_2_ L.
Proof.
  unfold ComputeXty. destruct (trans_mul (X_ L) (y_ L)); intros E; inversion E.
  simpl. auto.
Qed.

Lemma ComputeGram_frame (L L' : Lars) :
  ComputeGram L = Some L' ->
  lasso_ L' = lasso_ L /\ elastic_net_ L' = elastic_net_ L /\
  desired_lambda_ L' = desired_lambda_ L /\ lambda_2_ L' = lambda_2_ L.
Proof.
  unfold ComputeGram. destruct (mapM _ _); intros E; inversion E.
  simpl. auto.
Qed.

Lemma Init3_frame (L L' : Lars) (X : mat) (y : vec) (c : bool) :
  Init3 L X y c = Some L' ->
  lasso_ L' = lasso_ L /\ elastic_net_ L' = elastic_net_ L /\
  desired_lambda_ L' = desired_lambda_ L /\ lambda_2_ L' = lambda_2_ L.
Proof.
  unfold Init3. destruct (ComputeXty _) as [L1|] eqn:E1; [|discriminate].
  apply ComputeXty_frame in E1. simpl in E1.
  destruct (negb (use_cholesky_ L1)).
  - destruct (ComputeGram L1) as [L2|] eqn:E2; [|discriminate].
    apply ComputeGram_frame in E2. intros E; inversion E. simpl.
    intuition congruence.
  - intros E; inversion E. simpl. intuition congruence.
Qed.

(** C10.  The three-argument [Init] returns an object whose fields
    [lasso_], [elastic_net_], [desired_lambda_] and [lambda_2_] are those it
    was called on; the constructor is what clears the two flags; hence an
    object initialised through the four- or five-argument overload and then
    through the three-argument one is still in LASSO (and Elastic-Net) mode,
    with the parameter values of the earlier call. *)
Theorem Init3_keeps_mode (L L' : Lars) (X : mat) (y : vec) (c : bool)
  (HInit : Init3 L X y c = Some L') :
  (lasso_ L' = lasso_ L /\ elastic_net_ L' = elastic_net_ L /\
   desired_lambda_ L' = desired_lambda_ L /\ lambda_2_ L' = lambda_2_ L) /\
  (forall raw : @Lars F, lasso_ (Lars_new raw) = false /\
                         elastic_net_ (Lars_new raw) = false) /\
  (forall (L0 : @Lars F) X0 y0 c0 d,
     Init4 L0 X0 y0 c0 d = Some L ->
     lasso_ L' = true /\ desired_lambda_ L' = d /\
     elastic_net_ L' = elastic_net_ L0 /\ lambda_2_ L' = lambda_2_ L0) /\
  (forall (L0 : @Lars F) X0 y0 c0 d l2,
     Init5 L0 X0 y0 c0 d l2 = Some L ->
     lasso_ L' = true /\ desired_lambda_ L' = d /\
     elastic_net_ L' = true /\ lambda_2_ L' = l2).
Proof.
  pose proof (Init3_frame _ _ _ _ HInit) as (H1 & H2 & H3 & H4).
  split; [auto|]. split; [intros raw; simpl; auto|]. split.
  - intros L0 X0 y0 c0 d E. unfold Init4 in E.
    apply Init3_frame in E. simpl in E. intuition congruence.
  - intros L0 X0 y0 c0 d l2 E. unfold Init5, Init4 in E.
    apply Init3_frame in E. simpl in E. intuition congruence.
Qed.

End InitFrame.

Lemma Init3_keeps_mode_witness :
  Init4 (Lars_new ex_raw) ex_X1 ex_y1 false 5%float = Some ex_lasso5 /\
  lasso_ ex_lasso5_again = true /\ desired_lambda_ ex_lasso5_again = 5%float.
Proof.
  assert (H4 : Init4 (Lars_new ex_raw) ex_X1 ex_y1 false 5%float = Some ex_lasso5)
    by (vm_compute; reflexivity).
  assert (H3 : Init3 ex_lasso5 ex_X1 ex_y1 false = Some ex_lasso5_again)
    by (vm_compute; reflexivity).
  split; [exact H4|].
  destruct (Init3_keeps_mode _ _ _ _ H3) as (_ & _ & K & _).
  destruct (K _ _ _ _ _ H4) as (K1 & K2 & _).
  split; assumption.
Defined.

(** ** Interpolation at the requested regularisation value (C6) *)

Section Interpolation.

Local Open Scope R_scope.

Lemma vzip_same_length {F : Type} `{Scalar F} (f : F -> F -> F) (u v : list F) :
  length u = length v ->
  vzip f u v = Some (map (fun ab => f (fst ab) (snd ab)) (combine u v)).
Proof. intros E. unfold vzip. rewrite E, Nat.eqb_refl. reflexivity. Qed.

Lemma map_combine_map {A B C D E : Type} (f : A -> C) (g : B -> D)
  (h : C * D -> E) (u : list A) (v : list B) :
  map h (combine (map f u) (map g v)) =
  map (fun ab => h (f (fst ab), g (snd ab))) (combine u v).
Proof.
  revert v. induction u as [|a u IH]; intros [|b v]; simpl; auto.
  now rewrite IH.
Qed.

(** The formula of [InterpolateBeta], in any arithmetic. *)
Lemma InterpolateBeta_formula {F : Type} `{Scalar F} (L : @Lars F)
  (bp : list (@vec F)) (b2 b1 : @vec F) (lp : list F) (l2 l1 : F) :
  beta_path_ L = bp ++ [b2; b1] -> lambda_path_ L = lp ++ [l2; l1] ->
  length bp = length lp -> length b2 = length b1 ->
  let interp := fdiv (fsub l2 (desired_lambda_ L)) (fsub l2 l1) in
  exists L',
    InterpolateBeta L l1 = Some L' /\
    beta_path_ L' =
      bp ++ [b2; map (fun ab => fadd (fmul (fsub f1 interp) (fst ab))
                                     (fmul interp (snd ab)))
                     (combine b2 b1)] /\
    lambda_path_ L' = lp ++ [l2; desired_lambda_ L].
Proof.
  intros Hbp Hlp Hlen Hvec interp. unfold InterpolateBeta.
  assert (Eb : bp ++ [b2; b1] = (bp ++ [b2]) ++ [b1])
    by (now rewrite <- app_assoc).
  assert (El : lp ++ [l2; l1] = (lp ++ [l2]) ++ [l1])
    by (now rewrite <- app_assoc).
  rewrite Hbp, Hlp, Eb, El.
  rewrite (lookupZ_penult lp l2 l1) by (rewrite !length_app; simpl; lia).
  rewrite (lookupZ_penult bp b2 b1) by (rewrite !length_app; simpl; lia).
  rewrite (lookupZ_app_at (bp ++ [b2]) [] b1)
    by (rewrite !length_app; simpl; lia).
  rewrite vzip_same_length by (now rewrite !length_map).
  rewrite (updateZ_app_at (bp ++ [b2]) [] b1)
    by (rewrite !length_app; simpl; lia).
  rewrite (updateZ_app_at (lp ++ [l2]) [] l1)
    by (rewrite !length_app; simpl; lia).
  eexists. split; [reflexivity|]. cbn [beta_path_ lambda_path_ set_paths].
  rewrite <- !app_assoc. cbn [app].
  rewrite (map_combine_map
             (fmul (fsub f1 (fdiv (fsub l2 (desired_lambda_ L)) (fsub l2 l1))))
             (fmul (fdiv (fsub l2 (desired_lambda_ L)) (fsub l2 l1)))
             (fun ab => fadd (fst ab) (snd ab))).
  cbn [fst snd]. split; reflexivity.
Qed.

(** C6.  When the two paths end in [b2; b1] and [l2; l1] and the stopping
    test calls [InterpolateBeta] with the last lambda [l1], the call
    succeeds, the last coefficient vector becomes
    [(1 - interp) * b2 + interp * b1] with
    [interp = (l2 - desired_lambda) / (l2 - l1)], the last lambda becomes
    [desired_lambda], and nothing else in the paths changes; for lambdas 5
    and 3 and target 4 the new vector is [0.5 * b2 + 0.5 * b1] and the
    recorded lambda is 4.  The last statement also holds in binary64, where
    [(5 - 4) / (5 - 3)] and [1 - 0.5] are 0.5 without rounding. *)
Theorem InterpolateBeta_exact (L : @Lars R) (bp : list (@vec R)) (b2 b1 : @vec R)
  (lp : list R) (l2 l1 : R)
  (Hbp : beta_path_ L = bp ++ [b2; b1])
  (Hlp : lambda_path_ L = lp ++ [l2; l1])
  (Hlen : length bp = length lp)
  (Hvec : length b2 = length b1) :
  let interp := (l2 - desired_lambda_ L) / (l2 - l1) in
  exists L',
    InterpolateBeta L l1 = Some L' /\
    beta_path_ L' =
      bp ++ [b2; map (fun ab => (1 - interp) * fst ab + interp * snd ab)
                     (combine b2 b1)] /\
    lambda_path_ L' = lp ++ [l2; desired_lambda_ L] /\
    (l2 = 5 -> l1 = 3 -> desired_lambda_ L = 4 ->
     beta_path_ L' =
       bp ++ [b2; map (fun ab => 0.5 * fst ab + 0.5 * snd ab) (combine b2 b1)] /\
     lambda_path_ L' = lp ++ [l2; 4]) /\
    (forall (Lf : @Lars float) (bpf : list (@vec float)) (b2f b1f : @vec float)
            (lpf : list float),
       beta_path_ Lf = bpf ++ [b2f; b1f] ->
       lambda_path_ Lf = lpf ++ [5%float; 3%float] ->
       desired_lambda_ Lf = 4%float ->
       length bpf = length lpf -> length b2f = length b1f ->
       exists Lf',
         InterpolateBeta Lf 3%float = Some Lf' /\
         beta_path_ Lf' =
           bpf ++ [b2f; map (fun ab => PrimFloat.add
                                          (PrimFloat.mul 0.5 (fst ab))
                                          (PrimFloat.mul 0.5 (snd ab)))
                            (combine b2f b1f)] /\
         lambda_path_ Lf' = lpf ++ [5%float; 4%float]).
Proof.
  intros interp.
  destruct (InterpolateBeta_formula L bp b2 b1 lp l2 l1 Hbp Hlp Hlen Hvec)
    as (L' & HI & HB & HL).
  exists L'. split; [exact HI|]. split; [exact HB|]. split; [exact HL|].
  split.
  - intros E2 E1 Ed. rewrite HB, HL. split.
    + do 3 f_equal. apply map_ext. intros [a b]. cbn [fst snd].
      change (@fadd R Scalar_R) with Rplus. change (@fmul R Scalar_R) with Rmult.
      change (@fsub R Scalar_R) with Rminus. change (@fdiv R Scalar_R) with Rdiv.
      change (@f1 R Scalar_R) with 1.
      rewrite E2, E1, Ed. lra.
    + now rewrite Ed.
  - intros Lf bpf b2f b1f lpf Hbf Hlf Hdf Hlenf Hvecf.
    destruct (InterpolateBeta_formula Lf bpf b2f b1f lpf 5%float 3%float
                Hbf Hlf Hlenf Hvecf) as (Lf' & HIf & HBf & HLf).
    exists Lf'. split; [exact HIf|]. rewrite HBf, HLf, Hdf.
    split; reflexivity.
Qed.

End Interpolation.

Lemma InterpolateBeta_exact_witness :
  exists L',
    InterpolateBeta ex_interp 3%R = Some L' /\
    lambda_path_ L' = [5%R; 4%R].
Proof.
  destruct (InterpolateBeta_exact ex_interp [] [0%R] [2%R] [] 5%R 3%R
              eq_refl eq_refl eq_refl eq_refl) as (L' & H1 & _ & H3 & _).
  exists L'. split; [exact H1 | exact H3].
Defined.

(** ** Frame properties of the loop body *)

Ltac inv_bind H :=
  repeat match type of H with
  | match ?e with Some _ => _ | None => None end = Some _ =>
      let E := fresh "E" in destruct e eqn:E; [|discriminate H]
  | (if ?b then _ else None) = Some _ =>
      let E := fresh "E" in destruct b eqn:E; [|discriminate H]
  end.

Section LoopFrame.

Context {F : Type} `{SF : Scalar F}.

Lemma same_data_refl (L : @Lars F) : same_data L L.
Proof. unfold same_data. tauto. Qed.

Lemma same_data_trans (L1 L2 L3 : @Lars F) :
  same_data L1 L2 -> same_data L2 L3 -> same_data L1 L3.
Proof. unfold same_data. intuition congruence. Qed.

Lemma same_active_refl (L : @Lars F) : same_active L L.
Proof. unfold same_active. tauto. Qed.

Lemma Activate_spec (L L' : @Lars F) (j : N) :
  Activate L j = Some L' ->
  same_data L L' /\
  beta_path_ L' = beta_path_ L /\ lambda_path_ L' = lambda_path_ L /\
  n_active_ L' = u32_incr (n_active_ L) /\
  active_set_ L' = active_set_ L ++ [j] /\
  (N.to_nat j < length (is_active_ L))%nat /\
  is_active_ L' = set_nth (is_active_ L) (N.to_nat j) true.
Proof.
  unfold Activate. intros H. inv_bind H. inversion H; subst; clear H.
  apply updateN_Some in E. destruct E as [E1 E2]. subst.
  unfold same_data. simpl. tauto.
Qed.

Lemma Deactivate_spec (L L' : @Lars F) (k : N) :
  Deactivate L k = Some L' ->
  same_data L L' /\
  beta_path_ L' = beta_path_ L /\ lambda_path_ L' = lambda_path_ L /\
  n_active_ L' = u32_decr (n_active_ L) /\
  active_set_ L' = remove_nth (active_set_ L) (N.to_nat k) /\
  exists a, nth_error (active_set_ L) (N.to_nat k) = Some a /\
            (N.to_nat k < length (active_set_ L))%nat /\
            (N.to_nat a < length (is_active_ L))%nat /\
            is_active_ L' = set_nth (is_active_ L) (N.to_nat a) false.
Proof.
  unfold Deactivate. intros H. inv_bind H. inversion H; subst; clear H.
  apply updateN_Some in E0. destruct E0 as [E1 E2]. subst.
  apply lookupN_Some_lt in E. destruct E as [E3 E4].
  unfold same_data. simpl. repeat split; auto.
  exists n. auto.
Qed.

Lemma top_phase_frame (s s' : @LoopState F) :
  top_phase s = Some s' ->
  same_data (obj s) (obj s') /\
  beta_path_ (obj s') = beta_path_ (obj s) /\
  lambda_path_ (obj s') = lambda_path_ (obj s) /\
  beta s' = beta s /\ y_hat s' = y_hat s /\ corr s' = corr s /\
  max_corr s' = max_corr s /\ change_ind s' = change_ind s /\
  kick_out s' = false.
Proof.
  unfold top_phase. intros H.
  destruct (kick_out s).
  - inv_bind H. inversion H; subst; clear H. simpl.
    apply Deactivate_spec in E0. tauto.
  - inv_bind H. inversion H; subst; clear H. simpl.
    apply Activate_spec in E0. tauto.
Qed.

Lemma InterpolateBeta_frame (L L' : @Lars F) (u : F) :
  InterpolateBeta L u = Some L' ->
  same_data L L' /\ same_active L L' /\
  exists b, updateZ (beta_path_ L) (Z.of_nat (length (beta_path_ L)) - 1) b
            = Some (beta_path_ L') /\
            updateZ (lambda_path_ L) (Z.of_nat (length (beta_path_ L)) - 1)
              (desired_lambda_ L) = Some (lambda_path_ L').
Proof.
  unfold InterpolateBeta. intros H. inv_bind H. inversion H; subst; clear H.
  split; [unfold same_data; simpl; tauto|].
  split; [unfold same_active; simpl; tauto|].
  simpl. eauto.
Qed.

Lemma updateZ_last {A : Type} (l l' : list A) (x y : A) :
  updateZ (l ++ [x]) (Z.of_nat (length (l ++ [x])) - 1) y = Some l' ->
  l' = l ++ [y].
Proof.
  rewrite (updateZ_app_at l [] x) by (rewrite length_app; simpl; lia).
  now intros E; inversion E.
Qed.

Variable solve : @mat F -> @vec F -> option (@vec F).

(** The rest of the body leaves the active set and the factor alone and
    appends one entry to each path. *)
Lemma rest_phase_frame (s s' : @LoopState F) (brk : bool) :
  rest_phase solve s = Some (s', brk) ->
  same_data (obj s) (obj s') /\ same_active (obj s) (obj s') /\
  Rfac s' = Rfac s /\
  (exists b, beta_path_ (obj s') = beta_path_ (obj s) ++ [b] /\
             (brk = false -> b = beta s')) /\
  (length (beta_path_ (obj s)) = length (lambda_path_ (obj s)) ->
   exists l, lambda_path_ (obj s') = lambda_path_ (obj s) ++ [l] /\
             (brk = false -> l = max_corr s')) /\
  (lasso_ (obj s) = false -> brk = false /\ kick_out s' = kick_out s).
Proof.
  unfold rest_phase. intros H. inv_bind H.
  match type of H with
  | (if ?c then _ else _) = _ => destruct c eqn:Hc
  end.
  - inv_bind H. inversion H; subst; clear H. simpl.
    match goal with
    | HI : InterpolateBeta _ _ = Some _ |- _ =>
        apply InterpolateBeta_frame in HI;
        destruct HI as (Hd & Ha & b & Hb & Hl)
    end.
    simpl in *.
    split; [unfold same_data in *; simpl in *; tauto|].
    split; [unfold same_active in *; simpl in *; tauto|].
    split; [reflexivity|].
    split; [|split].
    + exists b. split; [|discriminate].
      now apply updateZ_last in Hb.
    + intros Hlen. exists (desired_lambda_ (obj s)).
      split; [|discriminate].
      match type of Hl with
      | updateZ (?lp ++ [?x]) (Z.of_nat (length (?bp ++ [?y])) - 1)%Z _ = _ =>
          assert (Hlen' : length (bp ++ [y]) = length (lp ++ [x]))
            by (rewrite !length_app; simpl; lia)
      end.
      rewrite Hlen' in Hl. now apply updateZ_last in Hl.
    + intros Hlasso. rewrite Hlasso in Hc. discriminate.
  - inversion H; subst; clear H. simpl.
    split; [unfold same_data; simpl; tauto|].
    split; [unfold same_active; simpl; tauto|].
    split; [reflexivity|].
    split; [eauto|]. split; [eauto|].
    intros Hlasso. split; [reflexivity|].
    match goal with
    | HB : lasso_bound _ _ _ _ _ = Some _ |- _ =>
        unfold lasso_bound in HB; rewrite Hlasso in HB;
        inversion HB; subst; reflexivity
    end.
Qed.

End LoopFrame.

(** ** What a call of [DoLARS] starts from (C9) *)

Section RunStart.

Context {F : Type} `{SF : Scalar F}.
Variable solve : @mat F -> @vec F -> option (@vec F).

Lemma DoLARS_begin_spec (L : @Lars F) (s0 : @LoopState F) :
  DoLARS_begin L = Some s0 ->
  Rfac s0 = empty_mat /\ beta s0 = zeros (p_ L) /\ y_hat s0 = zeros (n_ L) /\
  kick_out s0 = false /\ corr s0 = Xty_ L /\
  max_index (map fabs (Xty_ L)) = Some (max_corr s0, change_ind s0) /\
  same_active L (obj s0) /\
  p_ (obj s0) = p_ L /\ lasso_ (obj s0) = lasso_ L /\
  use_cholesky_ (obj s0) = use_cholesky_ L /\
  elastic_net_ (obj s0) = elastic_net_ L /\ X_ (obj s0) = X_ L /\
  beta_path_ (obj s0) = beta_path_ L ++ [zeros (p_ L)] /\
  lambda_path_ (obj s0) = lambda_path_ L ++ [max_corr s0].
Proof.
  unfold DoLARS_begin. intros H.
  destruct (elastic_net_ L) eqn:Hen; simpl in H; inv_bind H;
    inversion H; subst; clear H; simpl; rewrite ?Hen;
    destruct p as [m c]; unfold same_active; simpl; tauto.
Qed.

Lemma body_paths (s s' : @LoopState F) (brk : bool) :
  body solve s = Some (s', brk) ->
  length (beta_path_ (obj s)) = length (lambda_path_ (obj s)) ->
  exists b l, beta_path_ (obj s') = beta_path_ (obj s) ++ [b] /\
              lambda_path_ (obj s') = lambda_path_ (obj s) ++ [l].
Proof.
  unfold body. intros H Hlen. inv_bind H.
  apply top_phase_frame in E. destruct E as (_ & Hb & Hl & _).
  apply rest_phase_frame in H.
  destruct H as (_ & _ & _ & (b1 & Hb' & _) & Hl' & _).
  assert (Hlen1 : length (beta_path_ (obj l)) = length (lambda_path_ (obj l)))
    by congruence.
  destruct (Hl' Hlen1) as (l1 & Hl1 & _).
  exists b1, l1. split; congruence.
Qed.

Lemma main_loop_paths (fuel : nat) (s s' : @LoopState F) :
  main_loop solve fuel s = Finished s' ->
  length (beta_path_ (obj s)) = length (lambda_path_ (obj s)) ->
  exists bs ls, beta_path_ (obj s') = beta_path_ (obj s) ++ bs /\
                lambda_path_ (obj s') = lambda_path_ (obj s) ++ ls /\
                length bs = length ls.
Proof.
  revert s. induction fuel as [|fuel IH]; intros s H Hlen; simpl in H.
  - destruct (loop_cond s); [discriminate|]. inversion H; subst.
    exists [], []. now rewrite !app_nil_r.
  - destruct (loop_cond s).
    + destruct (body solve s) as [[s1 brk]|] eqn:Eb; [|discriminate].
      destruct (body_paths _ Eb Hlen) as (b & l & Hb & Hl).
      destruct brk.
      * inversion H; subst. exists [b], [l]. auto.
      * apply IH in H; [|rewrite Hb, Hl, !length_app; simpl; lia].
        destruct H as (bs & ls & Hbs & Hls & Hbl).
        exists (b :: bs), (l :: ls). rewrite Hbs, Hls, Hb, Hl, <- !app_assoc.
        simpl. auto.
    + inversion H; subst. exists [], []. now rewrite !app_nil_r.
Qed.

Lemma Init3_resets_active (L L' : @Lars F) (X : mat) (y : vec) (c : bool) :
  Init3 L X y c = Some L' ->
  n_active_ L' = 0%N /\ active_set_ L' = [] /\
  is_active_ L' = repeat false (N.to_nat (n_cols X)) /\ p_ L' = n_cols X /\
  beta_path_ L' = beta_path_ L /\ lambda_path_ L' = lambda_path_ L.
Proof.
  unfold Init3. intros H.
  destruct (ComputeXty (set_data L X y c)) as [L1|] eqn:E1; [|discriminate].
  unfold ComputeXty in E1.
  destruct (trans_mul _ _); inversion E1; subst; clear E1. simpl in H.
  destruct (negb c).
  - unfold ComputeGram in H.
    destruct (mapM _ _); inversion H; subst; clear H; simpl.
    repeat split; reflexivity.
  - inversion H; subst; clear H; simpl. repeat split; reflexivity.
Qed.

(** What a call of [DoLARS] keeps.  A call of [DoLARS] starts with an empty factor
    [R], a zero [beta] and no pending removal, but it keeps the active set
    it finds and appends to the two paths: the paths it returns are the
    earlier paths followed by this run's entries, the first being the zero
    vector.  The active set and the paths are empty for the first run after
    construction and [Init]. *)
Theorem DoLARS_appends_to_paths (fuel : nat) (L : @Lars F) (s : @LoopState F)
  (Hrun : DoLARS solve fuel L = Finished s)
  (Hlen : length (beta_path_ L) = length (lambda_path_ L)) :
  (exists s0, DoLARS_begin L = Some s0 /\
     Rfac s0 = empty_mat /\ beta s0 = zeros (p_ L) /\ kick_out s0 = false /\
     same_active L (obj s0)) /\
  (exists bs ls,
     beta_path_ (obj s) = beta_path_ L ++ zeros (p_ L) :: bs /\
     lambda_path_ (obj s) = lambda_path_ L ++ ls /\
     length ls = S (length bs)) /\
  (forall raw X y c,
     Init3 (Lars_new raw) X y c = Some L -> fresh_run_state L).
Proof.
  unfold DoLARS in Hrun.
  destruct (DoLARS_begin L) as [s0|] eqn:E0; [|discriminate].
  pose proof (DoLARS_begin_spec _ E0) as
    (HR & Hb & _ & Hk & _ & _ & Ha & _ & _ & _ & _ & _ & Hbp & Hlp).
  split; [exists s0; tauto|]. split.
  - apply main_loop_paths in Hrun;
      [|rewrite Hbp, Hlp, !length_app; simpl; lia].
    destruct Hrun as (bs & ls & Hbs & Hls & Hbl).
    exists bs, (max_corr s0 :: ls).
    rewrite Hbs, Hls, Hbp, Hlp, <- !app_assoc. simpl.
    split; [reflexivity|]. split; [reflexivity|]. lia.
  - intros raw X y c HI. apply Init3_resets_active in HI.
    unfold fresh_run_state. simpl in HI. tauto.
Qed.

End RunStart.

Lemma DoLARS_appends_to_paths_witness :
  exists bs ls,
    beta_path_ (obj ex_first_run) = beta_path_ ex_fresh ++ zeros (p_ ex_fresh) :: bs /\
    lambda_path_ (obj ex_first_run) = lambda_path_ ex_fresh ++ ls /\
    length ls = S (length bs).
Proof.
  assert (Hrun : DoLARS example_solve 10 ex_fresh = Finished ex_first_run)
    by (vm_compute; reflexivity).
  exact (proj1 (proj2 (DoLARS_appends_to_paths example_solve 10 ex_fresh
                         Hrun eq_refl))).
Defined.

(** C9, at an input on which it fails.  [Init(X, y, false)] on one
    predictor and one observation, both 1, then [DoLARS()] twice.  The
    second call starts with the active set and the paths the first one
    left ([n_active_ = 1], two entries in each path) and appends to them:
    the paths it returns have three entries, the first two being those of
    the first run.  [DoLARS] clears its locals ([beta], [y_hat], [R],
    [kick_out]) but neither the active set, which only [Init] resets, nor
    the paths, which nothing resets.  The run solves one 1 x 1 system. *)
Lemma DoLARS_second_run_not_fresh :
  Init3 (Lars_new ex_raw) ex_X1 ex_y1 false = Some ex_fresh /\
  DoLARS example_solve 10 ex_fresh = Finished ex_first_run /\
  DoLARS example_solve 10 (obj ex_first_run) = Finished ex_second_run /\
  ~ fresh_run_state (obj ex_first_run) /\
  n_active_ (obj ex_first_run) = 1%N /\
  active_set_ (obj ex_first_run) = [0%N] /\
  beta_path_ (obj ex_first_run) = [[0%float]; [1%float]] /\
  lambda_path_ (obj ex_first_run) = [1%float; 0%float] /\
  beta_path_ (obj ex_second_run) = [[0%float]; [1%float]; [0%float]] /\
  lambda_path_ (obj ex_second_run) = [1%float; 0%float; 1%float].
Proof.
  repeat split; try (vm_compute; reflexivity).
  intros (H & _). vm_compute in H. discriminate H.
Qed.

(** ** Writing into containers *)

Lemma lookupN_updateN_eq {A : Type} (l l' : list A) (i : N) (x : A) :
  updateN l i x = Some l' -> lookupN l' i = Some x.
Proof.
  intros H. apply updateN_Some in H. destruct H as [Hi ->].
  rewrite lookupN_nth_error. now apply nth_error_set_nth_eq.
Qed.

Lemma lookupN_updateN_neq {A : Type} (l l' : list A) (i j : N) (x : A) :
  updateN l i x = Some l' -> i <> j -> lookupN l' j = lookupN l j.
Proof.
  intros H Hij. apply updateN_Some in H. destruct H as [Hi ->].
  rewrite !lookupN_nth_error. apply nth_error_set_nth_neq. lia.
Qed.

Lemma updateN_length {A : Type} (l l' : list A) (i : N) (x : A) :
  updateN l i x = Some l' -> length l' = length l.
Proof.
  intros H. apply updateN_Some in H. destruct H as [_ ->].
  apply set_nth_length.
Qed.

(** A loop that stores, for each element [x] of a list, the value [val x] at
    the location [loc x] of a container with a lookup [get] and an update
    [set]: afterwards the location of each element holds its value. *)
Section StoreLoop.

Variables (S Loc V X : Type).
Variable get : S -> Loc -> option V.
Variable set : S -> Loc -> V -> option S.
Variable loc : X -> Loc.
Variable val : X -> option V.

Hypothesis get_set_eq : forall s s' k v, set s k v = Some s' -> get s' k = Some v.
Hypothesis get_set_neq :
  forall s s' k k' v, set s k v = Some s' -> k <> k' -> get s' k' = get s k'.
Hypothesis loc_dec : forall k k' : Loc, {k = k'} + {k <> k'}.



End StoreLoop.


(** ** Column replacement (C2) *)

Section Update.

Context {F : Type} `{SF : Scalar F}.

Lemma foldM_ext {A S : Type} (f g : S -> A -> option S) (l : list A) (s : S) :
  (forall s a, f s a = g s a) -> foldM f l s = foldM g l s.
Proof.
  intros Hfg. revert s. induction l as [|a l IH]; intros s; simpl; auto.
  rewrite Hfg. destruct (g s a); auto.
Qed.


Lemma at_set_at_neq (M M' : @mat F) (ij ij' : N * N) (x : F) :
  set_at M (fst ij) (snd ij) x = Some M' -> ij <> ij' ->
  at_ M' (fst ij') (snd ij') = at_ M (fst ij') (snd ij').
Proof.
  destruct ij as [i j], ij' as [i' j']. unfold set_at, at_, col. simpl.
  intros H Hne. inv_bind H. inversion H; subst; clear H. simpl.
  destruct (N.eq_dec j j') as [->|Hj].
  - rewrite (lookupN_updateN_eq _ _ _ E1), E.
    eapply lookupN_updateN_neq; eauto. congruence.
  - now rewrite (lookupN_updateN_neq _ _ E1 Hj).
Qed.


Lemma col_set_col_neq (M M' : @mat F) (j j' : N) (c : vec) :
  set_col M j c = Some M' -> j <> j' -> col M' j' = col M j'.
Proof.
  unfold set_col, col. intros H Hne. inv_bind H. inversion H; subst; clear H.
  simpl. eapply lookupN_updateN_neq; eauto.
Qed.



Lemma In_combine_seq {A : Type} (l : list A) (base : nat) (a : N) (i : A) :
  In (a, i) (combine (map N.of_nat (seq base (length l))) l) <->
  exists k, a = N.of_nat (base + k) /\ nth_error l k = Some i.
Proof.
  revert base. induction l as [|x l IH]; intros base; simpl.
  - split; [intros [] | intros (k & _ & Hk); destruct k; discriminate].
  - split.
    + intros [Heq|Hin].
      * inversion Heq; subst. exists 0%nat. split; [f_equal; lia | reflexivity].
      * apply IH in Hin. destruct Hin as (k & -> & Hk).
        exists (S k). split; [f_equal; lia | exact Hk].
    + intros (k & -> & Hk). destruct k as [|k]; simpl in Hk.
      * inversion Hk; subst. left. f_equal. f_equal. lia.
      * right. apply IH. exists k. split; [f_equal; lia | exact Hk].
Qed.

Lemma In_combine_upto {A : Type} (l : list A) (a : N) (i : A) :
  In (a, i) (combine (upto (N.of_nat (length l))) l) <->
  exists k, a = N.of_nat k /\ nth_error l k = Some i.
Proof. unfold upto. rewrite Nat2N.id. apply In_combine_seq. Qed.

End Update.


(** ** No failure path in the Cholesky insertion (C8) *)

Section InsertTotal.

Context {F : Type} `{SF : Scalar F}.

Lemma forward_subst_length (cs : list (@vec F)) (g x : @vec F) :
  length (forward_subst cs g x) = (length x + Nat.min (length cs) (length g))%nat.
Proof.
  revert g x. induction cs as [|c cs IH]; intros [|gi g] x; simpl; try lia.
  rewrite IH, length_app. simpl. lia.
Qed.




End InsertTotal.



(** ** The active set between iterations *)

Lemma wrap32_small (z : Z) :
  (0 <= z < u32_modulus)%Z -> wrap32 z = Z.to_N z.
Proof. intros Hz. unfold wrap32. now rewrite Z.mod_small. Qed.

Lemma u32_incr_small (n : N) :
  (Z.of_N n + 1 < u32_modulus)%Z -> u32_incr n = (n + 1)%N.
Proof. intros Hn. unfold u32_incr. rewrite wrap32_small; lia. Qed.

Lemma u32_decr_small (n : N) :
  (0 < n)%N -> (Z.of_N n < u32_modulus)%Z -> u32_decr n = (n - 1)%N.
Proof. intros Hn Hm. unfold u32_decr. rewrite wrap32_small; lia. Qed.

Lemma u32_minus_one_val : u32_minus_one = 4294967295%N.
Proof. reflexivity. Qed.

Lemma lookupN_out_of_range {A : Type} (l : list A) (i : N) :
  (N.of_nat (length l) <= i)%N -> lookupN l i = None.
Proof.
  intros Hi. unfold lookupN.
  destruct (N.ltb_spec i (N.of_nat (length l))); [lia | reflexivity].
Qed.

Lemma remove_nth_length {A : Type} (l : list A) (k : nat) :
  (k < length l)%nat -> length (remove_nth l k) = (length l - 1)%nat.
Proof.
  revert k. induction l as [|a l IH]; intros [|k] Hk; simpl in *; try lia.
  rewrite IH by lia. lia.
Qed.

Lemma In_remove_nth {A : Type} (l : list A) (k : nat) (x : A) :
  In x (remove_nth l k) -> In x l.
Proof.
  revert k. induction l as [|a l IH]; intros [|k]; simpl; auto.
  intros [H|H]; [now left | right; eauto].
Qed.

Lemma NoDup_remove_nth {A : Type} (l : list A) (k : nat) :
  NoDup l -> NoDup (remove_nth l k).
Proof.
  revert k. induction l as [|a l IH]; intros [|k] Hnd; simpl; auto.
  - now inversion Hnd.
  - inversion Hnd; subst. constructor; [|now apply IH].
    intros Hin. apply In_remove_nth in Hin. contradiction.
Qed.

Lemma remove_nth_In_iff {A : Type} (l : list A) (k : nat) (a x : A) :
  NoDup l -> nth_error l k = Some a ->
  (In x (remove_nth l k) <-> In x l /\ x <> a).
Proof.
  revert k. induction l as [|b l IH]; intros [|k] Hnd Hk; simpl in *;
    try discriminate.
  - inversion Hk; subst. inversion Hnd; subst.
    split.
    + intros Hin. split; [now right|]. intros ->. contradiction.
    + intros [[Heq|Hin] Hne]; [congruence | exact Hin].
  - inversion Hnd; subst. rewrite (IH k H2 Hk).
    assert (Hba : b <> a).
    { intros ->. apply H1. eapply nth_error_In; eauto. }
    split.
    + intros [Heq|[Hin Hne]]; [subst; auto | auto].
    + intros [[Heq|Hin] Hne]; auto.
Qed.

Section ActiveSet.

Context {F : Type} `{SF : Scalar F}.

Lemma Activate_wf (L L' : @Lars F) (j : N) :
  wf_active L -> (n_active_ L < p_ L)%N ->
  lookupN (is_active_ L) j <> Some true ->
  Activate L j = Some L' ->
  wf_active L' /\ n_active_ L' = (n_active_ L + 1)%N /\
  active_set_ L' = active_set_ L ++ [j] /\ ~ In j (active_set_ L) /\
  (forall a, a <> j -> lookupN (is_active_ L') a = lookupN (is_active_ L) a).
Proof.
  intros (Hn & Hlen & Hp & Hle & Hnd & Hmem) Hlt Hj HA.
  apply Activate_spec in HA.
  destruct HA as (Hd & _ & _ & Hn' & Has & Hjlt & Hfl).
  destruct Hd as (_ & _ & _ & Hp' & _).
  assert (Hnotin : ~ In j (active_set_ L)) by (rewrite Hmem; exact Hj).
  rewrite u32_incr_small in Hn' by lia.
  assert (Hother : forall a, a <> j ->
            lookupN (is_active_ L') a = lookupN (is_active_ L) a).
  { intros a Ha. rewrite Hfl, !lookupN_nth_error.
    apply nth_error_set_nth_neq. lia. }
  split; [|tauto].
  unfold wf_active. rewrite Hn', Has, Hp', Hfl, set_nth_length, length_app.
  simpl. repeat split; try lia; try assumption.
  - apply NoDup_app; [exact Hnd | constructor; [intros []|constructor] |].
    intros a Ha [Hb|[]]. subst. contradiction.
  - intros Hin. apply in_app_or in Hin. destruct Hin as [Hin|[<-|[]]].
    + assert (Haj : a <> j) by (intros ->; contradiction).
      rewrite <- Hfl, Hother by exact Haj. now apply Hmem.
    + rewrite lookupN_nth_error. now apply nth_error_set_nth_eq.
  - intros Hl. destruct (N.eq_dec a j) as [->|Haj].
    + apply in_or_app. right. now left.
    + apply in_or_app. left. apply Hmem.
      rewrite <- Hfl, Hother in Hl by exact Haj. exact Hl.
Qed.

Lemma Deactivate_wf (L L' : @Lars F) (k : N) :
  wf_active L -> Deactivate L k = Some L' ->
  wf_active L' /\ (0 < n_active_ L)%N /\
  n_active_ L' = (n_active_ L - 1)%N /\
  active_set_ L' = remove_nth (active_set_ L) (N.to_nat k) /\
  exists a, nth_error (active_set_ L) (N.to_nat k) = Some a /\
            ~ In a (active_set_ L') /\
            (forall b, In b (active_set_ L') <-> In b (active_set_ L) /\ b <> a).
Proof.
  intros (Hn & Hlen & Hp & Hle & Hnd & Hmem) HD.
  apply Deactivate_spec in HD.
  destruct HD as (Hd & _ & _ & Hn' & Has & a & Ha & Hk & Halt & Hfl).
  destruct Hd as (_ & _ & _ & Hp' & _).
  assert (Hpos : (0 < n_active_ L)%N) by lia.
  rewrite u32_decr_small in Hn' by lia.
  assert (Hiff := fun b => remove_nth_In_iff (N.to_nat k) b Hnd Ha).
  split; [|split; [exact Hpos|split; [exact Hn'|split; [exact Has|]]]].
  - unfold wf_active.
    rewrite Hn', Has, Hp', Hfl, set_nth_length, remove_nth_length by exact Hk.
    repeat split; try lia.
    + now apply NoDup_remove_nth.
    + intros Hin. apply Hiff in Hin. destruct Hin as [Hin Hne].
      rewrite lookupN_nth_error, nth_error_set_nth_neq by lia.
      rewrite <- lookupN_nth_error. now apply Hmem.
    + intros Hl. apply Hiff.
      destruct (N.eq_dec a0 a) as [->|Hne].
      * rewrite lookupN_nth_error, nth_error_set_nth_eq in Hl by exact Halt.
        discriminate.
      * split; [|exact Hne]. apply Hmem.
        rewrite lookupN_nth_error, nth_error_set_nth_neq in Hl by lia.
        now rewrite lookupN_nth_error.
  - exists a. split; [exact Ha|]. rewrite Has. split.
    + intros Hin. apply Hiff in Hin. tauto.
    + exact Hiff.
Qed.

End ActiveSet.

(** ** One iteration, in detail *)

Section BodyFacts.

Context {F : Type} `{SF : Scalar F}.

Lemma upto_lt (n i : N) : In i (upto n) -> (i < n)%N.
Proof.
  unfold upto. intros Hin. apply in_map_iff in Hin.
  destruct Hin as (k & <- & Hk). apply in_seq in Hk. lia.
Qed.

(** The index left by the scan of the inactive variables is the one it
    started with or an inactive column. *)
Lemma inactive_scan_index (L : @Lars F) (corr yhd : @vec F) (mc nrm : F)
  (gc gc' : F * N) :
  inactive_scan L corr yhd mc nrm gc = Some gc' ->
  snd gc' = snd gc \/
  (snd gc' < p_ L)%N /\ lookupN (is_active_ L) (snd gc') = Some false.
Proof.
  unfold inactive_scan. destruct (n_active_ L <? p_ L)%N.
  - assert (Hgen : forall l gc0,
              (forall i, In i l -> (i < p_ L)%N) ->
              foldM (fun (gc : F * N) ind =>
                  act <- lookupN (is_active_ L) ind ;;
                  if act : bool then Some gc
                  else
                    c <- col (X_ L) ind ;;
                    dir_corr <- dot c yhd ;;
                    ci <- lookupN corr ind ;;
                    let val1 := fdiv (fsub mc ci) (fsub nrm dir_corr) in
                    let val2 := fdiv (fadd mc ci) (fadd nrm dir_corr) in
                    let gc := if fltb f0 val1 && fltb val1 (fst gc)
                              then (val1, ind) else gc in
                    let gc := if fltb f0 val2 && fltb val2 (fst gc)
                              then (val2, ind) else gc in
                    Some gc) l gc0 = Some gc' ->
              snd gc' = snd gc0 \/
              (snd gc' < p_ L)%N /\ lookupN (is_active_ L) (snd gc') = Some false).
    { induction l as [|i l IH]; intros gc0 Hl H; simpl in H.
      - inversion H. now left.
      - destruct (lookupN (is_active_ L) i) as [act|] eqn:Eact; [|discriminate].
        assert (Hi : (i < p_ L)%N) by (apply Hl; now left).
        assert (Hl' : forall i0, In i0 l -> (i0 < p_ L)%N)
          by (intros; apply Hl; now right).
        destruct act.
        + apply (IH _ Hl' H).
        + destruct (col (X_ L) i) as [c|]; [|discriminate].
          destruct (dot c yhd) as [dc|]; [|discriminate].
          destruct (lookupN corr i) as [ci|]; [|discriminate].
          apply (IH _ Hl') in H.
          destruct H as [H|H]; [|now right].
          rewrite H.
          repeat match goal with
          | |- context [if ?b then _ else _] => destruct b
          end; simpl; auto. }
    intros H. apply (Hgen _ _ (@upto_lt (p_ L)) H).
  - intros H. inversion H. now left.
Qed.

Variable solve : @mat F -> @vec F -> option (@vec F).

(** What the second part of the body computes, step by step. *)
Lemma rest_phase_inv (s s' : @LoopState F) (brk : bool) :
  rest_phase solve s = Some (s', brk) ->
  exists sg bd nrm yhd gc gamma,
    signs (obj s) (corr s) = Some sg /\
    direction solve (obj s) (Rfac s) sg = Some (bd, nrm) /\
    ComputeYHatDirection (obj s) bd (y_hat_direction s) = Some yhd /\
    inactive_scan (obj s) (corr s) yhd (max_corr s) nrm
      (fdiv (max_corr s) nrm, u32_minus_one) = Some gc /\
    lasso_bound (obj s) (beta s) bd (kick_out s) gc
      = Some (kick_out s', (gamma, change_ind s')) /\
    update_beta (obj s) (beta s) bd gamma = Some (beta s') /\
    max_corr s' = fsub (max_corr s) (fmul gamma nrm) /\
    (brk = false ->
     (lasso_ (obj s) && fleb (max_corr s') (desired_lambda_ (obj s))) = false /\
     beta_path_ (obj s') = beta_path_ (obj s) ++ [beta s'] /\
     lambda_path_ (obj s') = lambda_path_ (obj s) ++ [max_corr s']) /\
    (brk = true ->
     lasso_ (obj s) = true /\
     fleb (max_corr s') (desired_lambda_ (obj s)) = true /\
     InterpolateBeta
       (set_paths (obj s) (beta_path_ (obj s) ++ [beta s'])
          (lambda_path_ (obj s) ++ [max_corr s'])) (max_corr s')
     = Some (obj s')).
Proof.
  unfold rest_phase. intros H. inv_bind H.
  match type of H with
  | (if ?c then _ else _) = _ => destruct c eqn:Hc
  end.
  - inv_bind H. inversion H; subst; clear H. simpl in *.
    apply andb_prop in Hc. destruct Hc as [Hc1 Hc2].
    repeat match goal with
    | p : (_ * _)%type |- _ => destruct p
    end.
    simpl in *. do 6 eexists.
    repeat (split; [eassumption || reflexivity|]).
    split; [discriminate|]. intros _. auto.
  - inversion H; subst; clear H. simpl in *.
    repeat match goal with
    | p : (_ * _)%type |- _ => destruct p
    end.
    simpl in *. do 6 eexists.
    repeat (split; [eassumption || reflexivity|]).
    split; [intros _; auto|discriminate].
Qed.

End BodyFacts.

(** ** Pure LARS: the active set only grows and the loop ends (C7) *)

Section PureLARS.

Context {F : Type} `{SF : Scalar F}.

Lemma wf_active_same (L L' : @Lars F) :
  same_data L L' -> same_active L L' -> wf_active L -> wf_active L'.
Proof.
  intros (_ & _ & _ & Hp & _) (Hn & Ha & Hf).
  unfold wf_active. now rewrite Hn, Ha, Hf, Hp.
Qed.

Lemma top_phase_activate (s s1 : @LoopState F) :
  kick_out s = false -> top_phase s = Some s1 ->
  Activate (obj s) (change_ind s) = Some (obj s1).
Proof.
  unfold top_phase. intros Hk H. rewrite Hk in H.
  inv_bind H. inversion H; subst; clear H. simpl. reflexivity.
Qed.

Lemma top_phase_deactivate (s s1 : @LoopState F) :
  kick_out s = true -> top_phase s = Some s1 ->
  Deactivate (obj s) (change_ind s) = Some (obj s1) /\
  (if use_cholesky_ (obj s) then CholeskyDelete (Rfac s) (change_ind s)
   else Some (Rfac s)) = Some (Rfac s1).
Proof.
  unfold top_phase. intros Hk H. rewrite Hk in H.
  inv_bind H. inversion H; subst; clear H. simpl. auto.
Qed.

(** The state before the loop of a freshly initialised object. *)
Lemma fresh_loop_inv (L0 : @Lars F) (X : @mat F) (y : @vec F) (c : bool)
  (L : @Lars F) (s0 : @LoopState F) :
  Init3 L0 X y c = Some L -> (Z.of_N (n_cols X) < u32_modulus)%Z ->
  DoLARS_begin L = Some s0 ->
  loop_inv s0 /\ kick_out s0 = false /\ lasso_ (obj s0) = lasso_ L0 /\
  n_active_ (obj s0) = 0%N /\ active_set_ (obj s0) = [].
Proof.
  intros HI Hp HB.
  pose proof (Init3_resets_active _ _ _ _ HI) as (Hn & Ha & Hf & Hpx & _).
  pose proof (Init3_frame _ _ _ _ HI) as (Hl & _).
  pose proof (DoLARS_begin_spec _ HB) as
    (_ & _ & _ & Hk0 & _ & _ & (Hn0 & Ha0 & Hf0) & Hp0 & Hl0 & _).
  split; [|split; [exact Hk0|repeat split; congruence]].
  split.
  + unfold wf_active. rewrite Hn0, Ha0, Hf0, Hp0, Hn, Ha, Hf, Hpx.
    rewrite repeat_length. simpl.
    split; [reflexivity|]. split; [reflexivity|]. split; [exact Hp|].
    split; [lia|]. split; [constructor|].
    intros a. split; [intros []|].
    intros Hl'. rewrite lookupN_nth_error in Hl'.
    apply nth_error_In in Hl'. apply repeat_spec in Hl'. discriminate.
  + intros _. rewrite Hf0, Hf. rewrite lookupN_nth_error.
    intros Hl'. apply nth_error_In in Hl'. apply repeat_spec in Hl'.
    discriminate.
Qed.

Variable solve : @mat F -> @vec F -> option (@vec F).

Lemma body_pure_step (s s' : @LoopState F) (brk : bool) :
  lasso_ (obj s) = false -> loop_inv s -> kick_out s = false ->
  loop_cond s = true -> body solve s = Some (s', brk) ->
  brk = false /\ kick_out s' = false /\ loop_inv s' /\
  lasso_ (obj s') = false /\ p_ (obj s') = p_ (obj s) /\
  n_active_ (obj s') = (n_active_ (obj s) + 1)%N /\
  active_set_ (obj s') = active_set_ (obj s) ++ [change_ind s] /\
  ~ In (change_ind s) (active_set_ (obj s)).
Proof.
  intros Hlasso [Hwf Hci] Hk Hcond Hbody.
  unfold loop_cond in Hcond. apply andb_prop in Hcond.
  destruct Hcond as [Hlt _]. apply N.ltb_lt in Hlt.
  unfold body in Hbody.
  destruct (top_phase s) as [s1|] eqn:Etop; [|discriminate].
  pose proof (top_phase_frame _ Etop) as (Hd1 & _ & _ & _ & _ & _ & _ & _ & Hk1).
  pose proof (top_phase_activate _ Hk Etop) as HA.
  destruct (@Activate_wf F (obj s) (obj s1) (change_ind s) Hwf Hlt (Hci Hk) HA)
    as (Hwf1 & Hn1 & Has1 & Hnotin & _).
  pose proof (rest_phase_frame _ _ Hbody) as (Hd2 & Ha2 & _ & _ & _ & Hpure).
  assert (Hlasso1 : lasso_ (obj s1) = false).
  { destruct Hd1 as (_ & _ & _ & _ & _ & _ & _ & Hl & _). congruence. }
  destruct (Hpure Hlasso1) as [Hbrk Hk'].
  pose proof (rest_phase_inv _ _ Hbody) as
    (sg & bd & nrm & yhd & gc & gamma & _ & _ & _ & Hscan & Hlb & _).
  unfold lasso_bound in Hlb. rewrite Hlasso1 in Hlb.
  injection Hlb as Hko Hgc.
  apply inactive_scan_index in Hscan. rewrite Hgc in Hscan. simpl in Hscan.
  assert (Hwf' : wf_active (obj s')) by (eapply wf_active_same; eauto).
  destruct Ha2 as (Hn2 & Has2 & Hf2).
  destruct Hd1 as (_ & _ & _ & Hp1 & _).
  destruct Hd2 as (_ & _ & _ & Hp2 & _ & _ & _ & Hl2 & _).
  split; [exact Hbrk|]. split; [congruence|].
  split; [|repeat split; congruence].
  split; [exact Hwf'|]. intros _.
  destruct Hscan as [Hm1|[_ Hfalse]].
  - destruct Hwf' as (_ & Hlen & Hp & _).
    rewrite Hm1, lookupN_out_of_range; [discriminate|].
    rewrite u32_minus_one_val. unfold u32_modulus in Hp. lia.
  - rewrite Hf2, Hfalse. discriminate.
Qed.

(** Pure LARS on iterations that return.  With LASSO mode off and no
    removal pending: an iteration never
    ends in [break], leaves no removal pending, and appends [change_ind], a
    column that was not active, to the active set, so that [n_active_]
    grows by exactly one; with [p_ - n_active_] iterations allowed the main
    loop is left (or the run is aborted by a refused operation), and when
    it is left either [n_active_ == p_] or [max_corr > EPS] is false; the
    state before the loop of a freshly initialised object is such a
    state. *)
Theorem pure_LARS_terminates (s : @LoopState F)
  (Hlasso : lasso_ (obj s) = false)
  (Hinv : loop_inv s)
  (Hk : kick_out s = false) :
  (forall s' brk,
     loop_cond s = true -> body solve s = Some (s', brk) ->
     brk = false /\ kick_out s' = false /\ loop_inv s' /\
     n_active_ (obj s') = (n_active_ (obj s) + 1)%N /\
     active_set_ (obj s') = active_set_ (obj s) ++ [change_ind s] /\
     ~ In (change_ind s) (active_set_ (obj s))) /\
  (forall fuel,
     (N.to_nat (p_ (obj s) - n_active_ (obj s)) <= fuel)%nat ->
     main_loop solve fuel s <> Timeout /\
     forall s', main_loop solve fuel s = Finished s' ->
       kick_out s' = false /\ p_ (obj s') = p_ (obj s) /\
       (n_active_ (obj s) <= n_active_ (obj s') <= p_ (obj s))%N /\
       (exists added,
          active_set_ (obj s') = active_set_ (obj s) ++ added /\
          N.of_nat (length added) = (n_active_ (obj s') - n_active_ (obj s))%N) /\
       (n_active_ (obj s') = p_ (obj s') \/ fltb EPS (max_corr s') = false)) /\
  (forall L0 X y c L s0,
     Init3 L0 X y c = Some L -> (Z.of_N (n_cols X) < u32_modulus)%Z ->
     DoLARS_begin L = Some s0 ->
     loop_inv s0 /\ kick_out s0 = false /\ lasso_ (obj s0) = lasso_ L0 /\
     n_active_ (obj s0) = 0%N).
Proof.
  split; [|split].
  - intros s' brk Hc Hb.
    destruct (body_pure_step Hlasso Hinv Hk Hc Hb)
      as (H1 & H2 & H3 & _ & _ & H4 & H5 & H6).
    tauto.
  - intros fuel. revert s Hlasso Hinv Hk.
    induction fuel as [|fuel IH]; intros s Hlasso Hinv Hk Hfuel; simpl.
    + destruct (loop_cond s) eqn:Hc.
      * exfalso. unfold loop_cond in Hc. apply andb_prop in Hc.
        destruct Hc as [Hlt _]. apply N.ltb_lt in Hlt. lia.
      * split; [discriminate|]. intros s' E. inversion E; subst.
        destruct Hinv as [(_ & _ & _ & Hle & _) _].
        split; [exact Hk|]. split; [reflexivity|]. split; [lia|].
        split; [exists []; rewrite app_nil_r; split; [reflexivity|simpl; lia]|].
        unfold loop_cond in Hc. apply andb_false_iff in Hc.
        destruct Hc as [Hc|Hc]; [left|now right].
        apply N.ltb_ge in Hc. lia.
    + destruct (loop_cond s) eqn:Hc.
      * destruct (body solve s) as [[s1 brk]|] eqn:Hb.
        -- destruct (body_pure_step Hlasso Hinv Hk Hc Hb)
             as (-> & Hk1 & Hinv1 & Hl1 & Hp1 & Hn1 & Has1 & _).
           assert (Hlt : (n_active_ (obj s) < p_ (obj s))%N).
           { unfold loop_cond in Hc. apply andb_prop in Hc.
             destruct Hc as [Hlt _]. now apply N.ltb_lt in Hlt. }
           destruct (IH s1 Hl1 Hinv1 Hk1) as [Hnt Hfin]; [rewrite Hp1, Hn1; lia|].
           split; [exact Hnt|]. intros s' E.
           destruct (Hfin s' E) as (Hk' & Hp' & Hrange & (added & Hadd & Hlen) & Hexit).
           split; [exact Hk'|]. split; [congruence|].
           split; [rewrite Hp1, Hn1 in Hrange; lia|].
           split; [|exact Hexit].
           exists (change_ind s :: added). rewrite Hadd, Has1, <- app_assoc.
           split; [reflexivity|]. simpl length. rewrite Hn1 in Hlen, Hrange. lia.
        -- split; [discriminate|]. intros s' E. discriminate.
      * split; [discriminate|]. intros s' E. inversion E; subst.
        destruct Hinv as [(_ & _ & _ & Hle & _) _].
        split; [exact Hk|]. split; [reflexivity|]. split; [lia|].
        split; [exists []; rewrite app_nil_r; split; [reflexivity|simpl; lia]|].
        unfold loop_cond in Hc. apply andb_false_iff in Hc.
        destruct Hc as [Hc|Hc]; [left|now right].
        apply N.ltb_ge in Hc. lia.
  - intros L0 X y c L s0 HI Hp HB.
    destruct (fresh_loop_inv _ _ _ _ HI Hp HB) as (H1 & H2 & H3 & H4 & _).
    tauto.
Qed.

End PureLARS.

Lemma pure_LARS_terminates_witness :
  main_loop example_solve 1 ex_begin <> Timeout.
Proof.
  assert (Hinv : loop_inv ex_begin).
  { split.
    - unfold wf_active. simpl.
      split; [reflexivity|]. split; [reflexivity|]. split; [reflexivity|].
      split; [discriminate|]. split; [constructor|].
      intros a. split; [intros []|].
      intros Hl. rewrite lookupN_nth_error in Hl.
      apply nth_error_In in Hl. destruct Hl as [Hl|[]]. discriminate.
    - intros _. vm_compute. discriminate. }
  exact (proj1 (proj1 (proj2 (@pure_LARS_terminates float _ example_solve
                                ex_begin eq_refl Hinv eq_refl))
                  1%nat (le_n 1))).
Defined.

(** ** The LASSO bound on the step (C3) *)

Section LassoRule.

Local Open Scope R_scope.

Lemma Rltb_true (a b : R) : Rltb a b = true <-> a < b.
Proof. unfold Rltb. destruct (Rlt_dec a b); split; auto; discriminate. Qed.

Lemma Rltb_false (a b : R) : Rltb a b = false <-> b <= a.
Proof.
  unfold Rltb. destruct (Rlt_dec a b); split; auto; try discriminate; lra.
Qed.

Lemma Rleb_true (a b : R) : Rleb a b = true <-> a <= b.
Proof. unfold Rleb. destruct (Rle_dec a b); split; auto; discriminate. Qed.

Lemma Reqb_true (a b : R) : Reqb a b = true <-> a = b.
Proof. unfold Reqb. destruct (Req_dec_T a b); split; auto; discriminate. Qed.

(** The scan of [lasso_scan] on a list of ratios, positions counted from
    [i0]: either nothing in the list is positive and below the bound, or
    the result is the first position that holds the least positive
    ratio. *)
Lemma min_ratio_scan (l : list R) (i0 : nat) (b : R) (idx : N) :
  let res :=
    fold_left (fun (bk : R * N) (ir : N * R) =>
                 if Rltb 0 (snd ir) && Rltb (snd ir) (fst bk)
                 then (snd ir, fst ir) else bk)
      (combine (map N.of_nat (seq i0 (length l))) l) (b, idx) in
  (res = (b, idx) /\ forall i r, nth_error l i = Some r -> ~ (0 < r < b)) \/
  (exists k, snd res = N.of_nat (i0 + k) /\ nth_error l k = Some (fst res) /\
             0 < fst res < b /\
             (forall i r, nth_error l i = Some r -> 0 < r -> fst res <= r) /\
             (forall i r, (i < k)%nat -> nth_error l i = Some r -> 0 < r ->
                          fst res < r)).
Proof.
  revert i0 b idx. induction l as [|r l IH]; intros i0 b idx; simpl.
  - left. split; [reflexivity|]. intros [|i] r0 H; discriminate.
  - destruct (Rltb 0 r && Rltb r b) eqn:Hsel.
    + apply andb_prop in Hsel. destruct Hsel as [H0 Hb].
      apply Rltb_true in H0. apply Rltb_true in Hb.
      right. destruct (IH (S i0) r (N.of_nat i0)) as [[Hres Hno]|(k & Hk1 & Hk2 & Hk3 & Hk4 & Hk5)].
      * exists 0%nat. rewrite Hres. simpl.
        split; [f_equal; lia|]. split; [reflexivity|]. split; [lra|].
        split.
        -- intros [|i] r0 Hi Hpos; simpl in Hi.
           ++ inversion Hi; subst. lra.
           ++ specialize (Hno _ _ Hi). lra.
        -- intros i r0 Hi. lia.
      * exists (S k). split; [rewrite Hk1; f_equal; lia|].
        split; [exact Hk2|]. split; [lra|]. split.
        -- intros [|i] r0 Hi Hpos; simpl in Hi.
           ++ inversion Hi; subst. lra.
           ++ eapply Hk4; eauto.
        -- intros [|i] r0 Hlt Hi Hpos; simpl in Hi.
           ++ inversion Hi; subst. lra.
           ++ eapply Hk5; eauto. lia.
    + apply andb_false_iff in Hsel.
      assert (Hnot : ~ (0 < r < b)).
      { destruct Hsel as [H|H]; apply Rltb_false in H; lra. }
      destruct (IH (S i0) b idx) as [[Hres Hno]|(k & Hk1 & Hk2 & Hk3 & Hk4 & Hk5)].
      * left. split; [exact Hres|].
        intros [|i] r0 Hi; simpl in Hi.
        -- inversion Hi; subst. exact Hnot.
        -- eapply Hno; eauto.
      * right. exists (S k). split; [rewrite Hk1; f_equal; lia|].
        split; [exact Hk2|]. split; [lra|]. split.
        -- intros [|i] r0 Hi Hpos; simpl in Hi.
           ++ inversion Hi; subst. lra.
           ++ eapply Hk4; eauto.
        -- intros [|i] r0 Hlt Hi Hpos; simpl in Hi.
           ++ inversion Hi; subst. lra.
           ++ eapply Hk5; eauto. lia.
Qed.

Lemma lasso_scan_fold (L : @Lars R) (beta bd : @vec R) (ratios : list R) :
  lasso_ratios L beta bd = Some ratios ->
  length ratios = N.to_nat (n_active_ L) /\
  lasso_scan L beta bd =
  Some (fold_left (fun (bk : R * N) (ir : N * R) =>
                     if Rltb 0 (snd ir) && Rltb (snd ir) (fst bk)
                     then (snd ir, fst ir) else bk)
          (combine (upto (n_active_ L)) ratios)
          (@DBL_MAX R Scalar_R, u32_minus_one)).
Proof.
  unfold lasso_ratios, lasso_scan.
  assert (Hlen : length (upto (n_active_ L)) = N.to_nat (n_active_ L))
    by (unfold upto; now rewrite length_map, length_seq).
  rewrite <- Hlen. clear Hlen.
  generalize (@DBL_MAX R Scalar_R, u32_minus_one) as bk.
  generalize (upto (n_active_ L)) as l. intros l. revert ratios.
  induction l as [|i l IH]; intros ratios bk H; simpl in H |- *.
  - inversion H; subst. simpl. auto.
  - destruct (lookupN (active_set_ L) i) as [a|]; [|discriminate].
    destruct (lookupN beta a) as [b|]; [|discriminate].
    destruct (lookupN bd i) as [d|]; [|discriminate].
    destruct (mapM _ l) as [rs|] eqn:E; [|discriminate].
    inversion H; subst. simpl.
    destruct (IH rs (if Rltb 0 (- b / d) && Rltb (- b / d) (fst bk)
                     then (- b / d, i) else bk) eq_refl) as [Hl Hs].
    split; [now rewrite Hl|]. exact Hs.
Qed.

Variable solve : @mat R -> @vec R -> option (@vec R).

(** The LASSO rule within one iteration, over the reals.  In LASSO mode,
    in the part of an iteration that follows the activation or removal: [bd] and [nrm] are the direction and the
    normalisation of the iteration, [gc] is the step and index left by the
    scan of the inactive variables, and [ratios] are the values
    [-beta(active_set_[i]) / beta_direction(i)].  If position [k] is the
    first to hold the least positive ratio [m] and [m] is below the step,
    then [m] becomes the step and [k] is flagged; a flag is only ever set
    on a positive ratio below the step; the active set and the factor are
    not changed in this iteration; and the first part of the next
    iteration deactivates the flagged position and, in Cholesky mode,
    deletes its column from the factor. *)
Theorem lasso_kick_out_deferred (s s' : @LoopState R) (brk : bool)
  (sg bd : @vec R) (nrm : R) (yhd : @vec R) (gc : R * N) (ratios : list R)
  (Hlasso : lasso_ (obj s) = true)
  (Hko : kick_out s = false)
  (Hsg : signs (obj s) (corr s) = Some sg)
  (Hdir : direction solve (obj s) (Rfac s) sg = Some (bd, nrm))
  (Hyhd : ComputeYHatDirection (obj s) bd (y_hat_direction s) = Some yhd)
  (Hscan : inactive_scan (obj s) (corr s) yhd (max_corr s) nrm
             (max_corr s / nrm, u32_minus_one) = Some gc)
  (Hratios : lasso_ratios (obj s) (beta s) bd = Some ratios)
  (Hfinite : fst gc <= @DBL_MAX R Scalar_R)
  (Hrest : rest_phase solve s = Some (s', brk)) :
  (forall k m,
     nth_error ratios k = Some m -> 0 < m -> m < fst gc ->
     (forall i r, nth_error ratios i = Some r -> 0 < r -> m <= r) ->
     (forall i r, (i < k)%nat -> nth_error ratios i = Some r -> 0 < r -> m < r) ->
     kick_out s' = true /\ change_ind s' = N.of_nat k /\
     max_corr s' = max_corr s - m * nrm /\
     update_beta (obj s) (beta s) bd m = Some (beta s')) /\
  (kick_out s' = true ->
   exists k m, change_ind s' = N.of_nat k /\ nth_error ratios k = Some m /\
               0 < m /\ m < fst gc) /\
  (same_active (obj s) (obj s') /\ Rfac s' = Rfac s) /\
  (kick_out s' = true ->
   forall s'', top_phase s' = Some s'' ->
     Deactivate (obj s') (change_ind s') = Some (obj s'') /\
     active_set_ (obj s'') =
       remove_nth (active_set_ (obj s')) (N.to_nat (change_ind s')) /\
     (use_cholesky_ (obj s') = true ->
      CholeskyDelete (Rfac s') (change_ind s') = Some (Rfac s'')) /\
     kick_out s'' = false).
Proof.
  pose proof (rest_phase_inv _ _ Hrest) as
    (sg' & bd' & nrm' & yhd' & gc' & gamma & Hsg' & Hdir' & Hyhd' & Hscan'
     & Hlb & Hupd & Hmc & _).
  rewrite Hsg in Hsg'. injection Hsg' as <-.
  rewrite Hdir in Hdir'. injection Hdir' as <- <-.
  rewrite Hyhd in Hyhd'. injection Hyhd' as <-.
  change (@fdiv R Scalar_R (max_corr s) nrm) with (max_corr s / nrm) in Hscan'.
  rewrite Hscan in Hscan'. injection Hscan' as <-.
  destruct (lasso_scan_fold _ _ _ Hratios) as [Hlen Hfold].
  unfold lasso_bound in Hlb. rewrite Hlasso, Hfold in Hlb.
  unfold upto in Hlb. rewrite <- Hlen in Hlb.
  pose proof (min_ratio_scan ratios 0 (@DBL_MAX R Scalar_R) u32_minus_one)
    as Hchar.
  cbv zeta in Hchar.
  match type of Hlb with
  | Some (if fltb (fst ?r0) _ then _ else _) = _ => set (res := r0) in *
  end.
  change (@fltb R Scalar_R) with Rltb in Hlb.
  pose proof (rest_phase_frame _ _ Hrest) as (_ & Hact & HR & _).
  split; [|split; [|split; [split; assumption|]]].
  - intros k m Hk Hpos Hlt Hmin Hfirst.
    destruct Hchar as [[Hres Hno]|(k' & Hk1 & Hk2 & Hk3 & Hk4 & Hk5)].
    + exfalso. apply (Hno _ _ Hk). lra.
    + assert (Hm : fst res = m).
      { apply Rle_antisym; [eapply Hk4; eauto | eapply Hmin; eauto; lra]. }
      assert (Hkk : k' = k).
      { destruct (Nat.lt_trichotomy k' k) as [Hc|[Hc|Hc]]; [|exact Hc|].
        - specialize (Hfirst _ _ Hc Hk2 (proj1 Hk3)). lra.
        - specialize (Hk5 _ _ Hc Hk Hpos). lra. }
      subst k'.
      assert (Hsel : Rltb (fst res) (fst gc) = true)
        by (apply Rltb_true; lra).
      rewrite Hsel in Hlb. injection Hlb as Hko' Hres.
      rewrite Hres in Hm, Hk1. simpl in Hm, Hk1. subst gamma.
      rewrite <- Hko', Hk1. simpl.
      repeat split; auto.
    - intros Hk'.
      destruct (Rltb (fst res) (fst gc)) eqn:Hsel.
      + apply Rltb_true in Hsel.
        injection Hlb as _ Hres'.
        destruct Hchar as [[Hres Hno]|(k' & Hk1 & Hk2 & Hk3 & Hk4 & Hk5)].
        * rewrite Hres in Hsel. cbn [fst] in Hsel. lra.
        * exists k', (fst res).
          split; [rewrite Hres' in Hk1; exact Hk1|].
          repeat split; auto; lra.
      + destruct gc as [g c]. injection Hlb as Hko' _ _. congruence.
    - intros Hk' s'' Htop.
      destruct (top_phase_deactivate _ Hk' Htop) as [HD HC].
      pose proof (top_phase_frame _ Htop) as (_ & _ & _ & _ & _ & _ & _ & _ & Hk'').
      pose proof (Deactivate_spec _ _ HD) as (_ & _ & _ & _ & Has & _).
      repeat split; auto.
      intros Hc. now rewrite Hc in HC.
Qed.

End LassoRule.

(** ** Coefficients outside the active set, in exact arithmetic *)

Section UpdateBeta.

Context {F : Type} `{SF : Scalar F}.

(** The loop of [update_beta] over a list of positions whose columns are
    distinct: the coefficient of each of these columns is increased once,
    the others are unchanged. *)
Lemma update_beta_positions (A : list N) (bd : @vec F) (g : F)
  (pos : list N) (beta beta' : @vec F) :
  foldM (fun beta i =>
      a <- lookupN A i ;;
      d <- lookupN bd i ;;
      b <- lookupN beta a ;;
      updateN beta a (fadd b (fmul g d))) pos beta = Some beta' ->
  NoDup pos -> NoDup A ->
  length beta' = length beta /\
  (forall i, In i pos ->
     exists a d b, lookupN A i = Some a /\ lookupN bd i = Some d /\
                   lookupN beta a = Some b /\
                   lookupN beta' a = Some (fadd b (fmul g d))) /\
  (forall j, (forall i, In i pos -> lookupN A i <> Some j) ->
             lookupN beta' j = lookupN beta j).
Proof.
  revert beta. induction pos as [|i pos IH]; intros beta H Hnd HA; simpl in H.
  - inversion H; subst. split; [reflexivity|]. split; [intros i []|reflexivity].
  - destruct (lookupN A i) as [a|] eqn:Ea; [|discriminate].
    destruct (lookupN bd i) as [d|] eqn:Ed; [|discriminate].
    destruct (lookupN beta a) as [b|] eqn:Eb; [|discriminate].
    destruct (updateN beta a (fadd b (fmul g d))) as [beta1|] eqn:Eu;
      [|discriminate].
    inversion Hnd as [|? ? Hnotin Hnd']; subst.
    destruct (IH _ H Hnd' HA) as (Hlen & Hin & Hout).
    split; [rewrite Hlen; eapply updateN_length; eauto|]. split.
    + intros i' [<-|Hi'].
      * exists a, d, b. repeat split; auto.
        rewrite Hout.
        -- eapply lookupN_updateN_eq; eauto.
        -- intros i' Hi' Hl.
           (* two positions of a duplicate-free list hold the same column *)
           rewrite !lookupN_nth_error in *.
           assert (Heq : N.to_nat i' = N.to_nat i).
           { rewrite NoDup_nth_error in HA. apply HA.
             - apply nth_error_Some. congruence.
             - congruence. }
           apply Hnotin. assert (i' = i) by lia. now subst.
      * destruct (Hin _ Hi') as (a' & d' & b' & Ha' & Hd' & Hb' & Hb'').
        exists a', d', b'. repeat split; auto.
        rewrite <- Hb'. symmetry. eapply lookupN_updateN_neq; eauto.
        intros <-. rewrite !lookupN_nth_error in *.
        assert (Heq : N.to_nat i' = N.to_nat i).
        { rewrite NoDup_nth_error in HA. apply HA.
          - apply nth_error_Some. congruence.
          - congruence. }
        apply Hnotin. assert (i' = i) by lia. now subst.
    + intros j Hj. rewrite Hout by (intros; apply Hj; now right).
      eapply lookupN_updateN_neq; eauto.
      intros <-. apply (Hj i); [now left | exact Ea].
Qed.

Lemma NoDup_upto (n : N) : NoDup (upto n).
Proof.
  unfold upto. apply NoDup_map_NoDup_ForallPairs; [|apply seq_NoDup].
  intros a b _ _. apply Nat2N.inj.
Qed.

Lemma In_upto (n i : N) : In i (upto n) <-> (i < n)%N.
Proof.
  split; [apply upto_lt|]. intros Hi. unfold upto. apply in_map_iff.
  exists (N.to_nat i). split; [apply N2Nat.id|]. apply in_seq. lia.
Qed.

Lemma update_beta_spec (L : @Lars F) (beta beta' bd : @vec F) (g : F) :
  wf_active L -> update_beta L beta bd g = Some beta' ->
  length beta' = length beta /\
  (forall k a, nth_error (active_set_ L) k = Some a ->
     exists d b, lookupN bd (N.of_nat k) = Some d /\ lookupN beta a = Some b /\
                 lookupN beta' a = Some (fadd b (fmul g d))) /\
  (forall j, ~ In j (active_set_ L) -> lookupN beta' j = lookupN beta j).
Proof.
  intros (Hn & _ & _ & _ & Hnd & _) H. unfold update_beta in H.
  destruct (@update_beta_positions (active_set_ L) bd g (upto (n_active_ L))
              beta beta' H (NoDup_upto _) Hnd)
    as (Hlen & Hin & Hout).
  split; [exact Hlen|]. split.
  - intros k a Hk.
    assert (Hlt : (k < length (active_set_ L))%nat)
      by (apply nth_error_Some; congruence).
    destruct (Hin (N.of_nat k)) as (a' & d & b & Ha' & Hd & Hb & Hb').
    + apply In_upto. lia.
    + rewrite lookupN_of_nat, Hk in Ha'. inversion Ha'; subst. eauto.
  - intros j Hj. apply Hout. intros i _ Hl.
    apply Hj. rewrite lookupN_nth_error in Hl. eapply nth_error_In; eauto.
Qed.

End UpdateBeta.

Lemma mapM_nth_error {A B : Type} (f : A -> option B) (l : list A)
  (rs : list B) (k : nat) (m : B) :
  mapM f l = Some rs -> nth_error rs k = Some m ->
  exists x, nth_error l k = Some x /\ f x = Some m.
Proof.
  revert rs k. induction l as [|a l IH]; intros rs k H Hk; simpl in H.
  - inversion H; subst. destruct k; discriminate.
  - destruct (f a) as [b|] eqn:Ef; [|discriminate].
    destruct (mapM f l) as [bs|] eqn:El; [|discriminate].
    inversion H; subst. destruct k as [|k]; simpl in *.
    + inversion Hk; subst. eauto.
    + eapply IH; eauto.
Qed.

Lemma nth_error_upto (n : N) (k : nat) (i : N) :
  nth_error (upto n) k = Some i -> i = N.of_nat k.
Proof.
  unfold upto. rewrite nth_error_map. intros H.
  destruct (nth_error (seq 0 (N.to_nat n)) k) as [j|] eqn:E; [|discriminate].
  inversion H; subst. f_equal.
  assert (Hlt : (k < length (seq 0 (N.to_nat n)))%nat)
    by (apply nth_error_Some; congruence).
  rewrite length_seq in Hlt.
  apply nth_error_nth with (d := 0%nat) in E.
  rewrite seq_nth in E by exact Hlt. lia.
Qed.

Section Sparsity.

Local Open Scope R_scope.

Lemma lasso_scan_has_ratios (L : @Lars R) (beta bd : @vec R) (bk : R * N) :
  lasso_scan L beta bd = Some bk ->
  exists ratios, lasso_ratios L beta bd = Some ratios.
Proof.
  unfold lasso_scan, lasso_ratios.
  generalize (@DBL_MAX R Scalar_R, u32_minus_one) as bk0.
  generalize (upto (n_active_ L)) as l.
  induction l as [|i l IH]; intros bk0 H; cbn [mapM foldM] in H |- *.
  - eauto.
  - destruct (lookupN (active_set_ L) i) as [a|]; [|discriminate].
    destruct (lookupN beta a) as [b|]; [|discriminate].
    destruct (lookupN bd i) as [d|]; [|discriminate].
    destruct (IH _ H) as [rs Hrs]. rewrite Hrs. eauto.
Qed.

Lemma lasso_ratios_nth (L : @Lars R) (beta bd : @vec R) (ratios : list R)
  (k : nat) (m : R) :
  lasso_ratios L beta bd = Some ratios -> nth_error ratios k = Some m ->
  exists a b d,
    lookupN (active_set_ L) (N.of_nat k) = Some a /\
    lookupN beta a = Some b /\ lookupN bd (N.of_nat k) = Some d /\
    m = - b / d.
Proof.
  unfold lasso_ratios. intros H Hk.
  destruct (mapM_nth_error _ _ _ H Hk) as (i & Hi & Hf).
  apply nth_error_upto in Hi. subst i.
  destruct (lookupN (active_set_ L) (N.of_nat k)) as [a|] eqn:Ea;
    [|discriminate].
  destruct (lookupN beta a) as [b|] eqn:Eb; [|discriminate].
  destruct (lookupN bd (N.of_nat k)) as [d|] eqn:Ed; [|discriminate].
  injection Hf as <-. exists a, b, d. repeat split; auto.
Qed.

(** The coefficient of a flagged position is zero after the update of the
    same iteration. *)
Lemma flagged_coefficient_zero (L : @Lars R) (beta beta' bd : @vec R)
  (gc : R * N) (gamma : R) (c : N) :
  wf_active L ->
  lasso_bound L beta bd false gc = Some (true, (gamma, c)) ->
  update_beta L beta bd gamma = Some beta' ->
  forall a x, lookupN (active_set_ L) c = Some a ->
              lookupN beta' a = Some x -> x = 0.
Proof.
  intros Hwf Hlb Hupd a x Ha Hx.
  unfold lasso_bound in Hlb.
  destruct (lasso_ L); [|discriminate].
  destruct (lasso_scan L beta bd) as [bk|] eqn:Hscan; [|discriminate].
  destruct (lasso_scan_has_ratios _ _ _ Hscan) as [ratios Hr].
  destruct (lasso_scan_fold _ _ _ Hr) as [Hlen Hfold].
  rewrite Hscan in Hfold.
  apply (f_equal (fun o => match o with Some x => x | None => bk end)) in Hfold.
  cbv beta iota in Hfold.
  destruct (fltb (fst bk) (fst gc)); [|discriminate].
  assert (Hbk' : bk = (gamma, c)) by congruence.
  rewrite Hbk' in Hfold.
  unfold upto in Hfold. rewrite <- Hlen in Hfold.
  pose proof (min_ratio_scan ratios 0 (@DBL_MAX R Scalar_R) u32_minus_one)
    as Hchar.
  cbv zeta in Hchar. rewrite <- Hfold in Hchar. cbn [fst snd] in Hchar.
  destruct Hchar as [[Hres _]|(k & Hk1 & Hk2 & Hk3 & _)].
  - exfalso. injection Hres as _ Hc. subst c.
    destruct Hwf as (Hn & _ & Hp & Hle & _).
    rewrite lookupN_out_of_range in Ha; [discriminate|].
    rewrite u32_minus_one_val. unfold u32_modulus in Hp. lia.
  - simpl in Hk1. subst c.
    destruct (lasso_ratios_nth _ _ _ _ Hr Hk2) as (a' & b & d & Ha' & Hb & Hd & Hm).
    rewrite Ha in Ha'. injection Ha' as <-.
    rewrite lookupN_of_nat in Ha.
    destruct (update_beta_spec beta bd gamma Hwf Hupd) as (_ & Hin & _).
    destruct (Hin _ _ Ha) as (d' & b' & Hd' & Hb'' & Hx').
    rewrite Hd in Hd'. injection Hd' as <-.
    rewrite Hb in Hb''. injection Hb'' as <-.
    rewrite Hx in Hx'. injection Hx' as ->.
    change (@fadd R Scalar_R) with Rplus. change (@fmul R Scalar_R) with Rmult.
    assert (Hd0 : d <> 0).
    { intros ->. rewrite Rdiv_0_r in Hm. lra. }
    rewrite Hm. field. exact Hd0.
Qed.

Lemma InterpolateBeta_last (L L' : @Lars R) (u : R) (bp : list (@vec R))
  (b2 b1 : @vec R) :
  InterpolateBeta L u = Some L' -> beta_path_ L = bp ++ [b2; b1] ->
  exists t, beta_path_ L' =
            bp ++ [b2; map (fun ab => (1 - t) * fst ab + t * snd ab)
                           (combine b2 b1)].
Proof.
  unfold InterpolateBeta. intros H Hbp.
  assert (Eb : bp ++ [b2; b1] = (bp ++ [b2]) ++ [b1])
    by (now rewrite <- app_assoc).
  rewrite Hbp, Eb in H.
  destruct (lookupZ (lambda_path_ L) _) as [l2|]; [|discriminate].
  rewrite (lookupZ_penult bp b2 b1) in H by reflexivity.
  rewrite (lookupZ_app_at (bp ++ [b2]) [] b1) in H
    by (rewrite !length_app; simpl; lia).
  unfold vzip in H.
  destruct (length _ =? length _)%nat; [|discriminate].
  rewrite (updateZ_app_at (bp ++ [b2]) [] b1) in H
    by (rewrite !length_app; simpl; lia).
  destruct (updateZ (lambda_path_ L) _ _) as [lp|]; [|discriminate].
  injection H as <-. simpl.
  exists ((l2 - desired_lambda_ L) / (l2 - u)).
  rewrite <- app_assoc. simpl. do 3 f_equal.
  rewrite (map_combine_map (Rmult (1 - (l2 - desired_lambda_ L) / (l2 - u)))
             (Rmult ((l2 - desired_lambda_ L) / (l2 - u)))
             (fun ab => fst ab + snd ab)).
  reflexivity.
Qed.

Lemma lookupN_map_combine {A B C : Type} (f : A * B -> C) (u : list A)
  (v : list B) (j : N) (x : C) :
  lookupN (map f (combine u v)) j = Some x ->
  exists a b, lookupN u j = Some a /\ lookupN v j = Some b /\ x = f (a, b).
Proof.
  rewrite !lookupN_nth_error. generalize (N.to_nat j) as k.
  revert v. induction u as [|a u IH]; intros [|b v] [|k] H; simpl in *;
    try discriminate.
  - injection H as <-. eauto.
  - apply IH. exact H.
Qed.

Variable solve : @mat R -> @vec R -> option (@vec R).

(** Sparsity of the snapshots in exact arithmetic.  Started from a state
    whose inactive coefficients are zero, an iteration appends one snapshot
    to the
    coefficient path, and the snapshot is zero at every index outside the
    active set of that moment, also when the snapshot is the interpolated
    one; a column removed at the top of the iteration is outside the
    active set, so its entry is zero; the property holds again for the
    next iteration; and the state before the loop of a freshly initialised
    object has it, its snapshot being the zero vector. *)
Theorem inactive_coefficients_zero (s s' : @LoopState R) (brk : bool)
  (Hinv : sparse_inv s)
  (Hcond : loop_cond s = true)
  (Hbody : body solve s = Some (s', brk)) :
  (exists snapshot,
     beta_path_ (obj s') = beta_path_ (obj s) ++ [snapshot] /\
     zero_outside (active_set_ (obj s')) snapshot /\
     (kick_out s = true ->
      forall a, lookupN (active_set_ (obj s)) (change_ind s) = Some a ->
        ~ In a (active_set_ (obj s')) /\
        forall x, lookupN snapshot a = Some x -> x = 0) /\
     (brk = false -> snapshot = beta s' /\ sparse_inv s')) /\
  (forall L0 X y c L s0,
     Init3 L0 X y c = Some L -> (Z.of_N (n_cols X) < u32_modulus)%Z ->
     DoLARS_begin L = Some s0 ->
     sparse_inv s0 /\ beta s0 = zeros (p_ L) /\
     beta_path_ (obj s0) = beta_path_ L ++ [zeros (p_ L)]).
Proof.
  split.
  - destruct Hinv as ([Hwf Hci] & Hzero & Hflag & (bp & Hbp)).
    assert (Hlt : (n_active_ (obj s) < p_ (obj s))%N).
    { unfold loop_cond in Hcond. apply andb_prop in Hcond.
      destruct Hcond as [Hlt _]. now apply N.ltb_lt in Hlt. }
    unfold body in Hbody.
    destruct (top_phase s) as [s1|] eqn:Etop; [|discriminate].
    pose proof (top_phase_frame _ Etop) as
      (Hd1 & Hbp1 & _ & Hb1 & _ & _ & _ & _ & Hk1).
    assert (Htop : wf_active (obj s1) /\
                   zero_outside (active_set_ (obj s1)) (beta s) /\
                   (kick_out s = true ->
                    forall a, lookupN (active_set_ (obj s)) (change_ind s) = Some a ->
                              ~ In a (active_set_ (obj s1)))).
    { destruct (kick_out s) eqn:Hk.
      - destruct (top_phase_deactivate _ Hk Etop) as [HD _].
        destruct (Deactivate_wf _ Hwf HD) as (Hwf1 & _ & _ & _ & a & Ha & Hnot & Hiff).
        split; [exact Hwf1|]. split.
        + intros j x Hj Hx. destruct (N.eq_dec j a) as [->|Hne].
          * eapply (Hflag eq_refl a); eauto. now rewrite lookupN_nth_error.
          * apply (Hzero j x); [|exact Hx]. intros Hin. apply Hj. apply Hiff. auto.
        + intros _ a' Ha'. rewrite lookupN_nth_error, Ha in Ha'.
          injection Ha' as <-. exact Hnot.
      - pose proof (top_phase_activate _ Hk Etop) as HA.
        destruct (Activate_wf _ Hwf Hlt (Hci eq_refl) HA) as (Hwf1 & _ & Has1 & _).
        split; [exact Hwf1|]. split; [|discriminate].
        intros j x Hj Hx. apply (Hzero j x); [|exact Hx].
        intros Hin. apply Hj. rewrite Has1. apply in_or_app. now left. }
    destruct Htop as (Hwf1 & Hzero1 & Hrem).
    pose proof (rest_phase_frame _ _ Hbody) as
      (Hd2 & Ha2 & _ & (b & Hpath & Hb) & _).
    pose proof (rest_phase_inv _ _ Hbody) as
      (sg & bd & nrm & yhd & gc & gamma & _ & _ & _ & Hscan & Hlb & Hupd & _
       & _ & Hbrk).
    destruct (update_beta_spec _ _ _ Hwf1 Hupd) as (_ & _ & Hout).
    assert (Hzero' : zero_outside (active_set_ (obj s1)) (beta s')).
    { intros j x Hj Hx. rewrite (Hout j Hj), Hb1 in Hx. eapply Hzero1; eauto. }
    assert (Has' : active_set_ (obj s') = active_set_ (obj s1))
      by (destruct Ha2 as (_ & Ha2 & _); exact Ha2).
    assert (Hsnap : zero_outside (active_set_ (obj s1)) b).
    { destruct brk.
      - destruct (Hbrk eq_refl) as (_ & _ & HI).
        destruct (@InterpolateBeta_last _ _ _ bp (beta s) (beta s') HI) as [t Ht].
        { simpl. rewrite Hbp1, Hbp, <- app_assoc. reflexivity. }
        rewrite Hpath, Hbp1, Hbp, <- app_assoc in Ht. simpl in Ht.
        apply app_inv_head in Ht. injection Ht as ->.
        intros j x Hj Hx.
        apply lookupN_map_combine in Hx.
        destruct Hx as (u & v & Hu & Hv & ->). simpl.
        rewrite (Hzero1 j u Hj Hu), (Hzero' j v Hj Hv). lra.
      - rewrite (Hb eq_refl). exact Hzero'. }
    exists b. rewrite Hpath, Hbp1, Has'.
    split; [reflexivity|]. split; [exact Hsnap|]. split.
    + intros Hk a Ha. split; [now apply Hrem|].
      intros x Hx. eapply Hsnap; eauto.
    + intros ->. split; [now apply Hb|].
      assert (Hwf' : wf_active (obj s')) by (eapply wf_active_same; eauto).
      split; [split; [exact Hwf'|]|split; [|split]].
      * intros Hk'. unfold lasso_bound in Hlb.
        assert (Hgc : change_ind s' = snd gc).
        { destruct (lasso_ (obj s1)).
          - destruct (lasso_scan _ _ _) as [bk|]; [|discriminate].
            destruct (fltb (fst bk) (fst gc)).
            + injection Hlb as Hk'' _. congruence.
            + destruct gc. injection Hlb as _ _ Hc. now rewrite Hc.
          - destruct gc. injection Hlb as _ _ Hc. now rewrite Hc. }
        apply inactive_scan_index in Hscan. simpl in Hscan.
        rewrite <- Hgc in Hscan. destruct Ha2 as (_ & _ & Hf2). rewrite Hf2.
        destruct Hscan as [Hm1|[_ Hfalse]].
        -- destruct Hwf1 as (_ & Hlen & Hp & _).
           rewrite Hm1, lookupN_out_of_range; [discriminate|].
           rewrite u32_minus_one_val. unfold u32_modulus in Hp. lia.
        -- rewrite Hfalse. discriminate.
      * rewrite Has'. exact Hzero'.
      * intros Hk' a x Ha Hx. rewrite Has' in Ha.
        rewrite Hk1, Hk' in Hlb.
        eapply flagged_coefficient_zero;
          [exact Hwf1 | exact Hlb | exact Hupd | exact Ha | exact Hx].
      * exists (beta_path_ (obj s)). rewrite Hpath, Hbp1, (Hb eq_refl).
        reflexivity.
  - intros L0 X y c L s0 HI Hp HB.
    destruct (fresh_loop_inv _ _ _ _ HI Hp HB) as (Hli & Hk0 & _ & _ & Ha0).
    pose proof (DoLARS_begin_spec _ HB) as
      (_ & Hb0 & _ & _ & _ & _ & _ & _ & _ & _ & _ & _ & Hbp0 & _).
    split; [|split; assumption].
    split; [exact Hli|]. split; [|split].
    + intros j x _ Hx. rewrite Hb0, lookupN_nth_error in Hx.
      apply nth_error_In in Hx. unfold zeros in Hx.
      now apply repeat_spec in Hx.
    + rewrite Hk0. discriminate.
    + exists (beta_path_ L). now rewrite Hbp0, Hb0.
Qed.

End Sparsity.

(** ** Inner products over the reals *)

Section DotR.

Local Open Scope R_scope.

Lemma dot_fold_acc (l : list (R * R)) (acc : R) :
  fold_left (fun acc ab => acc + fst ab * snd ab) l acc =
  acc + fold_left (fun acc ab => acc + fst ab * snd ab) l 0.
Proof.
  revert acc. induction l as [|[a b] l IH]; intros acc; cbn [fold_left fst snd].
  - lra.
  - rewrite IH. rewrite (IH (0 + a * b)). lra.
Qed.

Lemma dotR_nil_l (v : list R) : dot_raw [] v = 0.
Proof. reflexivity. Qed.

Lemma dotR_nil_r (u : list R) : dot_raw u [] = 0.
Proof. destruct u; reflexivity. Qed.

Lemma dotR_cons (a b : R) (u v : list R) :
  dot_raw (a :: u) (b :: v) = a * b + dot_raw u v.
Proof.
  change (fold_left (fun acc ab => acc + fst ab * snd ab) ((a, b) :: combine u v) 0
          = a * b + fold_left (fun acc ab => acc + fst ab * snd ab) (combine u v) 0).
  cbn [fold_left fst snd]. rewrite dot_fold_acc. lra.
Qed.

Lemma dotR_comm (u v : list R) : dot_raw u v = dot_raw v u.
Proof.
  revert v. induction u as [|a u IH]; intros [|b v];
    rewrite ?dotR_nil_l, ?dotR_nil_r; try reflexivity.
  rewrite !dotR_cons, IH. lra.
Qed.

Lemma dotR_app (u u' v v' : list R) :
  length u = length v ->
  dot_raw (u ++ u') (v ++ v') = dot_raw u v + dot_raw u' v'.
Proof.
  revert v. induction u as [|a u IH]; intros [|b v] Hlen; simpl in *;
    try discriminate.
  - rewrite dotR_nil_l. lra.
  - rewrite !dotR_cons, IH by lia. lra.
Qed.

Lemma dotR_zero_l (u v : list R) :
  (forall i, nth i u 0 = 0) -> dot_raw u v = 0.
Proof.
  revert v. induction u as [|a u IH]; intros [|b v] Hz;
    rewrite ?dotR_nil_l, ?dotR_nil_r; try reflexivity.
  rewrite dotR_cons, IH.
  - specialize (Hz 0%nat). simpl in Hz. subst. lra.
  - intros i. apply (Hz (S i)).
Qed.

Lemma dotR_split (k : nat) (u v : list R) :
  dot_raw u v = dot_raw (firstn k u) (firstn k v)
                + dot_raw (skipn k u) (skipn k v).
Proof.
  revert u v. induction k as [|k IH]; intros u v; simpl.
  - rewrite dotR_nil_l. lra.
  - destruct u as [|a u]; [rewrite !dotR_nil_l; lra|].
    destruct v as [|b v]; [rewrite !dotR_nil_r; lra|].
    rewrite !dotR_cons, (IH u v). lra.
Qed.

Lemma dotR_self_nonneg (u : list R) : 0 <= dot_raw u u.
Proof.
  induction u as [|a u IH]; [rewrite dotR_nil_l; lra|].
  rewrite dotR_cons. nra.
Qed.

(** Replacing entry [m] in both vectors. *)
Lemma dotR_set_nth (m : nat) (u v : list R) (p q : R) :
  (m < length u)%nat -> (m < length v)%nat ->
  dot_raw (set_nth u m p) (set_nth v m q) =
  dot_raw u v - nth m u 0 * nth m v 0 + p * q.
Proof.
  revert u v. induction m as [|m IH]; intros [|a u] [|b v] Hu Hv;
    simpl in *; try lia.
  - rewrite !dotR_cons. lra.
  - rewrite !dotR_cons, IH by lia. lra.
Qed.

Lemma nth_set_nth_eq (m : nat) (u : list R) (p : R) :
  (m < length u)%nat -> nth m (set_nth u m p) 0 = p.
Proof.
  revert u. induction m as [|m IH]; intros [|a u] Hu; simpl in *; try lia; auto.
  apply IH. lia.
Qed.

Lemma nth_set_nth_neq (m k : nat) (u : list R) (p : R) :
  m <> k -> nth k (set_nth u m p) 0 = nth k u 0.
Proof.
  revert k u. induction m as [|m IH]; intros [|k] [|a u] Hne; simpl; auto;
    try congruence.
Qed.

Lemma set_nth_same (m : nat) (u : list R) :
  set_nth u m (nth m u 0) = u.
Proof.
  revert u. induction m as [|m IH]; intros [|a u]; simpl; auto.
  now rewrite IH.
Qed.

End DotR.

(** ** Insertion into the factor *)

Section InsertAlgebra.

Local Open Scope R_scope.

Lemma firstn_succ_nth (k : nat) (c : list R) :
  (k < length c)%nat -> firstn (S k) c = firstn k c ++ [nth k c 0].
Proof.
  revert c. induction k as [|k IH]; intros [|a c] Hk; simpl in *; try lia.
  - reflexivity.
  - now rewrite <- IH by lia.
Qed.

Lemma forward_subst_prefix (cs : list (list R)) (g x : list R) :
  exists rest, forward_subst cs g x = x ++ rest.
Proof.
  revert g x. induction cs as [|c cs IH]; intros [|gi g] x;
    cbn [forward_subst]; try (exists []; now rewrite app_nil_r).
  destruct (IH g (x ++ [fdiv (fsub gi (dot_raw (firstn (length x) c) x))
                          (nth (length x) c f0)])) as [rest Hrest].
  rewrite Hrest, <- app_assoc. eauto.
Qed.

(** Forward substitution solves the rows it has processed: row [t] of the
    remaining system, which is row [length x + t] of the whole one. *)
Lemma forward_subst_rows (cs : list (list R)) (g x : list R) (t : nat)
  (c : list R) (gt : R) :
  nth_error cs t = Some c -> nth_error g t = Some gt ->
  (length x + t < length c)%nat -> nth (length x + t) c 0 <> 0 ->
  dot_raw (firstn (S (length x + t)) c)
          (firstn (S (length x + t)) (forward_subst cs g x)) = gt.
Proof.
  revert g x t. induction cs as [|c0 cs IH]; intros [|gi g] x t Hc Hg Hlen Hd;
    try (destruct t; discriminate).
  destruct t as [|t]; simpl in Hc, Hg.
  - injection Hc as ->. injection Hg as ->. rewrite Nat.add_0_r in *.
    cbn [forward_subst].
    set (xi := fdiv (fsub gt (dot_raw (firstn (length x) c) x))
                 (nth (length x) c f0)).
    destruct (forward_subst_prefix cs g (x ++ [xi])) as [rest Hrest].
    rewrite Hrest, firstn_app.
    rewrite (firstn_all2 (n := S (length x)) (x ++ [xi]))
      by (rewrite length_app; simpl; lia).
    rewrite length_app. cbn [length]. rewrite Nat.add_1_r, Nat.sub_diag.
    rewrite firstn_succ_nth by exact Hlen.
    rewrite firstn_O, app_nil_r.
    rewrite dotR_app by (rewrite firstn_length_le; lia).
    rewrite dotR_cons, dotR_nil_l.
    unfold xi.
    change (@fdiv R Scalar_R) with Rdiv. change (@fsub R Scalar_R) with Rminus.
    change (@f0 R Scalar_R) with 0. field. exact Hd.
  - cbn [forward_subst].
    specialize (IH g (x ++ [fdiv (fsub gi (dot_raw (firstn (length x) c0) x))
                              (nth (length x) c0 f0)]) t Hc Hg).
    rewrite length_app in IH. simpl in IH.
    replace (length x + 1 + t)%nat with (length x + S t)%nat in IH by lia.
    apply IH; assumption.
Qed.

Lemma forward_subst_solves (cs : list (list R)) (g : list R) (t : nat)
  (c : list R) (gt : R) :
  length g = length cs ->
  nth_error cs t = Some c -> nth_error g t = Some gt ->
  length c = length cs ->
  (forall i, (t < i)%nat -> nth i c 0 = 0) -> nth t c 0 <> 0 ->
  dot_raw c (forward_subst cs g []) = gt.
Proof.
  intros Hg Hc Hgt Hlen Htri Hd.
  assert (Ht : (t < length cs)%nat) by (apply nth_error_Some; congruence).
  rewrite (dotR_split (S t)).
  pose proof (forward_subst_rows cs g [] t Hc Hgt) as Hrows.
  cbn [length Nat.add] in Hrows.
  rewrite Hrows by (auto; lia).
  rewrite dotR_zero_l; [lra|].
  intros i. rewrite nth_skipn. apply Htri. lia.
Qed.

(** The factor of the active columns extended by a new column [x]. *)
Lemma factor_insert (ridge : R) (xs cs : list (list R)) (x : list R) :
  factor_of ridge xs cs ->
  let g := map (fun xi => dot_raw xi x) xs in
  let r := forward_subst cs g [] in
  let rad := dot_raw x x + ridge - dot_raw r r in
  0 < rad ->
  factor_of ridge (xs ++ [x])
    (map (fun c => c ++ [0]) cs ++ [r ++ [sqrt rad]]).
Proof.
  intros (Hlen & Hshape & Hgram) g r rad Hrad.
  assert (Hr : length r = length cs).
  { unfold r. rewrite forward_subst_length. unfold g.
    rewrite length_map. cbn [length Nat.add].
    apply Nat.min_l. apply Nat.eq_le_incl. exact Hlen. }
  assert (Hsolve : forall t c xt, nth_error cs t = Some c ->
            nth_error xs t = Some xt -> dot_raw c r = dot_raw xt x).
  { intros t c xt Hc Hxt. destruct (Hshape _ _ Hc) as (Hl & Htri & Hd).
    apply forward_subst_solves with (t := t); auto.
    - unfold g. rewrite length_map. symmetry. exact Hlen.
    - unfold g.
      exact (@map_nth_error _ _ (fun xi => dot_raw xi x) t xs xt Hxt).
    - lra. }
  assert (Hsq : sqrt rad * sqrt rad = rad) by (apply sqrt_sqrt; lra).
  split; [|split].
  - rewrite !length_app, length_map. simpl. lia.
  - intros j c Hj.
    rewrite length_app, length_map. simpl.
    destruct (Nat.lt_ge_cases j (length cs)) as [Hlt|Hge].
    + rewrite nth_error_app1 in Hj by (now rewrite length_map).
      rewrite nth_error_map in Hj.
      destruct (nth_error cs j) as [c0|] eqn:Ec; [|discriminate].
      injection Hj as <-. destruct (Hshape _ _ Ec) as (Hl & Htri & Hd).
      split; [rewrite length_app; simpl; lia|]. split.
      * intros i Hi. destruct (Nat.lt_ge_cases i (length c0)) as [Hi'|Hi'].
        -- rewrite app_nth1 by exact Hi'. now apply Htri.
        -- rewrite app_nth2 by exact Hi'.
           destruct (i - length c0)%nat as [|[|]]; reflexivity.
      * rewrite app_nth1 by lia. exact Hd.
    + rewrite nth_error_app2 in Hj by (now rewrite length_map).
      rewrite length_map in Hj.
      destruct (j - length cs)%nat as [|q] eqn:Eq; simpl in Hj;
        [|destruct q; discriminate].
      injection Hj as <-. assert (j = length cs) by lia. subst j.
      split; [rewrite length_app; simpl; lia|]. split.
      * intros i Hi. rewrite nth_overflow; [reflexivity|].
        rewrite length_app. simpl. lia.
      * rewrite app_nth2 by lia. rewrite Hr, Nat.sub_diag. simpl.
        now apply sqrt_lt_R0.
  - intros i j ci cj xi xj Hci Hcj Hxi Hxj.
    assert (Hcase : forall k ck xk,
              nth_error (map (fun c => c ++ [0]) cs ++ [r ++ [sqrt rad]]) k
              = Some ck ->
              nth_error (xs ++ [x]) k = Some xk ->
              (exists c0, (k < length cs)%nat /\ nth_error cs k = Some c0 /\
                          ck = c0 ++ [0] /\ nth_error xs k = Some xk) \/
              (k = length cs /\ ck = r ++ [sqrt rad] /\ xk = x)).
    { intros k ck xk Hck Hxk.
      destruct (Nat.lt_ge_cases k (length cs)) as [Hlt|Hge].
      - left. rewrite nth_error_app1 in Hck by (now rewrite length_map).
        rewrite nth_error_map in Hck.
        destruct (nth_error cs k) as [c0|] eqn:Ec; [|discriminate].
        injection Hck as <-.
        rewrite nth_error_app1 in Hxk by lia. eauto.
      - right. rewrite nth_error_app2 in Hck by (now rewrite length_map).
        rewrite length_map in Hck.
        rewrite nth_error_app2 in Hxk by lia. rewrite <- Hlen in Hxk.
        destruct (k - length cs)%nat as [|q] eqn:Eq; simpl in Hck, Hxk;
          [|destruct q; discriminate].
        injection Hck as <-. injection Hxk as <-.
        split; [lia|auto]. }
    destruct (Hcase _ _ _ Hci Hxi) as [(ci0 & Hi & Eci & -> & Exi)|(-> & -> & ->)];
    destruct (Hcase _ _ _ Hcj Hxj) as [(cj0 & Hj & Ecj & -> & Exj)|(-> & -> & ->)].
    + destruct (Hshape _ _ Eci) as (Hli & _). destruct (Hshape _ _ Ecj) as (Hlj & _).
      rewrite dotR_app by lia. rewrite dotR_cons, dotR_nil_l.
      rewrite (Hgram _ _ _ _ _ _ Eci Ecj Exi Exj). lra.
    + destruct (Hshape _ _ Eci) as (Hli & _).
      rewrite dotR_app by lia. rewrite dotR_cons, dotR_nil_l.
      rewrite (Hsolve _ _ _ Eci Exi).
      destruct (Nat.eqb_spec i (length cs)); [lia|]. lra.
    + destruct (Hshape _ _ Ecj) as (Hlj & _).
      rewrite dotR_app by lia. rewrite dotR_cons, dotR_nil_l.
      rewrite dotR_comm, (Hsolve _ _ _ Ecj Exj), (dotR_comm x xj).
      destruct (Nat.eqb_spec (length cs) j); [lia|]. lra.
    + rewrite dotR_app by reflexivity. rewrite dotR_cons, dotR_nil_l.
      rewrite Nat.eqb_refl, Hsq. unfold rad. lra.
Qed.

End InsertAlgebra.

(** ** Deletion from the factor *)


Section DeleteAlgebra.

Local Open Scope R_scope.

Lemma rot2_length (m : nat) (c s : R) (v : list R) :
  length (rot2 m c s v) = length v.
Proof. unfold rot2. now rewrite !set_nth_length. Qed.

(** A rotation of rows [m] and [m + 1] keeps inner products. *)
Lemma rot2_dot (m : nat) (c s : R) (u v : list R) :
  (S m < length u)%nat -> (S m < length v)%nat -> c * c + s * s = 1 ->
  dot_raw (rot2 m c s u) (rot2 m c s v) = dot_raw u v.
Proof.
  intros Hu Hv Hcs. unfold rot2.
  rewrite dotR_set_nth by (rewrite set_nth_length; assumption).
  rewrite !(@nth_set_nth_neq m (S m)) by lia.
  rewrite dotR_set_nth by lia.
  set (a := nth m u 0). set (a' := nth (S m) u 0).
  set (b := nth m v 0). set (b' := nth (S m) v 0).
  replace (dot_raw u v - a * b + (c * a + s * a') * (c * b + s * b') - a' * b'
           + (- s * a + c * a') * (- s * b + c * b'))
    with (dot_raw u v + (c * c + s * s - 1) * (a * b + a' * b')) by ring.
  rewrite Hcs. ring.
Qed.

Lemma rot2_nth_other (m i : nat) (c s : R) (v : list R) :
  i <> m -> i <> S m -> nth i (rot2 m c s v) 0 = nth i v 0.
Proof.
  intros H1 H2. unfold rot2.
  rewrite !nth_set_nth_neq by congruence. reflexivity.
Qed.

(** A column that is zero in both rows is not changed. *)
Lemma rot2_fix (m : nat) (c s : R) (v : list R) :
  nth m v 0 = 0 -> nth (S m) v 0 = 0 -> rot2 m c s v = v.
Proof.
  intros H1 H2. unfold rot2.
  transitivity (set_nth (set_nth v m (nth m v 0)) (S m) (nth (S m) v 0)).
  - rewrite H1, H2. f_equal; [f_equal|]; ring.
  - rewrite set_nth_same. apply set_nth_same.
Qed.

(** On the pivot column the rotation computed by [GivensRotate] puts
    the norm of the pair in row [m] and zero in row [m + 1]. *)
Lemma rot2_pivot (m : nat) (v : list R) :
  (S m < length v)%nat -> 0 < nth (S m) v 0 ->
  let r := sqrt (nth m v 0 * nth m v 0 + nth (S m) v 0 * nth (S m) v 0) in
  0 < r /\
  (nth m v 0 / r) * (nth m v 0 / r) + (nth (S m) v 0 / r) * (nth (S m) v 0 / r) = 1 /\
  rot2 m (nth m v 0 / r) (nth (S m) v 0 / r) v = set_nth (set_nth v m r) (S m) 0.
Proof.
  intros Hlen Hpos r.
  set (a := nth m v 0) in *. set (b := nth (S m) v 0) in *.
  assert (Hsum : 0 < a * a + b * b) by nra.
  assert (Hr : 0 < r) by (apply sqrt_lt_R0; exact Hsum).
  assert (Hrr : r * r = a * a + b * b) by (apply sqrt_sqrt; lra).
  split; [exact Hr|]. split.
  - field_simplify_eq; [|lra]. nra.
  - unfold rot2. fold a b. f_equal; [f_equal|].
    + field_simplify_eq; [|lra]. nra.
    + field. lra.
Qed.

(** A loop that replaces the columns [a .. a + len - 1] of a matrix, each
    by a function of itself, is a map over those columns. *)
Lemma foldM_cols (A : Type) (f : A -> option A) (len a : nat) (cs : list A) :
  (a + len <= length cs)%nat ->
  (forall j c, (a <= j < a + len)%nat -> nth_error cs j = Some c ->
               f c <> None) ->
  exists cs',
    foldM (fun cs j => c <- lookupN cs j ;; c' <- f c ;; updateN cs j c')
      (map (fun k => (N.of_nat a + N.of_nat k)%N) (seq 0 len)) cs = Some cs' /\
    length cs' = length cs /\
    forall j, nth_error cs' j =
      if ((a <=? j) && (j <? a + len))%nat
      then (c <- nth_error cs j ;; f c) else nth_error cs j.
Proof.
  revert a cs. induction len as [|len IH]; intros a cs Hlen Hf.
  - exists cs. split; [reflexivity|]. split; [reflexivity|]. intros j.
    destruct (Nat.leb_spec a j), (Nat.ltb_spec j (a + 0)); simpl;
      try reflexivity; lia.
  - cbn [seq map foldM]. rewrite N.add_0_r, lookupN_of_nat.
    destruct (nth_error cs a) as [c|] eqn:Ec;
      [|apply nth_error_None in Ec; lia].
    destruct (f c) as [c'|] eqn:Efc; [|exfalso; apply (Hf a c); auto; lia].
    rewrite updateN_of_nat by lia.
    rewrite <- seq_shift, map_map.
    destruct (IH (S a) (set_nth cs a c')) as (cs' & Hfold & Hl & Hnth).
    + rewrite set_nth_length. lia.
    + intros j c0 Hj Hc0. rewrite nth_error_set_nth_neq in Hc0 by lia.
      apply (Hf j c0); [lia | exact Hc0].
    + exists cs'. split; [|split].
      * rewrite <- Hfold. f_equal. apply map_ext. intros k. lia.
      * now rewrite Hl, set_nth_length.
      * intros j. rewrite Hnth.
        destruct (Nat.eq_dec j a) as [->|Hne].
        -- replace (S a <=? a)%nat with false
             by (symmetry; apply Nat.leb_gt; lia).
           rewrite Nat.leb_refl.
           replace (a <? a + S len)%nat with true
             by (symmetry; apply Nat.ltb_lt; lia).
           simpl. rewrite nth_error_set_nth_eq by lia. rewrite Ec. now rewrite Efc.
        -- rewrite nth_error_set_nth_neq by congruence.
           replace (j <? S a + len)%nat with (j <? a + S len)%nat
             by (f_equal; lia).
           destruct (Nat.leb_spec (S a) j), (Nat.leb_spec a j);
             simpl; try reflexivity; lia.
Qed.

Lemma Reqb_false (a b : R) : a <> b -> Reqb a b = false.
Proof. intros H. unfold Reqb. destruct (Req_dec_T a b); [contradiction|reflexivity]. Qed.

(** [GivensRotate] on a pair whose second entry is not zero. *)
Lemma GivensRotate_pivot (x0 x1 : R) :
  x1 <> 0 ->
  let r := sqrt (x0 * x0 + x1 * x1) in
  GivensRotate x0 x1 = ((r, 0), (x0 / r, x1 / r, - (x1 / r), x0 / r)).
Proof.
  intros Hx r. unfold GivensRotate.
  change (feqb x1 f0) with (Reqb x1 0). rewrite Reqb_false by exact Hx.
  assert (Hn : @norm2 R Scalar_R [x0; x1] = r).
  { unfold norm2. rewrite !dotR_cons, dotR_nil_l. unfold r.
    change (@fsqrt R Scalar_R) with sqrt. f_equal. ring. }
  rewrite Hn. reflexivity.
Qed.

Lemma set_pair_nat (c : list R) (m : nat) (a b : R) :
  (S m < length c)%nat ->
  set_pair c (N.of_nat m) a b = Some (set_nth (set_nth c m a) (S m) b).
Proof.
  intros Hm. unfold set_pair. rewrite updateN_of_nat by lia.
  replace (N.of_nat m + 1)%N with (N.of_nat (S m)) by lia.
  rewrite updateN_of_nat by (rewrite set_nth_length; lia). reflexivity.
Qed.

Lemma lookupN_nth (c : list R) (m : nat) :
  (m < length c)%nat -> lookupN c (N.of_nat m) = Some (nth m c 0).
Proof. intros Hm. rewrite lookupN_of_nat. now apply nth_error_nth'. Qed.

Lemma rotate_col_rot2 (m : nat) (cc ss : R) (c : list R) :
  (S m < length c)%nat ->
  rotate_col (N.of_nat m) cc ss (- ss) cc c = Some (rot2 m cc ss c).
Proof.
  intros Hm. unfold rotate_col. rewrite lookupN_nth by lia.
  replace (N.of_nat m + 1)%N with (N.of_nat (S m)) by lia.
  rewrite lookupN_nth by lia.
  replace (N.of_nat (S m)) with (N.of_nat m + 1)%N by lia.
  rewrite set_pair_nat by lia. reflexivity.
Qed.

(** One pass of the loop of [CholeskyDelete] at index [m] applies one
    rotation of rows [m] and [m + 1] to every column: the columns before
    [m], which the code does not touch, are zero in both rows. *)
Lemma givens_step_rot (rows : N) (cs : list (list R)) (m : nat) (ck : list R) :
  (Z.of_nat (length cs) < u32_modulus)%Z ->
  (forall j c, nth_error cs j = Some c -> length c = S (length cs)) ->
  nth_error cs m = Some ck -> 0 < nth (S m) ck 0 ->
  (forall j c, (j < m)%nat -> nth_error cs j = Some c ->
               nth m c 0 = 0 /\ nth (S m) c 0 = 0) ->
  let r := sqrt (nth m ck 0 * nth m ck 0 + nth (S m) ck 0 * nth (S m) ck 0) in
  givens_step (N.of_nat (length cs)) (Mat rows cs) (N.of_nat m) =
  Some (Mat rows (map (rot2 m (nth m ck 0 / r) (nth (S m) ck 0 / r)) cs)).
Proof.
  intros Hbound Hlen Hck Hpos Hlow r.
  assert (Hm : (m < length cs)%nat) by (apply nth_error_Some; congruence).
  assert (Hlk : length ck = S (length cs)) by (eapply Hlen; eauto).
  destruct (@rot2_pivot m ck) as (Hr & Hcs & Hpiv); [lia | exact Hpos |].
  fold r in Hr, Hcs, Hpiv.
  set (cc := nth m ck 0 / r) in *. set (ss := nth (S m) ck 0 / r) in *.
  assert (Hgoal : forall cs',
            length cs' = length cs ->
            (forall j, nth_error cs' j =
               if (j <? m)%nat then nth_error cs j
               else c <- nth_error cs j ;; Some (rot2 m cc ss c)) ->
            cs' = map (rot2 m cc ss) cs).
  { intros cs' Hl' Hn. apply nth_error_ext. intros j.
    rewrite Hn, nth_error_map.
    destruct (Nat.ltb_spec j m) as [Hj|Hj].
    - destruct (nth_error cs j) as [c|] eqn:Ec; [|reflexivity]. simpl.
      destruct (Hlow j c Hj Ec) as [H1 H2]. now rewrite rot2_fix.
    - destruct (nth_error cs j); reflexivity. }
  unfold givens_step, col. cbn [mcols n_rows]. unfold vec.
  rewrite lookupN_of_nat, Hck. rewrite lookupN_nth by lia.
  replace (N.of_nat m + 1)%N with (N.of_nat (S m)) by lia.
  rewrite lookupN_nth by lia.
  rewrite GivensRotate_pivot by lra. fold r. fold cc ss.
  replace (N.of_nat (S m)) with (N.of_nat m + 1)%N by lia.
  rewrite set_pair_nat by lia. rewrite updateN_of_nat by exact Hm.
  rewrite u32_decr_small by lia.
  destruct (N.ltb_spec (N.of_nat m) (N.of_nat (length cs) - 1)) as [Hlt|Hge].
  - rewrite (@foldM_ext _ _ _
               (fun cs j => c <- lookupN cs j ;;
                            c' <- rotate_col (N.of_nat m) cc ss (- ss) cc c ;;
                            updateN cs j c')).
    2:{ intros s0 j. destruct (lookupN s0 j) as [c|]; [|reflexivity].
        unfold rotate_col. destruct (lookupN c (N.of_nat m)); [|reflexivity].
        destruct (lookupN c (N.of_nat m + 1)); reflexivity. }
    unfold range.
    replace (N.to_nat (N.of_nat (length cs) - (N.of_nat m + 1)))
      with (length cs - S m)%nat by lia.
    replace (N.of_nat m + 1)%N with (N.of_nat (S m)) by lia.
    destruct (@foldM_cols _ (rotate_col (N.of_nat m) cc ss (- ss) cc)
                (length cs - S m) (S m)
                (set_nth cs m (set_nth (set_nth ck m r) (S m) 0)))
      as (cs' & Hfold & Hl' & Hn).
    + rewrite set_nth_length. lia.
    + intros j c Hj Hc. rewrite nth_error_set_nth_neq in Hc by lia.
      rewrite rotate_col_rot2; [discriminate|].
      rewrite (Hlen j c Hc). lia.
    + rewrite Hfold. do 2 f_equal. apply Hgoal.
      * now rewrite Hl', set_nth_length.
      * intros j. rewrite Hn.
        destruct (Nat.ltb_spec j m) as [Hj|Hj].
        -- replace (S m <=? j)%nat with false
             by (symmetry; apply Nat.leb_gt; lia).
           simpl. apply nth_error_set_nth_neq. lia.
        -- destruct (Nat.eq_dec j m) as [->|Hne].
           ++ replace (S m <=? m)%nat with false
                by (symmetry; apply Nat.leb_gt; lia).
              simpl. rewrite nth_error_set_nth_eq by exact Hm.
              rewrite Hck, Hpiv. reflexivity.
           ++ rewrite nth_error_set_nth_neq by congruence.
              destruct (nth_error cs j) as [c|] eqn:Ec.
              ** replace (S m <=? j)%nat with true
                   by (symmetry; apply Nat.leb_le; lia).
                 assert (Hjl : (j < length cs)%nat)
                   by (apply nth_error_Some; congruence).
                 replace (j <? S m + (length cs - S m))%nat with true
                   by (symmetry; apply Nat.ltb_lt; lia).
                 simpl. apply rotate_col_rot2. rewrite (Hlen j c Ec). lia.
              ** destruct ((S m <=? j)%nat && (j <? S m + (length cs - S m))%nat);
                   reflexivity.
  - do 2 f_equal. apply Hgoal.
    + now rewrite set_nth_length.
    + intros j. destruct (Nat.ltb_spec j m) as [Hj|Hj].
      * apply nth_error_set_nth_neq. lia.
      * destruct (Nat.eq_dec j m) as [->|Hne].
        -- rewrite nth_error_set_nth_eq by exact Hm.
           rewrite Hck, Hpiv. reflexivity.
        -- rewrite nth_error_set_nth_neq by congruence.
           assert (Hnone : nth_error cs j = None)
             by (apply nth_error_None; lia).
           now rewrite Hnone.
Qed.

Lemma nth_error_remove_nth (A : Type) (l : list A) (k j : nat) :
  nth_error (remove_nth l k) j =
  nth_error l (if (j <? k)%nat then j else S j).
Proof.
  revert k j. induction l as [|a l IH]; intros k j.
  - destruct k; simpl; rewrite !nth_error_nil; reflexivity.
  - destruct k as [|k], j as [|j]; try reflexivity.
    cbn [remove_nth nth_error]. rewrite IH.
    change (S j <? S k)%nat with (j <? k)%nat.
    now destruct (j <? k)%nat.
Qed.

Lemma remove_nth_last (A : Type) (l : list A) (n : nat) :
  length l = S n -> remove_nth l n = firstn n l.
Proof.
  revert n. induction l as [|a l IH]; intros [|n] Hl; simpl in *; try lia.
  - destruct l; [reflexivity | discriminate].
  - f_equal. apply IH. lia.
Qed.

(** Dropping a zero tail does not change an inner product. *)
Lemma dotR_firstn (q : nat) (u v : list R) :
  (forall i, (q <= i)%nat -> nth i u 0 = 0) ->
  dot_raw (firstn q u) (firstn q v) = dot_raw u v.
Proof.
  intros Hz. rewrite (dotR_split q u v).
  rewrite (@dotR_zero_l (skipn q u)); [lra|].
  intros i. rewrite nth_skipn. apply Hz. lia.
Qed.

Lemma shifted_index_eqb (k i j : nat) :
  ((if (i <? k)%nat then i else S i) =? (if (j <? k)%nat then j else S j))%nat
  = (i =? j)%nat.
Proof.
  destruct (Nat.ltb_spec i k), (Nat.ltb_spec j k), (Nat.eqb_spec i j);
    try reflexivity;
    try (apply Nat.eqb_neq; lia); try (apply Nat.eqb_eq; lia).
Qed.

(** Removing column [k] of a factor leaves a matrix that is triangular
    before column [k] and has one subdiagonal from column [k] on. *)
Lemma hess_init (ridge : R) (xs cs : list (list R)) (k : nat) :
  factor_of ridge xs cs -> (k < length cs)%nat ->
  hess_of ridge k (remove_nth xs k) (remove_nth cs k).
Proof.
  intros (Hlen & Hshape & Hgram) Hk.
  assert (Hl : length (remove_nth cs k) = (length cs - 1)%nat)
    by (apply remove_nth_length; exact Hk).
  split; [|split].
  - rewrite Hl, remove_nth_length by lia. lia.
  - intros j c Hc. rewrite nth_error_remove_nth in Hc.
    destruct (Hshape _ _ Hc) as (Hlc & Htri & Hd).
    split; [rewrite Hl; lia|].
    destruct (j <? k)%nat; split; auto.
  - intros i j ci cj xi xj Hci Hcj Hxi Hxj.
    rewrite nth_error_remove_nth in Hci, Hcj, Hxi, Hxj.
    rewrite (Hgram _ _ _ _ _ _ Hci Hcj Hxi Hxj).
    now rewrite shifted_index_eqb.
Qed.

(** One pass moves the boundary between the triangular and the
    subdiagonal part one column to the right. *)
Lemma hess_step (ridge : R) (xs cs : list (list R)) (m : nat) (ck : list R) :
  hess_of ridge m xs cs -> nth_error cs m = Some ck ->
  let r := sqrt (nth m ck 0 * nth m ck 0 + nth (S m) ck 0 * nth (S m) ck 0) in
  hess_of ridge (S m) xs (map (rot2 m (nth m ck 0 / r) (nth (S m) ck 0 / r)) cs).
Proof.
  intros (Hlen & Hshape & Hgram) Hck r.
  assert (Hm : (m < length cs)%nat) by (apply nth_error_Some; congruence).
  destruct (Hshape _ _ Hck) as (Hlk & Hk). rewrite Nat.ltb_irrefl in Hk.
  destruct Hk as [Hkz Hkd].
  destruct (@rot2_pivot m ck) as (Hr & Hcs & Hpiv); [lia | exact Hkd |].
  fold r in Hr, Hcs, Hpiv.
  set (cc := nth m ck 0 / r) in *. set (ss := nth (S m) ck 0 / r) in *.
  split; [|split].
  - now rewrite length_map.
  - intros j c' Hc'. rewrite nth_error_map in Hc'.
    destruct (nth_error cs j) as [c|] eqn:Ec; [|discriminate].
    injection Hc' as <-. destruct (Hshape _ _ Ec) as (Hlc & Hc).
    split; [now rewrite rot2_length, length_map|].
    destruct (Nat.ltb_spec j m) as [Hjm|Hjm].
    + destruct Hc as [Hz Hd].
      replace (j <? S m)%nat with true by (symmetry; apply Nat.ltb_lt; lia).
      rewrite rot2_fix by (apply Hz; lia). auto.
    + destruct Hc as [Hz Hd]. destruct (Nat.eq_dec j m) as [->|Hne].
      * replace (m <? S m)%nat with true by (symmetry; apply Nat.ltb_lt; lia).
        assert (c = ck) by congruence. subst c. rewrite Hpiv. split.
        -- intros i Hi. destruct (Nat.eq_dec i (S m)) as [->|Hi'].
           ++ apply nth_set_nth_eq. rewrite set_nth_length. lia.
           ++ rewrite !nth_set_nth_neq by lia. apply Hz. lia.
        -- rewrite nth_set_nth_neq by lia.
           rewrite nth_set_nth_eq by lia. exact Hr.
      * replace (j <? S m)%nat with false by (symmetry; apply Nat.ltb_ge; lia).
        split.
        -- intros i Hi. rewrite rot2_nth_other by lia. apply Hz. lia.
        -- rewrite rot2_nth_other by lia. exact Hd.
  - intros i j ci' cj' xi xj Hci Hcj Hxi Hxj.
    rewrite nth_error_map in Hci, Hcj.
    destruct (nth_error cs i) as [ci|] eqn:Eci; [|discriminate].
    destruct (nth_error cs j) as [cj|] eqn:Ecj; [|discriminate].
    injection Hci as <-. injection Hcj as <-.
    destruct (Hshape _ _ Eci) as (Hli & _).
    destruct (Hshape _ _ Ecj) as (Hlj & _).
    rewrite rot2_dot by (try lia; exact Hcs).
    eapply Hgram; eauto.
Qed.

(** After the last pass the last row is zero, and [shed_row] leaves the
    factor of the remaining columns. *)
Lemma hess_final (ridge : R) (xs cs : list (list R)) :
  hess_of ridge (length cs) xs cs ->
  factor_of ridge xs (map (fun c => remove_nth c (length cs)) cs).
Proof.
  intros (Hlen & Hshape & Hgram).
  assert (Hlt : forall j c, nth_error cs j = Some c ->
            length c = S (length cs) /\
            (forall i, (j < i)%nat -> nth i c 0 = 0) /\ 0 < nth j c 0 /\
            (j < length cs)%nat).
  { intros j c Hc.
    assert (Hj : (j < length cs)%nat) by (apply nth_error_Some; congruence).
    destruct (Hshape _ _ Hc) as (Hl & H).
    replace (j <? length cs)%nat with true in H
      by (symmetry; apply Nat.ltb_lt; exact Hj).
    tauto. }
  split; [|split].
  - now rewrite length_map.
  - intros j c' Hc'. rewrite nth_error_map in Hc'.
    destruct (nth_error cs j) as [c|] eqn:Ec; [|discriminate].
    injection Hc' as <-. destruct (Hlt _ _ Ec) as (Hl & Hz & Hd & Hj).
    rewrite remove_nth_last by exact Hl. rewrite length_map.
    split; [rewrite firstn_length_le; lia|]. split.
    + intros i Hi. rewrite nth_firstn.
      destruct (i <? length cs)%nat; [now apply Hz | reflexivity].
    + rewrite nth_firstn.
      replace (j <? length cs)%nat with true
        by (symmetry; apply Nat.ltb_lt; exact Hj).
      exact Hd.
  - intros i j ci' cj' xi xj Hci Hcj Hxi Hxj.
    rewrite nth_error_map in Hci, Hcj.
    destruct (nth_error cs i) as [ci|] eqn:Eci; [|discriminate].
    destruct (nth_error cs j) as [cj|] eqn:Ecj; [|discriminate].
    injection Hci as <-. injection Hcj as <-.
    destruct (Hlt _ _ Eci) as (Hli & Hzi & _ & Hi).
    destruct (Hlt _ _ Ecj) as (Hlj & _).
    rewrite !remove_nth_last by assumption.
    rewrite dotR_firstn by (intros q Hq; apply Hzi; lia).
    eapply Hgram; eauto.
Qed.

(** The loop of [CholeskyDelete] runs through and reaches the end of the
    matrix. *)
Lemma delete_loop (ridge : R) (xs : list (list R)) (rows : N) (n d : nat) :
  (Z.of_nat n < u32_modulus)%Z ->
  forall (m : nat) (cs : list (list R)),
  length cs = n -> (m + d = n)%nat -> hess_of ridge m xs cs ->
  exists cs',
    foldM (givens_step (N.of_nat n))
      (map (fun i => (N.of_nat m + N.of_nat i)%N) (seq 0 d)) (Mat rows cs)
    = Some (Mat rows cs') /\
    length cs' = n /\ hess_of ridge n xs cs'.
Proof.
  intros Hbound. induction d as [|d IH]; intros m cs Hn Hmd Hh.
  - exists cs. split; [reflexivity|]. split; [exact Hn|].
    now replace n with m by lia.
  - cbn [seq map foldM]. rewrite N.add_0_r.
    destruct (nth_error cs m) as [ck|] eqn:Eck;
      [|apply nth_error_None in Eck; lia].
    pose proof (hess_step Hh Eck) as Hh'. cbn zeta in Hh'.
    destruct Hh as (Hlen & Hshape & Hgram).
    destruct (Hshape _ _ Eck) as (Hlk & Hk). rewrite Nat.ltb_irrefl in Hk.
    subst n.
    rewrite (@givens_step_rot rows cs m ck); try exact Hbound.
    + rewrite <- seq_shift, map_map.
      destruct (IH (S m) _ (length_map _ _) ltac:(lia) Hh')
        as (cs' & Hfold & Hl' & Hfin).
      exists cs'. split; [|split; assumption].
      rewrite <- Hfold. f_equal. apply map_ext. intros i. lia.
    + intros j c Hc. apply (Hshape _ _ Hc).
    + exact Eck.
    + apply Hk.
    + intros j c Hj Hc. destruct (Hshape _ _ Hc) as (_ & Hjc).
      replace (j <? m)%nat with true in Hjc
        by (symmetry; apply Nat.ltb_lt; exact Hj).
      destruct Hjc as [Hz _]. split; apply Hz; lia.
Qed.

(** The leading block of a factor is the factor of the leading columns. *)
Lemma factor_leading (ridge : R) (xs cs : list (list R)) (q : nat) :
  factor_of ridge xs cs -> length cs = S q ->
  factor_of ridge (firstn q xs) (map (firstn q) (firstn q cs)).
Proof.
  intros (Hlen & Hshape & Hgram) Hq.
  assert (Hsel : forall (l : list (list R)) j c,
            nth_error (firstn q l) j = Some c ->
            (j < q)%nat /\ nth_error l j = Some c).
  { intros l j c H. rewrite nth_error_firstn in H.
    destruct (Nat.ltb_spec j q); [auto | discriminate]. }
  split; [|split].
  - rewrite length_map, !firstn_length_le by lia. reflexivity.
  - intros j c' Hc'. rewrite nth_error_map in Hc'.
    destruct (nth_error (firstn q cs) j) as [c|] eqn:Ec; [|discriminate].
    injection Hc' as <-. destruct (Hsel _ _ _ Ec) as [Hj Ec'].
    destruct (Hshape _ _ Ec') as (Hl & Hz & Hd).
    rewrite length_map, !firstn_length_le by lia.
    split; [reflexivity|]. split.
    + intros i Hi. rewrite nth_firstn.
      destruct (i <? q)%nat; [now apply Hz | reflexivity].
    + rewrite nth_firstn.
      replace (j <? q)%nat with true by (symmetry; apply Nat.ltb_lt; exact Hj).
      exact Hd.
  - intros i j ci' cj' xi xj Hci Hcj Hxi Hxj.
    rewrite nth_error_map in Hci, Hcj.
    destruct (nth_error (firstn q cs) i) as [ci|] eqn:Eci; [|discriminate].
    destruct (nth_error (firstn q cs) j) as [cj|] eqn:Ecj; [|discriminate].
    injection Hci as <-. injection Hcj as <-.
    destruct (Hsel _ _ _ Eci) as [Hi Eci'].
    destruct (Hsel _ _ _ Ecj) as [Hj Ecj'].
    destruct (Hsel _ _ _ Hxi) as [_ Exi].
    destruct (Hsel _ _ _ Hxj) as [_ Exj].
    destruct (Hshape _ _ Eci') as (Hli & Hzi & _).
    rewrite dotR_firstn by (intros t Ht; apply Hzi; lia).
    eapply Hgram; eauto.
Qed.

(** [CholeskyDelete] on a factor of at least two columns returns the factor
    of the remaining columns. *)
Lemma CholeskyDelete_factor (ridge : R) (xs cs : list (list R)) (k : nat) :
  factor_of ridge xs cs ->
  (2 <= length cs)%nat -> (Z.of_nat (length cs) < u32_modulus)%Z ->
  (k < length cs)%nat ->
  exists cs',
    CholeskyDelete (Mat (N.of_nat (length cs)) cs) (N.of_nat k)
    = Some (Mat (N.of_nat (length cs - 1)) cs') /\
    length cs' = (length cs - 1)%nat /\
    factor_of ridge (remove_nth xs k) cs'.
Proof.
  intros Hf Hn2 Hbound Hk.
  assert (Hlen : length cs = length xs) by apply Hf.
  unfold CholeskyDelete. cbn [n_rows].
  rewrite u32_decr_small by lia.
  destruct (N.eqb_spec (N.of_nat k) (N.of_nat (length cs) - 1)) as [Ek|Ek].
  - assert (Hq : length cs = S k) by lia.
    rewrite wrap32_small by lia.
    unfold leading_block, n_cols. cbn [n_rows mcols]. unfold vec.
    replace (Z.to_N (Z.of_N (N.of_nat (length cs)) - 2)) with (N.of_nat (k - 1))
      by lia.
    destruct (N.ltb_spec (N.of_nat (k - 1)) (N.of_nat (length cs))); [|lia].
    replace (N.to_nat (N.of_nat (k - 1) + 1)) with k by lia.
    replace (N.of_nat (k - 1) + 1)%N with (N.of_nat (length cs - 1)) by lia.
    eexists. split; [reflexivity|]. split.
    + rewrite length_map, firstn_length_le; lia.
    + rewrite remove_nth_last by lia. now apply factor_leading.
  - unfold shed_col, n_cols. cbn [n_rows mcols]. unfold vec.
    destruct (N.ltb_spec (N.of_nat k) (N.of_nat (length cs))); [|lia].
    assert (Hl1 : length (remove_nth cs k) = (length cs - 1)%nat)
      by (apply remove_nth_length; exact Hk).
    rewrite Nat2N.id. unfold range.
    replace (N.to_nat (N.of_nat (length cs) - 1 - N.of_nat k))
      with (length cs - 1 - k)%nat by lia.
    replace (N.of_nat (length cs) - 1)%N with (N.of_nat (length cs - 1)) by lia.
    destruct (@delete_loop ridge (remove_nth xs k) (N.of_nat (length cs))
                (length cs - 1) (length cs - 1 - k) ltac:(lia) k
                (remove_nth cs k) Hl1 ltac:(lia) (hess_init Hf Hk))
      as (cs' & Hfold & Hl' & Hfin).
    rewrite Hfold. unfold shed_row. cbn [n_rows mcols].
    destruct (N.ltb_spec (N.of_nat (length cs - 1)) (N.of_nat (length cs)));
      [|lia].
    rewrite Nat2N.id.
    replace (N.of_nat (length cs) - 1)%N with (N.of_nat (length cs - 1)) by lia.
    eexists. split; [reflexivity|]. split.
    + now rewrite length_map.
    + revert Hfin. rewrite <- Hl'. intros Hfin. apply hess_final. exact Hfin.
Qed.

End DeleteAlgebra.

(** ** The factor along a run *)

Section FactorInvariant.

Local Open Scope R_scope.

Lemma mapM_In (A B : Type) (f : A -> option B) (l : list A) (rs : list B) :
  mapM f l = Some rs -> forall a, In a l -> exists b, f a = Some b.
Proof.
  revert rs. induction l as [|a0 l IH]; intros rs H a Hin; [destruct Hin|].
  simpl in H. destruct (f a0) as [b0|] eqn:E0; [|discriminate].
  destruct (mapM f l) as [bs|]; [|discriminate].
  destruct Hin as [<-|Hin]; eauto.
Qed.

Lemma mapM_snoc (A B : Type) (f : A -> option B) (l : list A) (rs : list B)
  (a : A) (b : B) :
  mapM f l = Some rs -> f a = Some b -> mapM f (l ++ [a]) = Some (rs ++ [b]).
Proof.
  revert rs. induction l as [|a0 l IH]; intros rs H Ha; simpl in *.
  - inversion H; subst. now rewrite Ha.
  - destruct (f a0); [|discriminate].
    destruct (mapM f l) as [bs|]; [|discriminate].
    inversion H; subst. now rewrite (IH bs eq_refl Ha).
Qed.

Lemma mapM_remove_nth (A B : Type) (f : A -> option B) (l : list A)
  (rs : list B) (k : nat) :
  mapM f l = Some rs -> mapM f (remove_nth l k) = Some (remove_nth rs k).
Proof.
  revert rs k. induction l as [|a0 l IH]; intros rs k H; simpl in H.
  - inversion H; subst. now destruct k.
  - destruct (f a0) as [b0|] eqn:E0; [|discriminate].
    destruct (mapM f l) as [bs|] eqn:Em; [|discriminate].
    inversion H; subst. destruct k as [|k]; simpl.
    + exact Em.
    + rewrite E0. now rewrite (IH bs k eq_refl).
Qed.

Lemma mapM_length (A B : Type) (f : A -> option B) (l : list A) (rs : list B) :
  mapM f l = Some rs -> length rs = length l.
Proof.
  revert rs. induction l as [|a0 l IH]; intros rs H; simpl in H.
  - now inversion H.
  - destruct (f a0); [|discriminate].
    destruct (mapM f l) as [bs|]; [|discriminate].
    inversion H; subst. simpl. now rewrite (IH bs eq_refl).
Qed.

(** A loop over the positions of a list, read through [lookupN]. *)
Lemma mapM_positions (A B : Type) (l : list A) (h : A -> option B)
  (f : N -> option B) (s : nat) :
  (forall k a, nth_error l k = Some a -> f (N.of_nat (s + k)) = h a) ->
  mapM f (map N.of_nat (seq s (length l))) = mapM h l.
Proof.
  revert s. induction l as [|a l IH]; intros s Hf; [reflexivity|].
  cbn [length seq map mapM].
  rewrite <- (Nat.add_0_r s) at 1. rewrite (Hf 0%nat a eq_refl).
  destruct (h a); [|reflexivity].
  rewrite (IH (S s)); [reflexivity|].
  intros k a' Hk. rewrite <- (Hf (S k) a' Hk). f_equal. lia.
Qed.

Lemma mapM_through (A B C : Type) (f : A -> option B) (h : B -> option C)
  (w : B -> C) (l : list A) (rs : list B) :
  mapM f l = Some rs -> (forall b, In b rs -> h b = Some (w b)) ->
  mapM (fun a => b <- f a ;; h b) l = Some (map w rs).
Proof.
  revert rs. induction l as [|a l IH]; intros rs H Hh; simpl in H.
  - inversion H; subst. reflexivity.
  - destruct (f a) as [b|] eqn:Eb; [|discriminate].
    destruct (mapM f l) as [bs|] eqn:Em; [|discriminate].
    inversion H; subst. cbn [mapM map]. rewrite Eb.
    rewrite (Hh b) by now left.
    rewrite (IH bs eq_refl) by (intros; apply Hh; now right). reflexivity.
Qed.

Lemma col_In (M : @mat R) (j : N) (x : list R) :
  col M j = Some x -> In x (mcols M).
Proof.
  unfold col. intros H. apply lookupN_Some_lt in H.
  eapply nth_error_In. apply H.
Qed.

Lemma active_columns_In (L : @Lars R) (xs : list (list R)) (x : list R) :
  active_columns L = Some xs -> In x xs -> In x (mcols (X_ L)).
Proof.
  unfold active_columns. intros H Hin.
  apply In_nth_error in Hin. destruct Hin as [k Hk].
  destruct (mapM_nth_error _ _ _ H Hk) as (a & _ & Ha).
  eapply col_In; eauto.
Qed.

(** The vector [new_Gram_col] of [DoLARS] holds the inner products of the
    active columns with the new one. *)
Lemma new_Gram_col_of_spec (L : @Lars R) (xs : list (list R)) (j : N)
  (x : list R) :
  rectangular (X_ L) ->
  n_active_ L = N.of_nat (length (active_set_ L)) ->
  active_columns L = Some xs -> col (X_ L) j = Some x ->
  new_Gram_col_of L j = Some (map (fun xi => dot_raw xi x) xs).
Proof.
  intros Hrect Hn Hxs Hx. unfold new_Gram_col_of, upto.
  rewrite Hn, Nat2N.id.
  rewrite (@mapM_positions _ _ (active_set_ L)
             (fun a => ca <- col (X_ L) a ;; dot ca x)).
  - apply mapM_through; [exact Hxs|].
    intros b Hb. unfold dot.
    assert (Hl : length b = length x).
    { apply Nat2N.inj. rewrite (Hrect b), (Hrect x); auto.
      - eapply col_In; eauto.
      - eapply active_columns_In; eauto. }
    rewrite Hl, Nat.eqb_refl. reflexivity.
  - intros k a Hk. cbn [Nat.add]. rewrite lookupN_of_nat, Hk, Hx. reflexivity.
Qed.

Lemma sq_norm_ridge (L : @Lars R) (x : list R) :
  (if elastic_net_ L then fadd (dot_raw x x) (lambda_2_ L) else dot_raw x x)
  = dot_raw x x + ridge_of L.
Proof.
  unfold ridge_of. destruct (elastic_net_ L); [reflexivity|]. ring.
Qed.

(** [CholeskyInsert] on a factor of the active columns: the radicand is
    defined, and when it is positive the result is the factor of the active
    columns followed by the new one. *)
Lemma CholeskyInsert_factor (L : @Lars R) (xs cs : list (list R))
  (x : list R) :
  factor_of (ridge_of L) xs cs ->
  let Rm := Mat (N.of_nat (length cs)) cs in
  let g := map (fun xi => dot_raw xi x) xs in
  exists rad,
    insert_radicand L Rm x g = Some rad /\
    (0 < rad ->
     exists cs',
       CholeskyInsert L Rm x g = Some (Mat (N.of_nat (length cs) + 1) cs') /\
       length cs' = S (length cs) /\
       factor_of (ridge_of L) (xs ++ [x]) cs').
Proof.
  intros Hf Rm g.
  assert (Hlen : length cs = length xs) by apply Hf.
  pose proof (@factor_insert (ridge_of L) xs cs x Hf) as Hins.
  cbn zeta in Hins. fold g in Hins.
  unfold insert_radicand, CholeskyInsert. cbn [n_rows Rm].
  rewrite sq_norm_ridge.
  destruct (N.eqb_spec (N.of_nat (length cs)) 0) as [E0|E0].
  - assert (cs = []) by (apply length_zero_iff_nil; lia). subst cs.
    assert (xs = []) by (apply length_zero_iff_nil; simpl in Hlen; lia).
    subst xs. eexists. split; [reflexivity|]. intros Hrad.
    eexists. split; [reflexivity|]. split; [reflexivity|].
    cbn [forward_subst map app] in Hins. rewrite dotR_nil_l in Hins.
    replace (dot_raw x x + ridge_of L - 0) with (dot_raw x x + ridge_of L)
      in Hins by ring.
    specialize (Hins Hrad).
    replace (if elastic_net_ L
             then fsqrt (fadd (dot_raw x x) (lambda_2_ L)) else norm2 x)
      with (sqrt (dot_raw x x + ridge_of L)); [exact Hins|].
    unfold ridge_of, norm2. destruct (elastic_net_ L); [reflexivity|].
    change (@fsqrt R Scalar_R) with sqrt. f_equal. ring.
  - unfold solve_trimatl_trans, n_cols. cbn [n_rows mcols Rm]. unfold vec.
    rewrite N.eqb_refl.
    replace (N.of_nat (length g) =? N.of_nat (length cs))%N with true.
    2:{ symmetry. apply N.eqb_eq. unfold g. rewrite length_map.
        f_equal. symmetry. exact Hlen. }
    eexists. split; [reflexivity|]. intros Hrad.
    eexists. split; [reflexivity|]. split.
    + rewrite length_app, length_map. simpl. lia.
    + apply Hins. exact Hrad.
Qed.

(** The invariant only reads the dataset, the ridge term and the active
    set. *)
Lemma chol_inv_same (L L' : @Lars R) (Rm : @mat R) :
  same_data L L' -> same_active L L' -> chol_inv L Rm -> chol_inv L' Rm.
Proof.
  intros (HX & _ & _ & _ & _ & _ & _ & _ & _ & Hen & Hl2) (Hn & Ha & _).
  unfold chol_inv, active_columns, ridge_of.
  rewrite HX, Hen, Hl2, Hn, Ha. tauto.
Qed.

Lemma mat_eta (M : @mat R) : M = Mat (n_rows M) (mcols M).
Proof. now destruct M. Qed.

(** Insertion keeps the invariant of the factor. *)
Lemma chol_insert_step (L : @Lars R) (Rm : @mat R) (j : N) (x : list R) :
  chol_inv L Rm -> wf_active L -> (n_active_ L < p_ L)%N ->
  col (X_ L) j = Some x ->
  exists g rad,
    new_Gram_col_of L j = Some g /\
    insert_radicand L Rm x g = Some rad /\
    (0 < rad ->
     exists R', CholeskyInsert L Rm x g = Some R' /\
                forall L', Activate L j = Some L' -> chol_inv L' R').
Proof.
  intros (Hr & Hc & Hn & Hrect & xs & Hxs & Hf) Hwf Hlt Hx.
  destruct Hwf as (_ & _ & Hp & _).
  destruct Rm as [rows cs]. unfold n_cols in Hc. cbn [n_rows mcols] in *.
  assert (Hrows : rows = N.of_nat (length cs)) by congruence.
  destruct (@CholeskyInsert_factor L xs cs x Hf) as (rad & Hrad & Hins).
  exists (map (fun xi => dot_raw xi x) xs), rad.
  split; [now apply new_Gram_col_of_spec|].
  rewrite Hrows. split; [exact Hrad|].
  intros Hpos. destruct (Hins Hpos) as (cs' & HCI & Hl' & Hf').
  eexists. split; [exact HCI|]. intros L' HA.
  apply Activate_spec in HA.
  destruct HA as (Hd & _ & _ & Hn' & Has & _ & _).
  destruct Hd as (HX & _ & _ & _ & _ & _ & _ & _ & _ & Hen & Hl2).
  rewrite u32_incr_small in Hn' by lia.
  unfold chol_inv, n_cols. cbn [n_rows mcols].
  rewrite Hn', Has, HX, length_app. cbn [length]. unfold vec in *.
  split; [lia|]. split; [rewrite Hl'; lia|]. split; [lia|].
  split; [exact Hrect|].
  exists (xs ++ [x]). split.
  - unfold active_columns. rewrite Has, HX. now apply mapM_snoc.
  - replace (ridge_of L') with (ridge_of L); [exact Hf'|].
    unfold ridge_of. now rewrite Hen, Hl2.
Qed.

(** Deletion keeps the invariant of the factor. *)
Lemma chol_delete_step (L L' : @Lars R) (Rm : @mat R) (k : N) :
  chol_inv L Rm -> wf_active L -> (2 <= n_active_ L)%N ->
  Deactivate L k = Some L' ->
  exists R', CholeskyDelete Rm k = Some R' /\ chol_inv L' R'.
Proof.
  intros (Hr & Hc & Hn & Hrect & xs & Hxs & Hf) Hwf H2 HD.
  destruct Hwf as (_ & _ & Hp & Hle & _).
  destruct Rm as [rows cs]. unfold n_cols in Hc. cbn [n_rows mcols] in *.
  assert (Hrows : rows = N.of_nat (length cs)) by congruence.
  assert (Hlc : length cs = length (active_set_ L)).
  { apply Nat2N.inj. congruence. }
  apply Deactivate_spec in HD.
  destruct HD as (Hd & _ & _ & Hn' & Has & a & Ha & Hk & _).
  destruct Hd as (HX & _ & _ & _ & _ & _ & _ & _ & _ & Hen & Hl2).
  rewrite u32_decr_small in Hn' by lia.
  unfold vec in *.
  assert (H2' : (2 <= length cs)%nat) by lia.
  assert (Hb : (Z.of_nat (length cs) < u32_modulus)%Z) by lia.
  assert (Hk' : (N.to_nat k < length cs)%nat) by lia.
  destruct (@CholeskyDelete_factor (ridge_of L) xs cs (N.to_nat k) Hf H2' Hb Hk')
    as (cs' & HCD & Hl' & Hf').
  rewrite N2Nat.id in HCD. rewrite Hrows.
  eexists. split; [exact HCD|].
  unfold chol_inv, n_cols. cbn [n_rows mcols].
  rewrite Hn', Has, HX, remove_nth_length by exact Hk. unfold vec in *.
  split; [lia|]. split; [rewrite Hl'; lia|]. split; [lia|].
  split; [exact Hrect|].
  exists (remove_nth xs (N.to_nat k)). split.
  - unfold active_columns. rewrite Has, HX. now apply mapM_remove_nth.
  - replace (ridge_of L') with (ridge_of L); [exact Hf'|].
    unfold ridge_of. now rewrite Hen, Hl2.
Qed.

Lemma factor_of_nil (ridge : R) : factor_of ridge [] [].
Proof.
  split; [reflexivity|]. split.
  - intros j c Hc. destruct j; discriminate.
  - intros i j ci cj xi xj Hci. destruct i; discriminate.
Qed.

(** [Init] succeeds only on a rectangular dataset. *)
Lemma Init3_rectangular (L0 L : @Lars R) (X : @mat R) (y : @vec R) (c : bool) :
  Init3 L0 X y c = Some L -> X_ L = X /\ rectangular X.
Proof.
  unfold Init3. intros H.
  destruct (ComputeXty (set_data L0 X y c)) as [L1|] eqn:E1; [|discriminate].
  unfold ComputeXty in E1.
  destruct (trans_mul _ _) as [v|] eqn:Et; inversion E1; subst; clear E1.
  split.
  - cbn [use_cholesky_ set_Xty set_data] in H. destruct (negb c).
    + destruct (ComputeGram _) as [L2|] eqn:E2; [|discriminate].
      unfold ComputeGram in E2.
      match type of E2 with
      | match ?e with Some _ => _ | None => None end = _ =>
          destruct e; [|discriminate]
      end.
      inversion E2; subst. inversion H; subst. reflexivity.
    + inversion H; subst; reflexivity.
  - unfold trans_mul in Et. cbn [X_ y_ set_data] in Et.
    destruct (N.eqb_spec (N.of_nat (length y)) (n_rows X)) as [Hy|];
      [|discriminate].
    intros x Hx. destruct (mapM_In _ _ Et x Hx) as [d Hd].
    unfold dot in Hd.
    destruct (Nat.eqb_spec (length x) (length y)) as [Hl|]; [|discriminate].
    rewrite Hl. exact Hy.
Qed.

Variable solve : @mat R -> @vec R -> option (@vec R).

(** The factor within a run, over the reals.  Let the factor [Rm] be
    consistent with the active set of [L]
    ([chol_inv]: [Rm] is square of dimension [n_active_], upper triangular
    with a positive diagonal, and [trans(Rm) * Rm] is the Gram matrix of the
    active columns in the order of [active_set_], with [lambda_2_] added on
    the diagonal in Elastic-Net mode).  Then, in exact arithmetic:
    - for a column [j] of the dataset, [new_Gram_col] and the radicand of
      [CholeskyInsert] are defined, and when the radicand is positive
      [CholeskyInsert] returns a factor consistent with the active set after
      [Activate(j)];
    - with at least two active variables, [CholeskyDelete(Rm, k)] returns a
      factor consistent with the active set after [Deactivate(k)];
    - hence an iteration of the main loop in Cholesky mode that returns
      leaves a consistent factor;
    - and the empty factor a run starts from is consistent with the empty
      active set left by [Init]. *)
Theorem cholesky_consistency (L : @Lars R) (Rm : @mat R)
  (Hinv : chol_inv L Rm) (Hwf : wf_active L) :
  (forall j x,
     (n_active_ L < p_ L)%N -> col (X_ L) j = Some x ->
     exists g rad,
       new_Gram_col_of L j = Some g /\
       insert_radicand L Rm x g = Some rad /\
       (0 < rad ->
        exists R', CholeskyInsert L Rm x g = Some R' /\
                   forall L', Activate L j = Some L' -> chol_inv L' R'))%R /\
  (forall k L',
     (2 <= n_active_ L)%N -> Deactivate L k = Some L' ->
     exists R', CholeskyDelete Rm k = Some R' /\ chol_inv L' R') /\
  (forall s s' brk,
     obj s = L -> Rfac s = Rm -> use_cholesky_ L = true ->
     (kick_out s = true -> (2 <= n_active_ L)%N) ->
     (kick_out s = false ->
      (n_active_ L < p_ L)%N /\
      forall x g rad,
        col (X_ L) (change_ind s) = Some x ->
        new_Gram_col_of L (change_ind s) = Some g ->
        insert_radicand L Rm x g = Some rad -> 0 < rad)%R ->
     body solve s = Some (s', brk) ->
     chol_inv (obj s') (Rfac s') /\ use_cholesky_ (obj s') = true) /\
  (forall L0 X y c L1 s0,
     Init3 L0 X y c = Some L1 -> DoLARS_begin L1 = Some s0 ->
     chol_inv (obj s0) (Rfac s0)).
Proof.
  split; [|split; [|split]].
  - intros j x Hlt Hx. now apply chol_insert_step.
  - intros k L' H2 HD. now apply chol_delete_step with (L := L).
  - intros s s' brk Hobj HR Hch Hdel Hins Hbody. subst L Rm.
    unfold body in Hbody.
    destruct (top_phase s) as [s1|] eqn:Etop; [|discriminate].
    pose proof (rest_phase_frame _ _ Hbody) as (Hd2 & Ha2 & HR2 & _).
    pose proof (top_phase_frame _ Etop) as (Hd1 & _).
    assert (Hch' : use_cholesky_ (obj s') = true).
    { destruct Hd1 as (_ & _ & _ & _ & _ & _ & H1 & _).
      destruct Hd2 as (_ & _ & _ & _ & _ & _ & H2 & _). congruence. }
    split; [|exact Hch'].
    rewrite HR2. apply (chol_inv_same Hd2 Ha2).
    destruct (kick_out s) eqn:Hk.
    + destruct (top_phase_deactivate _ Hk Etop) as [HD HCD].
      rewrite Hch in HCD.
      destruct (@chol_delete_step (obj s) (obj s1) (Rfac s) (change_ind s)
                  Hinv Hwf (Hdel eq_refl) HD) as (R' & HR' & Hi).
      rewrite HCD in HR'. injection HR' as <-. exact Hi.
    + destruct (Hins eq_refl) as [Hlt Hpos].
      pose proof (top_phase_activate _ Hk Etop) as HA.
      unfold top_phase in Etop. rewrite Hk, Hch in Etop.
      destruct (new_Gram_col_of (obj s) (change_ind s)) as [g|] eqn:Eg;
        [|discriminate].
      destruct (col (X_ (obj s)) (change_ind s)) as [x|] eqn:Ex;
        [|discriminate].
      destruct (CholeskyInsert (obj s) (Rfac s) x g) as [R1|] eqn:ECI;
        [|discriminate].
      rewrite HA in Etop. injection Etop as <-. cbn [obj Rfac].
      destruct (@chol_insert_step (obj s) (Rfac s) (change_ind s) x
                  Hinv Hwf Hlt Ex) as (g' & rad & Hg' & Hrad & Hstep).
      rewrite Eg in Hg'. injection Hg' as <-.
      destruct (Hstep (Hpos x g rad eq_refl eq_refl Hrad)) as (R' & HR' & Hi).
      rewrite ECI in HR'. injection HR' as <-.
      apply Hi. cbn [obj] in HA. exact HA.
  - intros L0 X y c L1 s0 HI HB.
    destruct (Init3_rectangular _ _ _ _ HI) as [HX Hrect].
    pose proof (Init3_resets_active _ _ _ _ HI) as (Hn & Ha & _).
    pose proof (DoLARS_begin_spec _ HB) as
      (HR0 & _ & _ & _ & _ & _ & (Hn0 & Ha0 & _) & _ & _ & _ & _ & HX0 & _).
    rewrite HR0. unfold chol_inv, active_columns.
    rewrite Hn0, Ha0, HX0, HX, Hn, Ha.
    split; [reflexivity|]. split; [reflexivity|]. split; [reflexivity|].
    split; [exact Hrect|]. exists []. split; [reflexivity|].
    apply factor_of_nil.
Qed.

End FactorInvariant.

Lemma ex_pair_inv : chol_inv ex_pair ex_R2 /\ wf_active ex_pair.
Proof.
  split.
  - split; [reflexivity|]. split; [reflexivity|]. split; [reflexivity|].
    split.
    + intros x [<-|[<-|[]]]; reflexivity.
    + exists [[1%R; 0%R]; [0%R; 1%R]]. split; [reflexivity|].
      split; [reflexivity|]. split.
      * intros [|[|j]] c Hc; try (destruct j; discriminate);
          injection Hc as <-; cbn [length nth];
          (split; [reflexivity|]); (split; [|lra]);
          intros [|[|i]] Hi; try lia; try reflexivity; destruct i; reflexivity.
      * intros [|[|i]] [|[|j]] ci cj xi xj Hci Hcj Hxi Hxj;
          try (destruct i; discriminate); try (destruct j; discriminate);
          injection Hci as <-; injection Hcj as <-;
          injection Hxi as <-; injection Hxj as <-;
          rewrite !dotR_cons, !dotR_nil_l; cbn [Nat.eqb];
          change (ridge_of ex_pair) with 0%R; lra.
  - split; [reflexivity|]. split; [reflexivity|]. split; [reflexivity|].
    split; [discriminate|]. split.
    + constructor; [intros [H|[]]; discriminate|].
      constructor; [intros []|constructor].
    + intros a. split.
      * intros [<-|[<-|[]]]; reflexivity.
      * intros Hl. rewrite lookupN_nth_error in Hl.
        destruct (N.to_nat a) as [|[|k]] eqn:Ea.
        -- left. lia.
        -- right. left. lia.
        -- destruct k; discriminate.
Qed.

Lemma cholesky_consistency_witness :
  (exists g R',
     CholeskyInsert ex_unit empty_mat [1%R] g = Some R' /\
     forall L', Activate ex_unit 0 = Some L' -> chol_inv L' R') /\
  (exists L' R',
     Deactivate ex_pair 0 = Some L' /\
     CholeskyDelete ex_R2 0 = Some R' /\ chol_inv L' R').
Proof.
  split.
  - assert (Hinv : chol_inv ex_unit empty_mat).
    { split; [reflexivity|]. split; [reflexivity|]. split; [reflexivity|].
      split.
      - intros x [<-|[]]. reflexivity.
      - exists []. split; [reflexivity|]. apply factor_of_nil. }
    assert (Hwf : wf_active ex_unit).
    { split; [reflexivity|]. split; [reflexivity|]. split; [reflexivity|].
      split; [discriminate|]. split; [constructor|].
      intros a. split; [intros []|].
      intros Hl. rewrite lookupN_nth_error in Hl.
      apply nth_error_In in Hl. destruct Hl as [Hl|[]]. discriminate. }
    destruct (proj1 (@cholesky_consistency ex_solve ex_unit empty_mat
                       Hinv Hwf)
                0%N [1%R] eq_refl eq_refl) as (g & rad & _ & Hrad & Hstep).
    exists g. apply Hstep.
    injection Hrad as <-. rewrite dotR_cons, dotR_nil_l.
    change (@fadd R Scalar_R) with Rplus. lra.
  - destruct ex_pair_inv as [Hinv Hwf].
    destruct (proj1 (proj2 (@cholesky_consistency ex_solve ex_pair ex_R2
                              Hinv Hwf))
                0%N _ ltac:(discriminate) eq_refl) as (R' & HR' & Hi).
    eexists. exists R'. split; [reflexivity|]. split; [exact HR' | exact Hi].
Defined.

(** ** The regularisation path along an iteration (C4) *)

Section PathOrder.

Local Open Scope R_scope.

Lemma foldM_invariant (A S : Type) (P : S -> Prop) (f : S -> A -> option S)
  (l : list A) (s s' : S) :
  (forall s a s', P s -> f s a = Some s' -> P s') ->
  P s -> foldM f l s = Some s' -> P s'.
Proof.
  intros Hstep. revert s. induction l as [|a l IH]; intros s Hs H; simpl in H.
  - now inversion H; subst.
  - destruct (f s a) as [s1|] eqn:E; [|discriminate]. eauto.
Qed.

Lemma one_over_nonneg (a : R) : 0 <= a -> 0 <= 1 / a.
Proof.
  intros Ha. destruct (Req_dec a 0) as [->|Hne].
  - rewrite Rdiv_0_r. lra.
  - apply Rlt_le. apply Rdiv_lt_0_compat; lra.
Qed.

Variable solve : @mat R -> @vec R -> option (@vec R).

(** The normalisation is the inverse of a square root. *)
Lemma direction_normalization_nonneg (L : @Lars R) (Rm : @mat R)
  (sg bd : @vec R) (nrm : R) :
  direction solve L Rm sg = Some (bd, nrm) -> 0 <= nrm.
Proof.
  unfold direction. intros H. destruct (use_cholesky_ L); inv_bind H;
    inversion H; subst; apply one_over_nonneg; apply sqrt_pos.
Qed.

(** The scans only ever replace the step by a positive value. *)
Lemma inactive_scan_nonneg (L : @Lars R) (corr yhd : @vec R) (mc nrm : R)
  (gc gc' : R * N) :
  inactive_scan L corr yhd mc nrm gc = Some gc' ->
  0 <= fst gc -> 0 <= fst gc'.
Proof.
  unfold inactive_scan. intros H Hgc.
  destruct (n_active_ L <? p_ L)%N; [|now inversion H; subst].
  revert H. apply foldM_invariant with (P := fun g : R * N => 0 <= fst g);
    [|exact Hgc].
  intros g ind g' Hg Hstep. inv_bind Hstep.
  destruct b; [now inversion Hstep; subst|]. inv_bind Hstep.
  inversion Hstep; subst; clear Hstep.
  repeat match goal with
  | |- context [if ?c then _ else _] =>
      let E := fresh "E" in destruct c eqn:E
  end; cbn [fst];
  repeat match goal with
  | E : _ && _ = true |- _ =>
      apply andb_prop in E; destruct E as [E _]; apply Rltb_true in E
  end; try lra; exact Hg.
Qed.

Lemma lasso_scan_pos (L : @Lars R) (beta bd : @vec R) (bk : R * N) :
  lasso_scan L beta bd = Some bk -> 0 < fst bk.
Proof.
  unfold lasso_scan.
  apply foldM_invariant with (P := fun g : R * N => 0 < fst g).
  - intros g i g' Hg Hstep. inv_bind Hstep. inversion Hstep; subst; clear Hstep.
    match goal with
    | |- context [if ?c then _ else _] =>
        let E := fresh "E" in destruct c eqn:E
    end; cbn [fst]; [|exact Hg].
    apply andb_prop in E2. destruct E2 as [E2 _]. now apply Rltb_true in E2.
  - cbn [fst]. apply IZR_lt. reflexivity.
Qed.

Lemma lasso_bound_nonneg (L : @Lars R) (beta bd : @vec R) (ko ko' : bool)
  (gc : R * N) (gamma : R) (ci : N) :
  lasso_bound L beta bd ko gc = Some (ko', (gamma, ci)) ->
  0 <= fst gc -> 0 <= gamma.
Proof.
  unfold lasso_bound. intros H Hgc.
  destruct (lasso_ L); [|now inversion H; subst].
  destruct (lasso_scan L beta bd) as [bk|] eqn:Es; [|discriminate].
  apply lasso_scan_pos in Es. destruct bk as [b k], gc as [g c].
  cbn [fst] in *.
  destruct (fltb b g); inversion H; subst; lra.
Qed.

(** The value appended to the regularisation path is not above the
    current one. *)
Lemma rest_phase_max_corr_le (s s' : @LoopState R) (brk : bool) :
  0 <= max_corr s -> rest_phase solve s = Some (s', brk) ->
  max_corr s' <= max_corr s.
Proof.
  intros Hmc H.
  destruct (rest_phase_inv _ _ H) as
    (sg & bd & nrm & yhd & gc & gamma & _ & Hdir & _ & Hscan & Hlb & _ & Hm & _).
  apply direction_normalization_nonneg in Hdir.
  apply inactive_scan_nonneg in Hscan.
  2:{ cbn [fst]. change (@fdiv R Scalar_R) with Rdiv.
      destruct (Req_dec nrm 0) as [->|Hne].
      - rewrite Rdiv_0_r. lra.
      - unfold Rdiv.
        apply Rmult_le_pos; [exact Hmc|].
        apply Rlt_le, Rinv_0_lt_compat. lra. }
  apply lasso_bound_nonneg in Hlb; [|exact Hscan].
  rewrite Hm. change (@fsub R Scalar_R) with Rminus.
  change (@fmul R Scalar_R) with Rmult. nra.
Qed.

(** One iteration appends one entry to each path; the value it appends to
    the regularisation path, [max_corr - gamma * normalization], is not
    above the current [max_corr]; when the iteration ends in [break] that
    entry is then overwritten with [desired_lambda_]. *)
Lemma iteration_paths (s s' : @LoopState R) (brk : bool) :
  loop_cond s = true ->
  length (beta_path_ (obj s)) = length (lambda_path_ (obj s)) ->
  body solve s = Some (s', brk) ->
  exists b l,
    beta_path_ (obj s') = beta_path_ (obj s) ++ [b] /\
    lambda_path_ (obj s') = lambda_path_ (obj s) ++ [l] /\
    max_corr s' <= max_corr s /\
    (brk = false -> l = max_corr s') /\
    (brk = true -> l = desired_lambda_ (obj s) /\
                   max_corr s' <= desired_lambda_ (obj s)).
Proof.
  intros Hcond Hlen Hbody.
  destruct (body_paths _ _ Hbody Hlen) as (b & l & Hb & Hl).
  exists b, l. split; [exact Hb|]. split; [exact Hl|].
  unfold loop_cond in Hcond. apply andb_prop in Hcond.
  destruct Hcond as [_ Heps]. apply Rltb_true in Heps.
  assert (Hpos : 0 <= max_corr s).
  { apply Rlt_le. eapply Rlt_trans; [|exact Heps].
    change (@EPS R Scalar_R) with (1 / 10 ^ 16).
    apply Rdiv_lt_0_compat; [lra|]. apply pow_lt. lra. }
  unfold body in Hbody.
  destruct (top_phase s) as [s1|] eqn:Etop; [|discriminate].
  pose proof (top_phase_frame _ Etop) as
    (Hd1 & Hbp1 & Hlp1 & _ & _ & _ & Hmc1 & _).
  assert (Hle : max_corr s' <= max_corr s).
  { rewrite <- Hmc1. apply rest_phase_max_corr_le with (brk := brk);
      [rewrite Hmc1; exact Hpos | exact Hbody]. }
  split; [exact Hle|].
  destruct (rest_phase_frame _ _ Hbody) as (_ & _ & _ & _ & Hlam & _).
  destruct (Hlam ltac:(congruence)) as (l1 & Hl1 & Hl1v).
  assert (l1 = l).
  { rewrite Hlp1, Hl in Hl1. now apply app_inj_tail in Hl1. }
  subst l1.
  destruct (rest_phase_inv _ _ Hbody) as
    (_ & _ & _ & _ & _ & _ & _ & _ & _ & _ & _ & _ & _ & _ & Hbrk).
  split; [exact Hl1v|]. intros ->.
  destruct (Hbrk eq_refl) as (_ & Hfle & HI).
  apply Rleb_true in Hfle.
  destruct Hd1 as (_ & _ & _ & _ & _ & _ & _ & _ & Hdl & _).
  rewrite Hdl in Hfle. split; [|exact Hfle].
  apply InterpolateBeta_frame in HI. destruct HI as (_ & _ & b' & _ & Hup).
  cbn [beta_path_ lambda_path_ desired_lambda_ set_paths] in Hup.
  assert (Hlen' : length (beta_path_ (obj s1) ++ [beta s'])
                  = length (lambda_path_ (obj s1) ++ [max_corr s'])).
  { rewrite !length_app. simpl. congruence. }
  rewrite Hlen' in Hup. apply updateZ_last in Hup.
  rewrite Hlp1, Hl in Hup. apply app_inj_tail in Hup.
  destruct Hup as [_ ->]. exact Hdl.
Qed.

End PathOrder.

(** C4, at the input on which it fails.  One predictor and one
    observation, both 1, and [Init(X, y, false, 5.0)]: the LASSO target 5 is
    above the first entry of the regularisation path, max|Xty| = 1.  The
    first iteration appends [max_corr - gamma * normalization = 0], the
    stopping test [0 <= 5] holds and [InterpolateBeta] overwrites that
    entry with 5.  The run ends with the regularisation path [1; 5], which
    increases, and the coefficient path [[0]; [-4]]; the two paths have the
    same length. *)
Theorem lambda_path_rises_on_early_stop :
  Init4 (Lars_new ex_raw) ex_X1 ex_y1 false 5%float = Some ex_lasso5 /\
  DoLARS example_solve 10 ex_lasso5 = Finished ex_lasso5_run /\
  lambda_path_ (obj ex_lasso5_run) = [1%float; 5%float] /\
  beta_path_ (obj ex_lasso5_run) = [[0%float]; [(-4)%float]] /\
  PrimFloat.ltb 1 5 = true.
Proof. repeat split; vm_compute; reflexivity. Qed.

(** ** One iteration on concrete data, in exact arithmetic *)


Section ExactIteration.
Local Open Scope R_scope.

Lemma ex_top_phase : top_phase ex_step0 = Some ex_step1.
Proof. reflexivity. Qed.

Lemma ex_rest_defined :
  exists s' brk, rest_phase ex_solve ex_step1 = Some (s', brk).
Proof.
  cbv -[Rplus Rminus Rmult Rdiv Rinv Ropp Rabs sqrt Rltb Rleb Reqb IZR pow].
  match goal with
  | |- exists s' brk, (if ?c then _ else _) = _ => destruct c
  end; do 2 eexists; reflexivity.
Qed.

Lemma ex_body_defined :
  exists s' brk, body ex_solve ex_step0 = Some (s', brk).
Proof.
  unfold body. rewrite ex_top_phase. exact ex_rest_defined.
Qed.

Lemma ex_step0_wf : wf_active (obj ex_step0).
Proof.
  split; [reflexivity|]. split; [reflexivity|]. split; [reflexivity|].
  split; [discriminate|]. split; [constructor|].
  intros a. split; [intros []|].
  intros Hl. rewrite lookupN_nth_error in Hl.
  apply nth_error_In in Hl. destruct Hl as [Hl|[]]. discriminate.
Qed.

Lemma ex_step0_sparse : sparse_inv ex_step0.
Proof.
  split; [|split; [|split]].
  - split; [exact ex_step0_wf|]. intros _. discriminate.
  - intros j x _ Hl. rewrite lookupN_nth_error in Hl.
    apply nth_error_In in Hl. destruct Hl as [Hl|[]]. now subst.
  - discriminate.
  - exists []. reflexivity.
Qed.

Lemma ex_step0_cond : loop_cond ex_step0 = true.
Proof.
  unfold loop_cond. apply andb_true_intro. split; [reflexivity|].
  apply Rltb_true. change (@EPS R Scalar_R) with (1 / 10 ^ 16).
  cbn [max_corr ex_step0].
  assert (Hx : 1 < 10 ^ 16) by (apply Rlt_pow_R1; [lra | lia]).
  revert Hx. generalize (10 ^ 16). intros x Hx.
  apply (Rmult_lt_reg_r x); [lra|].
  unfold Rdiv. rewrite Rmult_assoc, Rinv_l by lra. lra.
Qed.

End ExactIteration.

Lemma inactive_coefficients_zero_witness :
  exists s' brk snapshot,
    body ex_solve ex_step0 = Some (s', brk) /\
    beta_path_ (obj s') = beta_path_ (obj ex_step0) ++ [snapshot] /\
    zero_outside (active_set_ (obj s')) snapshot.
Proof.
  destruct ex_body_defined as (s' & brk & Hbody).
  destruct (proj1 (@inactive_coefficients_zero ex_solve ex_step0 s' brk
                     ex_step0_sparse ex_step0_cond Hbody))
    as (snapshot & Hpath & Hzero & _).
  exists s', brk, snapshot. auto.
Defined.

Lemma ex_kick_defined :
  exists s' brk, rest_phase ex_solve ex_kick = Some (s', brk).
Proof.
  cbv -[Rplus Rminus Rmult Rdiv Rinv Ropp Rabs sqrt Rltb Rleb Reqb IZR pow].
  match goal with
  | |- exists s' brk, (if ?c then _ else _) = _ => destruct c
  end; do 2 eexists; reflexivity.
Qed.

Lemma ex_kick_ratio :
  (- -1 / (1 / sqrt (0 + 1) * 1 * (2 / Rabs 2)) = 1)%R /\
  (2 / (1 / sqrt (0 + 1)) = 2)%R.
Proof.
  rewrite Rplus_0_l, sqrt_1, Rabs_right by lra. split; field.
Qed.

Lemma lasso_kick_out_deferred_witness :
  exists s' brk,
    rest_phase ex_solve ex_kick = Some (s', brk) /\
    kick_out s' = true /\ change_ind s' = 0%N.
Proof.
  destruct ex_kick_defined as (s' & brk & Hrest).
  destruct ex_kick_ratio as [Hm Hg].
  assert (Hfin : (fst (2 / (1 / sqrt (0 + 1)), u32_minus_one)
                  <= @DBL_MAX R Scalar_R)%R).
  { cbn [fst]. rewrite Hg. apply IZR_le. discriminate. }
  pose proof (@lasso_kick_out_deferred ex_solve ex_kick s' brk
                [2 / Rabs 2]%R [(1 / sqrt (0 + 1) * 1 * (2 / Rabs 2))%R]
                (1 / sqrt (0 + 1))%R [0 + 1 / sqrt (0 + 1) * 1 * (2 / Rabs 2) * 1]%R
                (2 / (1 / sqrt (0 + 1)), u32_minus_one)%R
                [(- -1 / (1 / sqrt (0 + 1) * 1 * (2 / Rabs 2)))%R]
                eq_refl eq_refl eq_refl eq_refl eq_refl eq_refl eq_refl
                Hfin Hrest) as (Hsel & _).
  destruct (Hsel 0%nat _ eq_refl) as (Hk & Hc & _).
  - rewrite Hm. lra.
  - cbn [fst]. rewrite Hm, Hg. lra.
  - intros [|i] r Hr Hpos; [|destruct i; discriminate].
    injection Hr as <-. lra.
  - intros i r Hi. lia.
  - exists s', brk. auto.
Defined.



(** * Further properties of the class *)

(** ** What [Init] computes, and when it fails *)

Section InitProducts.

Context {F : Type} `{SF : Scalar F}.

Lemma mapM_lookup {A B : Type} (f : A -> option B) (l : list A) (rs : list B)
  (k : nat) (a : A) :
  mapM f l = Some rs -> nth_error l k = Some a ->
  exists b, f a = Some b /\ nth_error rs k = Some b.
Proof.
  revert rs k. induction l as [|a0 l IH]; intros rs k H Hk;
    [destruct k; discriminate|].
  simpl in H. destruct (f a0) as [b0|] eqn:E0; [|discriminate].
  destruct (mapM f l) as [bs|] eqn:Em; [|discriminate].
  inversion H; subst. destruct k as [|k]; simpl in *.
  - inversion Hk; subst. eauto.
  - eapply IH; eauto.
Qed.

Lemma mapM_total {A B : Type} (f : A -> option B) (l : list A) :
  (forall a, In a l -> f a <> None) -> exists rs, mapM f l = Some rs.
Proof.
  induction l as [|a l IH]; intros Hf; [now exists []|].
  simpl. destruct (f a) as [b|] eqn:E; [|exfalso; apply (Hf a); auto; now left].
  destruct IH as [rs Hrs]; [intros; apply Hf; now right|].
  rewrite Hrs. eauto.
Qed.

Lemma nth_error_combine_upto {A : Type} (l : list A) (k : nat) (c : A) :
  nth_error l k = Some c ->
  nth_error (combine (upto (N.of_nat (length l))) l) k = Some (N.of_nat k, c).
Proof.
  intros Hk. unfold upto. rewrite Nat2N.id.
  assert (Hlt : (k < length l)%nat) by (apply nth_error_Some; congruence).
  assert (Hgen : forall (s : nat) (l : list A) k c,
            nth_error l k = Some c ->
            nth_error (combine (map N.of_nat (seq s (length l))) l) k
            = Some (N.of_nat (s + k), c)).
  { clear. intros s l. revert s. induction l as [|a l IH]; intros s k c Hk;
      [destruct k; discriminate|].
    destruct k as [|k]; simpl in *.
    - inversion Hk; subst. now rewrite Nat.add_0_r.
    - rewrite (IH (S s) k c Hk). do 3 f_equal. lia. }
  now rewrite (Hgen 0%nat l k c Hk).
Qed.

Lemma dot_Some (u v : @vec F) (d : F) :
  dot u v = Some d -> length u = length v /\ d = dot_raw u v.
Proof.
  unfold dot. destruct (Nat.eqb_spec (length u) (length v)); intros E;
    inversion E; auto.
Qed.

Lemma dot_same_length (u v : @vec F) :
  length u = length v -> dot u v = Some (dot_raw u v).
Proof. intros E. unfold dot. now rewrite E, Nat.eqb_refl. Qed.

(** The dataset as [Init] needs it: as many rows as [y] has entries. *)
Lemma trans_mul_defined (M : @mat F) (v : @vec F) :
  (exists r, trans_mul M v = Some r) <->
  N.of_nat (length v) = n_rows M /\
  (forall c, In c (mcols M) -> length c = length v).
Proof.
  unfold trans_mul. split.
  - intros [r Hr].
    destruct (N.eqb_spec (N.of_nat (length v)) (n_rows M)); [|discriminate].
    split; [assumption|]. intros c Hc.
    destruct (mapM_In _ _ Hr c Hc) as [d Hd]. now apply dot_Some in Hd.
  - intros [Hn Hc]. rewrite Hn, N.eqb_refl. apply mapM_total.
    intros c Hin. rewrite dot_same_length by auto. discriminate.
Qed.

Lemma ComputeGram_defined (L : @Lars F) (m : nat) :
  (forall c, In c (mcols (X_ L)) -> length c = m) ->
  exists L', ComputeGram L = Some L'.
Proof.
  intros Hc. unfold ComputeGram.
  destruct (mapM_total
              (fun jc : N * @vec F =>
                 mapM (fun ic : N * @vec F =>
                   d <- dot (snd ic) (snd jc) ;;
                   Some (if elastic_net_ L
                         then fadd d (fmul (lambda_2_ L)
                                        (if (fst ic =? fst jc)%N then f1 else f0))
                         else d))
                   (combine (upto (n_cols (X_ L))) (mcols (X_ L))))
              (combine (upto (n_cols (X_ L))) (mcols (X_ L)))) as [G HG].
  - intros [j cj] Hj. apply in_combine_r in Hj.
    destruct (mapM_total
                (fun ic : N * @vec F =>
                   d <- dot (snd ic) cj ;;
                   Some (if elastic_net_ L
                         then fadd d (fmul (lambda_2_ L)
                                        (if (fst ic =? j)%N then f1 else f0))
                         else d))
                (combine (upto (n_cols (X_ L))) (mcols (X_ L)))) as [r Hr].
    + intros [i ci] Hi. apply in_combine_r in Hi. cbn [fst snd].
      rewrite dot_same_length by (rewrite (Hc ci), (Hc cj); auto).
      discriminate.
    + cbn [fst snd]. rewrite Hr. discriminate.
  - rewrite HG. eauto.
Qed.

(** X1.  [Init(X, y, use_cholesky)] returns an object exactly when [X] has
    as many rows as [y] has entries (every column of [X] having that
    length); otherwise the product [trans(X) * y] is refused and nothing is
    returned. *)
Theorem Init3_defined_iff (L0 : @Lars F) (X : @mat F) (y : @vec F) (c : bool) :
  (exists L, Init3 L0 X y c = Some L) <->
  N.of_nat (length y) = n_rows X /\
  (forall x, In x (mcols X) -> length x = length y).
Proof.
  rewrite <- trans_mul_defined. unfold Init3, ComputeXty.
  cbn [X_ y_ set_data]. split.
  - intros [L H]. destruct (trans_mul X y) as [v|]; [eauto | discriminate].
  - intros [v Hv]. rewrite Hv. cbn [use_cholesky_ set_Xty set_data].
    destruct c; cbn [negb]; [eauto|].
    destruct (@ComputeGram_defined (set_Xty (set_data L0 X y false) v)
                (length y)) as [L1 H1].
    + cbn [X_ set_Xty set_data]. apply trans_mul_defined. eauto.
    + rewrite H1. eauto.
Qed.


(** X2.  After [Init(X, y, use_cholesky)] the object holds the dataset and
    its dimensions; [Xty_] has one entry per column, the inner product of
    the column with [y]; when [use_cholesky] is false [Gram_] is the
    [p] x [p] matrix of the inner products of the columns, with
    [lambda_2_ * eye(i, j)] added in Elastic-Net mode; when [use_cholesky]
    is true [Gram_] is not computed and keeps the value it had. *)
Theorem Init3_products (L0 L : @Lars F) (X : @mat F) (y : @vec F) (c : bool)
  (HInit : Init3 L0 X y c = Some L) :
  (X_ L = X /\ y_ L = y /\ n_ L = n_rows X /\ p_ L = n_cols X /\
   use_cholesky_ L = c) /\
  (length (Xty_ L) = length (mcols X) /\
   forall j cj, col X j = Some cj ->
     lookupN (Xty_ L) j = Some (dot_raw cj y)) /\
  (c = false ->
   n_rows (Gram_ L) = n_cols X /\ n_cols (Gram_ L) = n_cols X /\
   forall i j ci cj, col X i = Some ci -> col X j = Some cj ->
     at_ (Gram_ L) i j =
     Some (if elastic_net_ L0
           then fadd (dot_raw ci cj)
                  (fmul (lambda_2_ L0) (if (i =? j)%N then f1 else f0))
           else dot_raw ci cj)) /\
  (c = true -> Gram_ L = Gram_ L0).
Proof.
  unfold Init3, ComputeXty in HInit. cbn [X_ y_ set_data] in HInit.
  destruct (trans_mul X y) as [v|] eqn:Ev; [|discriminate].
  cbn [use_cholesky_ set_Xty set_data] in HInit.
  assert (HXty : length v = length (mcols X) /\
                 forall j cj, col X j = Some cj ->
                   lookupN v j = Some (dot_raw cj y)).
  { unfold trans_mul in Ev.
    destruct (N.of_nat (length y) =? n_rows X)%N; [|discriminate].
    split; [now apply mapM_length in Ev|].
    intros j cj Hj. unfold col in Hj. apply lookupN_Some_lt in Hj.
    destruct Hj as [Hlt Hj].
    destruct (mapM_lookup _ _ _ Ev Hj) as (d & Hd & Hv).
    apply dot_Some in Hd. destruct Hd as [_ ->].
    rewrite lookupN_nth_error. exact Hv. }
  destruct c; cbn [negb] in HInit.
  - inversion HInit; subst; clear HInit. cbn.
    repeat split; try tauto; discriminate.
  - unfold ComputeGram in HInit.
    cbn [X_ elastic_net_ lambda_2_ set_Xty set_data] in HInit.
    match type of HInit with
    | match (match ?e with Some _ => _ | None => None end) with _ => _ end = _ =>
        destruct e as [G|] eqn:EG; [|discriminate]
    end.
    assert (HlG : length G = length (mcols X)).
    { rewrite (mapM_length _ _ EG). unfold n_cols, upto.
      rewrite length_combine, length_map, length_seq, Nat2N.id.
      apply Nat.min_id. }
    inversion HInit; subst; clear HInit. cbn.
    split; [tauto|]. split; [exact HXty|]. split; [|discriminate].
    intros _. split; [reflexivity|].
    split; [unfold n_cols; f_equal; exact HlG|].
    intros i j ci cj Hi Hj. unfold col in Hi, Hj.
    apply lookupN_Some_lt in Hi. destruct Hi as [Hilt Hi].
    apply lookupN_Some_lt in Hj. destruct Hj as [Hjlt Hj].
    unfold n_cols in EG.
    destruct (mapM_lookup _ _ _ EG (nth_error_combine_upto _ _ Hj))
      as (gj & Hgj & HGj).
    cbn [fst snd] in Hgj.
    destruct (mapM_lookup _ _ _ Hgj (nth_error_combine_upto _ _ Hi))
      as (g & Hg & Hgi).
    cbn [fst snd] in Hg.
    destruct (dot ci cj) as [d|] eqn:Ed; [|discriminate].
    apply dot_Some in Ed. destruct Ed as [_ ->].
    rewrite !N2Nat.id in Hg. inversion Hg; subst g; clear Hg.
    unfold at_, col. cbn [mcols]. unfold vec in *.
    rewrite lookupN_nth_error, HGj, lookupN_nth_error, Hgi. reflexivity.
Qed.

End InitProducts.

Lemma Init3_products_witness :
  lookupN (Xty_ ex_sparse) 0 = Some (dot_raw [0; 1; -1]%float ex_y3) /\
  at_ (Gram_ ex_sparse) 0 1
  = Some (dot_raw [0; 1; -1]%float [-3; -2; 3]%float).
Proof.
  assert (H : Init3 (set_lasso (Lars_new ex_raw) true 0%float) ex_X3 ex_y3 false
              = Some ex_sparse) by (vm_compute; reflexivity).
  destruct (Init3_products _ _ _ _ H) as (_ & (_ & Hx) & Hg & _).
  split.
  - exact (Hx 0%N _ eq_refl).
  - exact (proj2 (proj2 (Hg eq_refl)) 0%N 1%N _ _ eq_refl eq_refl).
Defined.

(** ** The active set *)

Section ActiveRoundTrip.

Context {F : Type} `{SF : Scalar F}.

Lemma remove_nth_app_last {A : Type} (l : list A) (x : A) :
  remove_nth (l ++ [x]) (length l) = l.
Proof. induction l as [|a l IH]; simpl; [reflexivity | now rewrite IH]. Qed.

Lemma set_nth_twice {A : Type} (l : list A) (i : nat) (x y : A) :
  set_nth (set_nth l i x) i y = set_nth l i y.
Proof.
  revert i. induction l as [|a l IH]; intros [|i]; simpl; auto.
  now rewrite IH.
Qed.

Lemma set_nth_id {A : Type} (l : list A) (i : nat) (x : A) :
  nth_error l i = Some x -> set_nth l i x = l.
Proof.
  revert i. induction l as [|a l IH]; intros [|i] H; simpl in *;
    try discriminate.
  - now inversion H.
  - now rewrite IH.
Qed.

(** X3.  On a well-formed active set that is not full, [Activate(j)] of an
    inactive variable [j] followed by [Deactivate] of the last position
    gives back the object it started from: the variable is appended at
    position [n_active_], and removing that position restores [n_active_],
    [active_set_] and [is_active_]. *)
Theorem Activate_then_Deactivate (L : @Lars F) (j : N)
  (Hwf : wf_active L)
  (Hroom : (n_active_ L < p_ L)%N)
  (Hj : lookupN (is_active_ L) j = Some false) :
  exists L1,
    Activate L j = Some L1 /\
    lookupN (active_set_ L1) (n_active_ L) = Some j /\
    lookupN (is_active_ L1) j = Some true /\
    Deactivate L1 (n_active_ L) = Some L.
Proof.
  destruct Hwf as (Hn & Hlen & Hp & Hle & Hnd & Hmem).
  apply lookupN_Some_lt in Hj. destruct Hj as [Hjlt Hjf].
  unfold Activate, updateN.
  destruct (N.ltb_spec j (N.of_nat (length (is_active_ L)))); [|lia].
  eexists. split; [reflexivity|].
  rewrite u32_incr_small by lia.
  cbn [active_set_ is_active_ n_active_ set_active].
  assert (Hpos : lookupN (active_set_ L ++ [j]) (n_active_ L) = Some j).
  { rewrite Hn, lookupN_of_nat. apply nth_error_app_at with (r := []). }
  split; [exact Hpos|]. split.
  - rewrite lookupN_nth_error. now apply nth_error_set_nth_eq.
  - unfold Deactivate. cbn [active_set_ is_active_ n_active_ set_active].
    rewrite Hpos. unfold updateN. rewrite set_nth_length.
    destruct (N.ltb_spec j (N.of_nat (length (is_active_ L)))); [|lia].
    rewrite set_nth_twice, (set_nth_id _ _ Hjf).
    rewrite u32_decr_small by lia.
    replace (n_active_ L + 1 - 1)%N with (n_active_ L) by lia.
    replace (N.to_nat (n_active_ L)) with (length (active_set_ L)) by lia.
    rewrite remove_nth_app_last.
    destruct L; reflexivity.
Qed.

End ActiveRoundTrip.

Lemma Activate_then_Deactivate_witness :
  exists L1,
    Activate ex_fresh 0 = Some L1 /\
    lookupN (active_set_ L1) (n_active_ ex_fresh) = Some 0%N /\
    lookupN (is_active_ L1) 0 = Some true /\
    Deactivate L1 (n_active_ ex_fresh) = Some ex_fresh.
Proof.
  apply Activate_then_Deactivate; [|reflexivity|reflexivity].
  split; [reflexivity|]. split; [reflexivity|]. split; [reflexivity|].
  split; [discriminate|]. split; [constructor|].
  intros a. split; [intros []|].
  intros Hl. rewrite lookupN_nth_error in Hl.
  apply nth_error_In in Hl. destruct Hl as [Hl|[]]. discriminate.
Defined.

(** ** The Cholesky routines *)

Section CholeskyExtras.

Local Open Scope R_scope.

(** X4.  [GivensRotate] on any pair: the matrix it returns is orthogonal,
    [rotated_x] is that matrix applied to the pair, its second entry is
    zero and its first entry has the absolute value of the norm of the
    pair.  The first entry is the norm itself unless the second entry of
    the pair is already zero, in which case the pair is returned as it is,
    also when its first entry is negative. *)
Theorem GivensRotate_orthogonal (x0 x1 : R) :
  let '((r0, r1), (g00, g01, g10, g11)) := GivensRotate x0 x1 in
  (g00 * g00 + g01 * g01 = 1 /\ g10 * g10 + g11 * g11 = 1 /\
   g00 * g10 + g01 * g11 = 0) /\
  (r0 = g00 * x0 + g01 * x1 /\ r1 = g10 * x0 + g11 * x1) /\
  r1 = 0 /\ r0 * r0 = x0 * x0 + x1 * x1 /\
  (x1 <> 0 -> r0 = sqrt (x0 * x0 + x1 * x1) /\ 0 < r0) /\
  (x1 = 0 -> r0 = x0).
Proof.
  destruct (Req_dec x1 0) as [->|Hne].
  - unfold GivensRotate. change (feqb 0 f0) with (Reqb 0 0).
    replace (Reqb 0 0) with true by (symmetry; now apply Reqb_true).
    change (@f0 R Scalar_R) with 0. change (@f1 R Scalar_R) with 1.
    repeat split; try lra.
  - rewrite GivensRotate_pivot by exact Hne.
    set (r := sqrt (x0 * x0 + x1 * x1)).
    assert (Hsum : 0 < x0 * x0 + x1 * x1) by nra.
    assert (Hr : 0 < r) by (apply sqrt_lt_R0; exact Hsum).
    assert (Hrr : r * r = x0 * x0 + x1 * x1) by (apply sqrt_sqrt; lra).
    assert (Hc : x0 / r * (x0 / r) + x1 / r * (x1 / r) = 1).
    { field_simplify_eq; [|lra]. nra. }
    repeat split; try lra.
    all: try (field; lra); try (field_simplify_eq; [nra | lra]).
Qed.

(** X5.  The overload [CholeskyInsert(R, new_x, X)], called with the
    matrix [X] of the active columns, computes the cross products itself
    and returns what the vector overload returns for them; on a factor of
    those columns and a positive radicand the result is the factor of the
    columns followed by [new_x]. *)
Theorem CholeskyInsert_mat_factor (L : @Lars R) (xs cs : list (list R))
  (x : list R)
  (Hf : factor_of (ridge_of L) xs cs)
  (Hrows : forall xi, In xi xs -> length xi = length x)
  (Hrad : forall rad,
      insert_radicand L (Mat (N.of_nat (length cs)) cs) x
        (map (fun xi => dot_raw xi x) xs) = Some rad -> 0 < rad) :
  let Rm := Mat (N.of_nat (length cs)) cs in
  let Xa := Mat (N.of_nat (length x)) xs in
  exists cs',
    CholeskyInsert_mat L Rm x Xa = Some (Mat (N.of_nat (length cs) + 1) cs') /\
    CholeskyInsert_mat L Rm x Xa
    = CholeskyInsert L Rm x (map (fun xi => dot_raw xi x) xs) /\
    factor_of (ridge_of L) (xs ++ [x]) cs'.
Proof.
  intros Rm Xa.
  destruct (@CholeskyInsert_factor L xs cs x Hf) as (rad & Hr & Hins).
  destruct (Hins (Hrad rad Hr)) as (cs' & HCI & _ & Hf').
  exists cs'.
  assert (Heq : CholeskyInsert_mat L Rm x Xa
                = CholeskyInsert L Rm x (map (fun xi => dot_raw xi x) xs)).
  { unfold CholeskyInsert_mat, CholeskyInsert. cbn [n_rows Rm].
    destruct (N.of_nat (length cs) =? 0)%N eqn:E0; [reflexivity|].
    unfold trans_mul. cbn [n_rows mcols Xa]. rewrite N.eqb_refl.
    assert (Hm : mapM (fun c => dot c x) xs
                 = Some (map (fun xi => dot_raw xi x) xs)).
    { clear - Hrows. induction xs as [|a l IH]; [reflexivity|].
      cbn [mapM map]. unfold dot at 1.
      rewrite (Hrows a) by now left. rewrite Nat.eqb_refl.
      rewrite IH by (intros; apply Hrows; now right). reflexivity. }
    rewrite Hm. reflexivity. }
  rewrite Heq. split; [exact HCI|]. split; [reflexivity | exact Hf'].
Qed.

End CholeskyExtras.

Lemma CholeskyInsert_mat_factor_witness :
  exists cs',
    CholeskyInsert_mat ex_unit (Mat 1 [[1%R]]) [0%R; 1%R]
      (Mat 2 [[1%R; 0%R]])
    = Some (Mat 2 cs') /\
    factor_of 0%R [[1%R; 0%R]; [0%R; 1%R]] cs'.
Proof.
  assert (Hf : factor_of (ridge_of ex_unit) [[1%R; 0%R]] [[1%R]]).
  { split; [reflexivity|]. split.
    - intros [|j] c Hc; [|destruct j; discriminate]. injection Hc as <-.
      split; [reflexivity|]. split; [|cbn; lra].
      intros [|i] Hi; [lia|]. destruct i; reflexivity.
    - intros [|i] [|j] ci cj xi xj Hci Hcj Hxi Hxj;
        try (destruct i; discriminate); try (destruct j; discriminate).
      injection Hci as <-. injection Hcj as <-.
      injection Hxi as <-. injection Hxj as <-.
      rewrite !dotR_cons, !dotR_nil_l. cbn [Nat.eqb].
      change (ridge_of ex_unit) with 0%R. lra. }
  destruct (@CholeskyInsert_mat_factor ex_unit [[1%R; 0%R]] [[1%R]]
              [0%R; 1%R] Hf) as (cs' & H1 & _ & H2).
  - intros xi [<-|[]]. reflexivity.
  - intros rad Hrad.
    cbv -[Rplus Rminus Rmult Rdiv Rinv Ropp Rabs sqrt Rltb Rleb Reqb IZR pow]
      in Hrad.
    injection Hrad as <-. lra.
  - exists cs'. split; [exact H1 | exact H2].
Defined.

Section CholeskyDeleteEdge.

Context {F : Type} `{SF : Scalar F}.

(** X6.  [CholeskyDelete(R, col_to_kill)] on a square factor returns
    nothing when the factor has at most one row, since the block
    [span(0, n - 2)] is computed in unsigned arithmetic, and when
    [col_to_kill] is not a column of the factor: the only factor ever
    shrunk is one of at least two columns, at one of its columns. *)
Theorem CholeskyDelete_refused (Rm : @mat F) (k : N)
  (Hsq : n_cols Rm = n_rows Rm)
  (Hu32 : (Z.of_N (n_rows Rm) < u32_modulus)%Z)
  (Hk : (k < 4294967296)%N)
  (Hbad : (n_rows Rm <= 1)%N \/ (n_rows Rm <= k)%N) :
  CholeskyDelete Rm k = None.
Proof.
  unfold CholeskyDelete, u32_decr, wrap32, u32_modulus in *.
  destruct (N.eqb_spec k
              (Z.to_N ((Z.of_N (n_rows Rm) - 1) mod 4294967296))) as [E|E].
  - unfold leading_block.
    assert (Hge : (n_rows Rm <= Z.to_N ((Z.of_N (n_rows Rm) - 2) mod 4294967296))%N).
    { destruct Hbad as [H1|Hk'].
      - destruct (N.eq_dec (n_rows Rm) 0) as [H0|H0].
        + rewrite H0. vm_compute. discriminate.
        + assert (H1' : n_rows Rm = 1%N) by lia. rewrite H1'.
          vm_compute. discriminate.
      - destruct (N.eq_dec (n_rows Rm) 0) as [H0|H0].
        + rewrite H0. vm_compute. discriminate.
        + rewrite Z.mod_small in E by lia. lia. }
    destruct (N.ltb_spec (Z.to_N ((Z.of_N (n_rows Rm) - 2) mod 4294967296))
                (n_rows Rm)); [lia | reflexivity].
  - unfold shed_col. rewrite Hsq.
    destruct (N.ltb_spec k (n_rows Rm)) as [Hlt|]; [|reflexivity].
    exfalso. destruct Hbad as [H1|Hk']; [|lia].
    assert (H1' : n_rows Rm = 1%N /\ k = 0%N) by lia.
    destruct H1' as [Hr ->]. rewrite Hr in E. apply E. reflexivity.
Qed.

End CholeskyDeleteEdge.

Lemma CholeskyDelete_refused_witness :
  CholeskyDelete ex_R5 0 = None.
Proof.
  apply CholeskyDelete_refused;
    [reflexivity | reflexivity | reflexivity | left; discriminate].
Defined.

(** ** The start of a run *)

Section RunFirstLambda.

Local Open Scope R_scope.

Lemma max_scan (v : list R) (s : nat) (b : R) (i : N) :
  let r := fold_left
             (fun (best : R * N) (ix : N * R) =>
                if fltb (fst best) (snd ix) then (snd ix, fst ix) else best)
             (combine (map N.of_nat (seq s (length v))) v) (b, i) in
  b <= fst r /\ (forall x, In x v -> x <= fst r) /\
  ((r = (b, i) /\ forall x, In x v -> x <= b) \/
   exists k, (k < length v)%nat /\ snd r = N.of_nat (s + k) /\
             nth k v 0 = fst r /\ b < fst r /\
             forall j, (j < k)%nat -> nth j v 0 < fst r).
Proof.
  revert s b i. induction v as [|x v IH]; intros s b i; cbn zeta.
  - cbn. split; [lra|]. split; [intros x []|]. left. split; [reflexivity|].
    intros x [].
  - cbn [length seq map combine fold_left fst snd].
    change (fltb b x) with (Rltb b x).
    destruct (Rltb b x) eqn:Hbx.
    + apply Rltb_true in Hbx.
      specialize (IH (S s) x (N.of_nat s)). cbn zeta in IH.
      destruct IH as (H1 & H2 & H3).
      split; [lra|]. split.
      * intros y [<-|Hy]; [exact H1 | now apply H2].
      * right. destruct H3 as [[Hr Hall]|(k & Hk & Hs & Hn & Hlt & Hfirst)].
        -- exists 0%nat. rewrite Hr. cbn [fst snd nth length].
           split; [lia|]. split; [f_equal; lia|]. split; [reflexivity|].
           split; [exact Hbx|]. intros j Hj. lia.
        -- exists (S k). cbn [nth length]. split; [lia|].
           split; [rewrite Hs; f_equal; lia|]. split; [exact Hn|].
           split; [lra|]. intros [|j] Hj; [exact Hlt|]. apply Hfirst. lia.
    + apply Rltb_false in Hbx.
      specialize (IH (S s) b i). cbn zeta in IH.
      destruct IH as (H1 & H2 & H3).
      split; [exact H1|]. split.
      * intros y [<-|Hy]; [lra | now apply H2].
      * destruct H3 as [[Hr Hall]|(k & Hk & Hs & Hn & Hlt & Hfirst)].
        -- left. split; [exact Hr|]. intros y [<-|Hy]; [exact Hbx | now apply Hall].
        -- right. exists (S k). cbn [nth length]. split; [lia|].
           split; [rewrite Hs; f_equal; lia|]. split; [exact Hn|].
           split; [exact Hlt|]. intros [|j] Hj; [lra|]. apply Hfirst. lia.
Qed.

Lemma DoLARS_begin_max (L : @Lars R) :
  (Xty_ L = [] -> DoLARS_begin L = None) /\
  (Xty_ L <> [] ->
   exists s0,
     DoLARS_begin L = Some s0 /\
     (N.to_nat (change_ind s0) < length (Xty_ L))%nat /\
     max_corr s0 = Rabs (nth (N.to_nat (change_ind s0)) (Xty_ L) 0) /\
     (forall x, In x (Xty_ L) -> Rabs x <= max_corr s0) /\
     (forall j, (j < N.to_nat (change_ind s0))%nat ->
                Rabs (nth j (Xty_ L) 0) < max_corr s0) /\
     lambda_path_ (obj s0) = lambda_path_ L ++ [max_corr s0] /\
     beta_path_ (obj s0) = beta_path_ L ++ [zeros (p_ L)] /\
     beta s0 = zeros (p_ L) /\ kick_out s0 = false /\ Rfac s0 = empty_mat).
Proof.
  split.
  - intros E. unfold DoLARS_begin.
    destruct (elastic_net_ L); cbn [Xty_ set_lambda_2]; rewrite E; reflexivity.
  - intros Hne.
    assert (Hmax : exists m k,
               max_index (map fabs (Xty_ L)) = Some (m, k) /\
               (N.to_nat k < length (Xty_ L))%nat /\
               m = Rabs (nth (N.to_nat k) (Xty_ L) 0) /\
               (forall x, In x (Xty_ L) -> Rabs x <= m) /\
               (forall j, (j < N.to_nat k)%nat -> Rabs (nth j (Xty_ L) 0) < m)).
    { unfold max_index.
      destruct (map fabs (Xty_ L)) as [|a0 l0] eqn:Ev;
        [destruct (Xty_ L); [now contradiction Hne | discriminate]|].
      rewrite <- Ev. clear a0 l0 Ev.
      pose proof (max_scan (map Rabs (Xty_ L)) 0 (@most_neg R Scalar_R) 0%N)
        as Hs. cbn zeta in Hs. unfold upto. rewrite Nat2N.id.
      change (@fabs R Scalar_R) with Rabs.
      set (r := fold_left _ _ _) in *.
      destruct Hs as (Hb & Hall & Hcase). destruct r as [m k].
      cbn [fst snd] in *. exists m, k. split; [reflexivity|].
      assert (Hneg : @most_neg R Scalar_R < 0).
      { change (@most_neg R Scalar_R) with (- IZR (2 ^ 1024 - 2 ^ 971)).
        apply Ropp_lt_gt_0_contravar. apply IZR_lt. reflexivity. }
      destruct Hcase as [[Hr Hle]|(q & Hq & Hk & Hn & Hlt & Hfirst)].
      - exfalso. destruct (Xty_ L) as [|x l]; [now apply Hne|].
        specialize (Hle (Rabs x) (or_introl eq_refl)).
        pose proof (Rabs_pos x). lra.
      - rewrite length_map in Hq. cbn [Nat.add] in Hk. subst k.
        rewrite Nat2N.id. split; [exact Hq|]. split.
        + rewrite <- Hn. rewrite <- Rabs_R0 at 1. now rewrite map_nth.
        + split.
          * intros x Hx. apply Hall. now apply in_map.
          * intros j Hj. specialize (Hfirst j Hj).
            rewrite <- Rabs_R0 in Hfirst at 1. now rewrite map_nth in Hfirst. }
    destruct Hmax as (m & k & Hmi & Hk & Hm & Hall & Hfirst).
    unfold DoLARS_begin.
    destruct (elastic_net_ L);
      cbn [Xty_ set_lambda_2 beta_path_ lambda_path_ p_ n_];
      rewrite Hmi; cbn [fst snd]; eexists; (split; [reflexivity|]);
      cbn [change_ind max_corr obj beta kick_out Rfac lambda_path_ beta_path_
           set_paths set_lambda_2 p_]; repeat split; auto.
Qed.

(** X7.  In exact arithmetic [DoLARS] starts from the largest absolute
    value of [Xty_] and the first index that holds it: this value is the
    entry appended to the regularisation path and the index is the first
    variable to be activated; the zero vector is appended to the
    coefficient path and the factor is empty.  On a dataset without
    columns [Xty_] is empty, the maximum is refused and nothing is
    returned.  In binary64 the start value need not bound the entries:
    the search skips an entry that is not a number, and with the single
    entry NaN the run starts from minus infinity. *)
Theorem DoLARS_begin_first_lambda (L : @Lars R) :
  ((Xty_ L = [] -> DoLARS_begin L = None) /\
   (Xty_ L <> [] ->
    exists s0,
      DoLARS_begin L = Some s0 /\
      (N.to_nat (change_ind s0) < length (Xty_ L))%nat /\
      max_corr s0 = Rabs (nth (N.to_nat (change_ind s0)) (Xty_ L) 0) /\
      (forall x, In x (Xty_ L) -> Rabs x <= max_corr s0) /\
      (forall j, (j < N.to_nat (change_ind s0))%nat ->
                 Rabs (nth j (Xty_ L) 0) < max_corr s0) /\
      lambda_path_ (obj s0) = lambda_path_ L ++ [max_corr s0] /\
      beta_path_ (obj s0) = beta_path_ L ++ [zeros (p_ L)] /\
      beta s0 = zeros (p_ L) /\ kick_out s0 = false /\
      Rfac s0 = empty_mat)) /\
  (Init3 (Lars_new ex_raw) ex_X1 [PrimFloat.nan] false = Some ex_nan /\
   Xty_ ex_nan = [PrimFloat.nan] /\
   exists s0,
     DoLARS_begin ex_nan = Some s0 /\
     max_corr s0 = PrimFloat.neg_infinity /\ change_ind s0 = 0%N /\
     lambda_path_ (obj s0) = [PrimFloat.neg_infinity]).
Proof.
  split; [exact (DoLARS_begin_max L)|].
  split; [vm_compute; reflexivity|]. split; [vm_compute; reflexivity|].
  eexists. split; [vm_compute; reflexivity|].
  repeat split; vm_compute; reflexivity.
Qed.

End RunFirstLambda.

(** ** The direction in output space and the coefficient update *)

Section DirectionAndUpdate.

Context {F : Type} `{SF : Scalar F}.

Lemma foldM_app {A S : Type} (f : S -> A -> option S) (l l' : list A) (s : S) :
  foldM f (l ++ l') s = s1 <- foldM f l s ;; foldM f l' s1.
Proof.
  revert s. induction l as [|a l IH]; intros s; simpl; [reflexivity|].
  destruct (f s a); [apply IH | reflexivity].
Qed.

Lemma combine_snoc {A B : Type} (u : list A) (v : list B) (a : A) (b : B) :
  length u = length v ->
  combine (u ++ [a]) (v ++ [b]) = combine u v ++ [(a, b)].
Proof.
  revert v. induction u as [|x u IH]; intros [|y v] Hl; simpl in *;
    try discriminate; [reflexivity|].
  f_equal. apply IH. lia.
Qed.

Lemma nth_error_combine {A B : Type} (u : list A) (v : list B) (r : nat)
  (a : A) (b : B) :
  nth_error u r = Some a -> nth_error v r = Some b ->
  nth_error (combine u v) r = Some (a, b).
Proof.
  revert u v. induction r as [|r IH]; intros [|x u] [|y v] Ha Hb;
    simpl in *; try discriminate.
  - now inversion Ha; inversion Hb.
  - now apply IH.
Qed.

Lemma dot_raw_snoc (u v : @vec F) (a b : F) :
  length u = length v ->
  dot_raw (u ++ [a]) (v ++ [b]) = fadd (dot_raw u v) (fmul a b).
Proof.
  intros Hl. unfold dot_raw.
  rewrite combine_snoc by exact Hl. rewrite fold_left_app. reflexivity.
Qed.

Lemma dot_raw_firstn (u v : @vec F) :
  (length v <= length u)%nat ->
  dot_raw (firstn (length v) u) v = dot_raw u v.
Proof.
  intros Hl. unfold dot_raw. f_equal.
  revert v Hl. induction u as [|a u IH]; intros [|b v] Hl; simpl in *;
    try reflexivity; try lia.
  f_equal. apply IH. lia.
Qed.

Lemma firstn_snoc_nth_error {A : Type} (l : list A) (n : nat) (x : A) :
  nth_error l n = Some x -> firstn (S n) l = firstn n l ++ [x].
Proof.
  revert n. induction l as [|a l IH]; intros [|n] H; simpl in *;
    try discriminate.
  - now inversion H.
  - now rewrite (IH n H).
Qed.

(** X8.  [ComputeYHatDirection] returns the product of the active columns
    with [beta_direction]: entry [r] of the result is the sum, in the order
    of the active set, of [beta_direction(i) * X(r, active_set_[i])].  What
    [y_hat_direction] held before the call is overwritten; only its length
    is used. *)
Theorem ComputeYHatDirection_product (L : @Lars F) (bd yhd0 : @vec F)
  (xs : list (@vec F))
  (Hn : n_active_ L = N.of_nat (length (active_set_ L)))
  (Hxs : mapM (fun a => col (X_ L) a) (active_set_ L) = Some xs)
  (Hrows : forall x, In x xs -> length x = length yhd0)
  (Hbd : (length (active_set_ L) <= length bd)%nat) :
  exists out,
    ComputeYHatDirection L bd yhd0 = Some out /\
    length out = length yhd0 /\
    forall r, (r < length yhd0)%nat ->
      nth_error out r = Some (dot_raw bd (map (fun c => nth r c f0) xs)).
Proof.
  assert (Hlx : length xs = length (active_set_ L))
    by (now apply mapM_length in Hxs).
  assert (Hstep : forall n, (n <= length (active_set_ L))%nat ->
            exists out,
              foldM (fun yhd i =>
                  b <- lookupN bd i ;;
                  a <- lookupN (active_set_ L) i ;;
                  c <- col (X_ L) a ;;
                  vzip fadd yhd (map (fmul b) c))
                (map N.of_nat (seq 0 n)) (map (fun _ => f0) yhd0) = Some out /\
              length out = length yhd0 /\
              forall r, (r < length yhd0)%nat ->
                nth_error out r =
                Some (dot_raw (firstn n bd)
                        (map (fun c => nth r c f0) (firstn n xs)))).
  { induction n as [|n IH]; intros Hle.
    - eexists. split; [reflexivity|]. split; [now rewrite length_map|].
      intros r Hr. rewrite nth_error_map.
      destruct (nth_error yhd0 r) eqn:E; [reflexivity|].
      apply nth_error_None in E. lia.
    - destruct IH as (out & Hf & Hl & Hrow); [lia|].
      rewrite seq_S, map_app, foldM_app, Hf. cbn [Nat.add map foldM].
      destruct (nth_error bd n) as [b|] eqn:Eb;
        [|apply nth_error_None in Eb; lia].
      destruct (nth_error (active_set_ L) n) as [a|] eqn:Ea;
        [|apply nth_error_None in Ea; lia].
      destruct (mapM_lookup _ _ _ Hxs Ea) as (c & Hc & Hxc).
      rewrite !lookupN_of_nat, Eb, Ea, Hc.
      assert (Hlc : length c = length yhd0)
        by (apply Hrows; eapply nth_error_In; eauto).
      rewrite vzip_same_length by (rewrite length_map; congruence).
      eexists. split; [reflexivity|]. split.
      + rewrite length_map, length_combine, length_map. lia.
      + intros r Hr. rewrite nth_error_map.
        assert (Hrc : (r < length c)%nat) by (rewrite Hlc; exact Hr).
        rewrite (nth_error_combine out (map (fmul b) c) r (Hrow r Hr)
                   (map_nth_error (fmul b) r c (nth_error_nth' c f0 Hrc))).
        cbn [option_map fst snd].
        rewrite (firstn_snoc_nth_error _ _ Eb), (firstn_snoc_nth_error _ _ Hxc).
        rewrite map_app. cbn [map]. rewrite dot_raw_snoc; [reflexivity|].
        assert (Hnb : (n <= length bd)%nat) by lia.
        assert (Hnx : (n <= length xs)%nat)
          by (rewrite Hlx; apply Nat.lt_le_incl; exact Hle).
        rewrite length_map, (firstn_length_le _ Hnb), (firstn_length_le _ Hnx).
        reflexivity. }
  destruct (Hstep (length (active_set_ L)) (le_n _)) as (out & Hf & Hl & Hrow).
  exists out. unfold ComputeYHatDirection, upto. rewrite Hn, Nat2N.id.
  split; [exact Hf|]. split; [exact Hl|].
  intros r Hr. rewrite (Hrow r Hr). f_equal.
  rewrite <- Hlx, firstn_all.
  rewrite <- (length_map (fun c => nth r c f0) xs) at 1.
  apply dot_raw_firstn. rewrite length_map. unfold vec in *. lia.
Qed.


(** X9.  [beta(active_set_[i]) += gamma * beta_direction(i)], on a
    well-formed active set with one direction entry per active position
    and a coefficient vector of length [p_]: the update goes through, the
    coefficient of the variable at active position [k] becomes
    [beta + gamma * beta_direction(k)], and the coefficient of every
    variable outside the active set is left as it is. *)
Theorem update_beta_total (L : @Lars F) (beta bd : @vec F) (g : F)
  (Hwf : wf_active L)
  (Hbeta : length beta = N.to_nat (p_ L))
  (Hbd : (length (active_set_ L) <= length bd)%nat) :
  exists beta',
    update_beta L beta bd g = Some beta' /\
    length beta' = length beta /\
    (forall k a, nth_error (active_set_ L) k = Some a ->
       exists d b, nth_error bd k = Some d /\ lookupN beta a = Some b /\
                   lookupN beta' a = Some (fadd b (fmul g d))) /\
    (forall j, ~ In j (active_set_ L) -> lookupN beta' j = lookupN beta j).
Proof.
  assert (Hex : exists beta', update_beta L beta bd g = Some beta').
  { destruct Hwf as (Hn & Hlen & Hp & Hle & Hnd & Hmem).
    unfold update_beta, upto. rewrite Hn, Nat2N.id.
    assert (Hgen : forall l b0,
              length b0 = length beta ->
              (forall i, In i l -> (N.to_nat i < length (active_set_ L))%nat) ->
              exists b1,
                foldM (fun beta i =>
                    a <- lookupN (active_set_ L) i ;;
                    d <- lookupN bd i ;;
                    b <- lookupN beta a ;;
                    updateN beta a (fadd b (fmul g d))) l b0 = Some b1).
    { induction l as [|i l IH]; intros b0 Hb0 Hl; [now exists b0|].
      cbn [foldM].
      assert (Hi : (N.to_nat i < length (active_set_ L))%nat)
        by (apply Hl; now left).
      rewrite !lookupN_nth_error.
      destruct (nth_error (active_set_ L) (N.to_nat i)) as [a|] eqn:Ea;
        [|apply nth_error_None in Ea; lia].
      destruct (nth_error bd (N.to_nat i)) as [d|] eqn:Ed;
        [|apply nth_error_None in Ed; lia].
      assert (Ha : (N.to_nat a < length b0)%nat).
      { assert (Hin : In a (active_set_ L)) by (eapply nth_error_In; eauto).
        apply Hmem in Hin. apply lookupN_Some_lt in Hin. lia. }
      rewrite lookupN_nth_error.
      destruct (nth_error b0 (N.to_nat a)) as [b|] eqn:Eb;
        [|apply nth_error_None in Eb; lia].
      assert (Hu : updateN b0 a (fadd b (fmul g d))
                   = Some (set_nth b0 (N.to_nat a) (fadd b (fmul g d)))).
      { unfold updateN.
        destruct (N.ltb_spec a (N.of_nat (length b0))); [reflexivity | lia]. }
      rewrite Hu.
      apply IH; [now rewrite set_nth_length | intros; apply Hl; now right]. }
    apply Hgen; [reflexivity|].
    intros i Hi. apply in_map_iff in Hi. destruct Hi as (k & <- & Hk).
    apply in_seq in Hk. lia. }
  destruct Hex as [beta' Hup]. exists beta'. split; [exact Hup|].
  destruct (@update_beta_spec F SF L beta beta' bd g Hwf Hup)
    as (Hl & Hin & Hout).
  split; [exact Hl|]. split; [|exact Hout].
  intros k a Hk. destruct (Hin k a Hk) as (d & b & Hd & Hb & Hb').
  rewrite lookupN_of_nat in Hd. eauto.
Qed.

End DirectionAndUpdate.

Lemma ComputeYHatDirection_product_witness :
  exists out,
    ComputeYHatDirection (obj ex_sparse_s2) [1; 2]%float [5; 5; 5]%float
    = Some out /\
    nth_error out 0
    = Some (dot_raw [1; 2]%float [(-3)%float; 0%float]).
Proof.
  destruct (@ComputeYHatDirection_product float _ (obj ex_sparse_s2)
              [1; 2]%float [5; 5; 5]%float
              [[-3; -2; 3]; [0; 1; -1]]%float eq_refl eq_refl)
    as (out & H1 & _ & H2).
  - intros x [<-|[<-|[]]]; reflexivity.
  - cbn. lia.
  - exists out. split; [exact H1|]. apply (H2 0%nat). cbn. lia.
Defined.

Lemma update_beta_total_witness :
  exists beta',
    update_beta ex_active1 [1%float] [(-49)%float] 2%float = Some beta' /\
    length beta' = 1%nat.
Proof.
  destruct (@update_beta_total float _ ex_active1 [1%float] [(-49)%float]
              2%float) as (beta' & H1 & H2 & _).
  - split; [reflexivity|]. split; [reflexivity|]. split; [reflexivity|].
    split; [discriminate|]. split; [repeat constructor; intros []|].
    intros a. split.
    + intros [<-|[]]. reflexivity.
    + intros Hl. rewrite lookupN_nth_error in Hl.
      destruct (N.to_nat a) as [|k] eqn:Ea; [left; lia|].
      destruct k; discriminate.
  - reflexivity.
  - cbn. lia.
  - exists beta'. split; [exact H1 | exact H2].
Defined.

(** ** Fields a run does not read *)

Section UnreadFields.

Context {F : Type} `{SF : Scalar F}.

Variable solve : @mat F -> @vec F -> option (@vec F).

Variables (y' : @vec F) (d : F).

Lemma top_phase_touch (s : @LoopState F) :
  top_phase (map_obj (touch y' d) s)
  = option_map (map_obj (touch y' d)) (top_phase s).
Proof.
  destruct s as [L b yh yhd ko c mc ci R].
  unfold top_phase, map_obj.
  cbn [obj beta y_hat y_hat_direction kick_out corr max_corr change_ind Rfac].
  change (use_cholesky_ (touch y' d L)) with (use_cholesky_ L).
  change (X_ (touch y' d L)) with (X_ L).
  change (new_Gram_col_of (touch y' d L) ci) with (new_Gram_col_of L ci).
  destruct ko.
  - destruct (if use_cholesky_ L then CholeskyDelete R ci else Some R);
      [|reflexivity].
    unfold Deactivate.
    change (active_set_ (touch y' d L)) with (active_set_ L).
    change (is_active_ (touch y' d L)) with (is_active_ L).
    destruct (lookupN (active_set_ L) ci); [|reflexivity].
    destruct (updateN (is_active_ L) n false); reflexivity.
  - assert (E : forall cx g,
               CholeskyInsert (touch y' d L) R cx g = CholeskyInsert L R cx g)
      by reflexivity.
    destruct (use_cholesky_ L).
    + destruct (new_Gram_col_of L ci); [|reflexivity].
      destruct (col (X_ L) ci); [|reflexivity].
      rewrite E. destruct (CholeskyInsert L R v0 v); [|reflexivity].
      unfold Activate.
      change (is_active_ (touch y' d L)) with (is_active_ L).
      destruct (updateN (is_active_ L) ci true); reflexivity.
    + unfold Activate.
      change (is_active_ (touch y' d L)) with (is_active_ L).
      destruct (updateN (is_active_ L) ci true); reflexivity.
Qed.

Lemma InterpolateBeta_touch (L : @Lars F) (u : F) :
  InterpolateBeta (touch y' (desired_lambda_ L) L) u
  = option_map (touch y' (desired_lambda_ L)) (InterpolateBeta L u).
Proof.
  unfold InterpolateBeta.
  change (beta_path_ (touch y' (desired_lambda_ L) L)) with (beta_path_ L).
  change (lambda_path_ (touch y' (desired_lambda_ L) L)) with (lambda_path_ L).
  change (desired_lambda_ (touch y' (desired_lambda_ L) L))
    with (desired_lambda_ L).
  repeat match goal with
  | |- match ?e with Some _ => _ | None => None end = _ =>
      destruct e; [|reflexivity]
  end.
  reflexivity.
Qed.

Lemma rest_phase_touch (s : @LoopState F) :
  lasso_ (obj s) = false \/ d = desired_lambda_ (obj s) ->
  rest_phase solve (map_obj (touch y' d) s)
  = option_map (fun sb => (map_obj (touch y' d) (fst sb), snd sb))
      (rest_phase solve s).
Proof.
  destruct s as [L b yh yhd ko c mc ci R]. intros Hd.
  unfold rest_phase, map_obj.
  cbn [obj beta y_hat y_hat_direction kick_out corr max_corr change_ind Rfac]
    in *.
  change (signs (touch y' d L) c) with (signs L c).
  destruct (signs L c) as [sg|]; [|reflexivity].
  change (direction solve (touch y' d L) R sg) with (direction solve L R sg).
  destruct (direction solve L R sg) as [[bd nrm]|]; [|reflexivity].
  cbn [fst snd].
  change (ComputeYHatDirection (touch y' d L) bd yhd)
    with (ComputeYHatDirection L bd yhd).
  destruct (ComputeYHatDirection L bd yhd) as [yhd1|]; [|reflexivity].
  match goal with
  | |- context [inactive_scan (touch y' d L) ?a1 ?a2 ?a3 ?a4 ?a5] =>
      change (inactive_scan (touch y' d L) a1 a2 a3 a4 a5)
        with (inactive_scan L a1 a2 a3 a4 a5);
      destruct (inactive_scan L a1 a2 a3 a4 a5) as [gc|]; [|reflexivity]
  end.
  change (lasso_bound (touch y' d L) b bd ko gc) with (lasso_bound L b bd ko gc).
  destruct (lasso_bound L b bd ko gc) as [[ko1 [gamma ci1]]|]; [|reflexivity].
  cbn [fst snd].
  destruct (vzip fadd yh (map (fmul gamma) yhd1)) as [yh1|]; [|reflexivity].
  change (update_beta (touch y' d L) b bd gamma) with (update_beta L b bd gamma).
  destruct (update_beta L b bd gamma) as [b1|]; [|reflexivity].
  cbn [X_ Xty_ lasso_ desired_lambda_ beta_path_ lambda_path_ set_paths touch].
  destruct (trans_mul (X_ L) yh1) as [xt|]; [|reflexivity].
  destruct (vzip fsub (Xty_ L) xt) as [c1|]; [|reflexivity].
  destruct Hd as [Hl|Hd].
  - rewrite Hl. cbn [andb option_map fst snd]. reflexivity.
  - rewrite Hd.
    destruct (lasso_ L && fleb (fsub mc (fmul gamma nrm)) (desired_lambda_ L));
      [|reflexivity].
    match goal with
    | |- match InterpolateBeta ?A ?u with _ => _ end
         = option_map _ (match InterpolateBeta ?B ?u with _ => _ end) =>
        change A with (touch y' (desired_lambda_ B) B);
        rewrite (InterpolateBeta_touch B u);
        destruct (InterpolateBeta B u); reflexivity
    end.
Qed.


Lemma body_touch (s : @LoopState F) :
  lasso_ (obj s) = false \/ d = desired_lambda_ (obj s) ->
  body solve (map_obj (touch y' d) s)
  = option_map (fun sb => (map_obj (touch y' d) (fst sb), snd sb))
      (body solve s).
Proof.
  intros Hd. unfold body. rewrite top_phase_touch.
  destruct (top_phase s) as [s1|] eqn:Etop; [|reflexivity].
  cbn [option_map]. apply rest_phase_touch.
  destruct (top_phase_frame _ Etop) as (Hsd & _).
  destruct Hsd as (_ & _ & _ & _ & _ & _ & _ & Hl & Hdl & _).
  rewrite Hl, Hdl. exact Hd.
Qed.

Lemma main_loop_touch (fuel : nat) (s : @LoopState F) :
  lasso_ (obj s) = false \/ d = desired_lambda_ (obj s) ->
  main_loop solve fuel (map_obj (touch y' d) s)
  = map_outcome (touch y' d) (main_loop solve fuel s).
Proof.
  revert s. induction fuel as [|fuel IH]; intros s Hd; cbn [main_loop];
    change (loop_cond (map_obj (touch y' d) s)) with (loop_cond s);
    destruct (loop_cond s); try reflexivity.
  rewrite (body_touch _ Hd).
  destruct (body solve s) as [[s1 brk]|] eqn:Eb; [|reflexivity].
  cbn [option_map fst snd]. destruct brk; [reflexivity|].
  apply IH. unfold body in Eb.
  destruct (top_phase s) as [s0|] eqn:Etop; [|discriminate].
  destruct (top_phase_frame _ Etop) as (Hsd0 & _).
  destruct (rest_phase_frame _ _ Eb) as (Hsd1 & _).
  destruct Hsd0 as (_ & _ & _ & _ & _ & _ & _ & Hl0 & Hd0 & _).
  destruct Hsd1 as (_ & _ & _ & _ & _ & _ & _ & Hl1 & Hd1 & _).
  rewrite Hl1, Hd1, Hl0, Hd0. exact Hd.
Qed.

Lemma DoLARS_touch (fuel : nat) (L : @Lars F) :
  lasso_ L = false \/ d = desired_lambda_ L ->
  DoLARS solve fuel (touch y' d L)
  = map_outcome (touch y' d) (DoLARS solve fuel L).
Proof.
  intros Hd. unfold DoLARS.
  assert (Hb : DoLARS_begin (touch y' d L)
               = option_map (map_obj (touch y' d)) (DoLARS_begin L)).
  { unfold DoLARS_begin.
    change (elastic_net_ (touch y' d L)) with (elastic_net_ L).
    destruct (elastic_net_ L);
      cbn [Xty_ touch set_lambda_2];
      destruct (max_index (map fabs (Xty_ L))); reflexivity. }
  rewrite Hb. destruct (DoLARS_begin L) as [s0|] eqn:E0; [|reflexivity].
  cbn [option_map]. apply main_loop_touch.
  destruct (DoLARS_begin_spec _ E0) as (_ & _ & _ & _ & _ & _ & _ & _ & Hl & _).
  assert (Hdl : desired_lambda_ (obj s0) = desired_lambda_ L).
  { unfold DoLARS_begin in E0.
    destruct (elastic_net_ L); cbn [Xty_ set_lambda_2] in E0;
      destruct (max_index (map fabs (Xty_ L))); inversion E0; reflexivity. }
  rewrite Hl, Hdl. exact Hd.
Qed.

End UnreadFields.

Section UnreadFieldsTheorems.

Context {F : Type} `{SF : Scalar F}.

Variable solve : @mat F -> @vec F -> option (@vec F).

Lemma body_same_data (s s' : @LoopState F) (brk : bool) :
  body solve s = Some (s', brk) -> same_data (obj s) (obj s').
Proof.
  unfold body. intros Eb.
  destruct (top_phase s) as [s1|] eqn:Etop; [|discriminate].
  destruct (top_phase_frame _ Etop) as (Hsd0 & _).
  destruct (rest_phase_frame _ _ Eb) as (Hsd1 & _).
  eapply same_data_trans; eauto.
Qed.

Lemma main_loop_same_data (fuel : nat) (s s' : @LoopState F) :
  main_loop solve fuel s = Finished s' -> same_data (obj s) (obj s').
Proof.
  revert s. induction fuel as [|n IH]; intros s Hs; cbn [main_loop] in Hs;
    destruct (loop_cond s); try discriminate;
    try (inversion Hs; subst; apply same_data_refl).
  destruct (body solve s) as [[s1 brk]|] eqn:Eb; [|discriminate].
  apply body_same_data in Eb. destruct brk.
  - inversion Hs; subst. exact Eb.
  - eapply same_data_trans; [exact Eb | now apply IH].
Qed.

Lemma DoLARS_begin_same_data (L : @Lars F) (s0 : @LoopState F) :
  DoLARS_begin L = Some s0 ->
  same_data (if elastic_net_ L then L else set_lambda_2 L (fopp f1)) (obj s0).
Proof.
  unfold DoLARS_begin.
  destruct (elastic_net_ L); cbn [Xty_ set_lambda_2];
    destruct (max_index (map fabs (Xty_ L))); intros E; inversion E;
    unfold same_data; cbn; tauto.
Qed.

(** X10.  [DoLARS] never reads [y_]: a run after [SetY(y)] is the run
    without it, step for step, and returns the same paths and the same
    state but for the field [y_].  The correlations come from [Xty_], which
    [SetY] does not recompute. *)
Theorem SetY_not_read_by_DoLARS (fuel : nat) (L : @Lars F) (y : @vec F) :
  DoLARS solve fuel (SetY L y)
  = map_outcome (fun L0 => SetY L0 y) (DoLARS solve fuel L) /\
  (forall s, DoLARS solve fuel L = Finished s ->
     exists s', DoLARS solve fuel (SetY L y) = Finished s' /\
                beta_path_ (obj s') = beta_path_ (obj s) /\
                lambda_path_ (obj s') = lambda_path_ (obj s) /\
                active_set_ (obj s') = active_set_ (obj s) /\
                beta s' = beta s /\ y_ (obj s') = y).
Proof.
  assert (HT : forall L0 : @Lars F,
            desired_lambda_ L0 = desired_lambda_ L ->
            SetY L0 y = touch y (desired_lambda_ L) L0).
  { intros L0 E. unfold SetY, set_y, touch. now rewrite E. }
  assert (Hrun : DoLARS solve fuel (SetY L y)
                 = map_outcome (touch y (desired_lambda_ L))
                     (DoLARS solve fuel L)).
  { rewrite (HT L eq_refl). apply DoLARS_touch. now right. }
  assert (Hsame : forall s, DoLARS solve fuel L = Finished s ->
                    desired_lambda_ (obj s) = desired_lambda_ L).
  { intros s Hs. unfold DoLARS in Hs.
    destruct (DoLARS_begin L) as [s0|] eqn:E0; [|discriminate].
    apply DoLARS_begin_same_data in E0. apply main_loop_same_data in Hs.
    destruct (same_data_trans E0 Hs) as (_ & _ & _ & _ & _ & _ & _ & _ & H & _).
    rewrite H. now destruct (elastic_net_ L). }
  split.
  - rewrite Hrun. destruct (DoLARS solve fuel L) as [s| |] eqn:E;
      try reflexivity.
    cbn [map_outcome]. unfold map_obj. now rewrite (HT _ (Hsame s eq_refl)).
  - intros s Hs. rewrite Hrun, Hs. cbn [map_outcome].
    eexists. split; [reflexivity|]. cbn. tauto.
Qed.

(** X11.  Outside LASSO mode the argument of [DoLARS(desired_lambda)] has
    no effect on the run: [SetDesiredLambda] stores it and does not turn
    LASSO mode on, and the loop reads [desired_lambda_] only when [lasso_]
    is set.  The run is the run of [DoLARS()], with the same paths. *)
Theorem DoLARS_lambda_ignored_outside_lasso (fuel : nat) (L : @Lars F)
  (desired_lambda : F)
  (Hlasso : lasso_ L = false) :
  DoLARS_lambda solve fuel L desired_lambda
  = map_outcome (touch (y_ L) desired_lambda) (DoLARS solve fuel L) /\
  (forall s, DoLARS solve fuel L = Finished s ->
     exists s', DoLARS_lambda solve fuel L desired_lambda = Finished s' /\
                beta_path_ (obj s') = beta_path_ (obj s) /\
                lambda_path_ (obj s') = lambda_path_ (obj s) /\
                active_set_ (obj s') = active_set_ (obj s) /\
                beta s' = beta s /\ lasso_ (obj s') = false).
Proof.
  assert (Hrun : DoLARS_lambda solve fuel L desired_lambda
                 = map_outcome (touch (y_ L) desired_lambda)
                     (DoLARS solve fuel L)).
  { unfold DoLARS_lambda.
    change (SetDesiredLambda L desired_lambda)
      with (touch (y_ L) desired_lambda L).
    apply DoLARS_touch. now left. }
  split; [exact Hrun|].
  intros s Hs. rewrite Hrun, Hs. cbn [map_outcome].
  eexists. split; [reflexivity|]. cbn.
  repeat split.
  unfold DoLARS in Hs.
  destruct (DoLARS_begin L) as [s0|] eqn:E0; [|discriminate].
  apply DoLARS_begin_same_data in E0. apply main_loop_same_data in Hs.
  destruct (same_data_trans E0 Hs) as (_ & _ & _ & _ & _ & _ & _ & H & _).
  rewrite H, <- Hlasso. now destruct (elastic_net_ L).
Qed.

End UnreadFieldsTheorems.

Lemma DoLARS_lambda_ignored_outside_lasso_witness :
  exists s',
    DoLARS_lambda example_solve 10 ex_fresh 7%float = Finished s' /\
    beta_path_ (obj s') = beta_path_ (obj ex_first_run) /\
    lambda_path_ (obj s') = lambda_path_ (obj ex_first_run).
Proof.
  assert (Hrun : DoLARS example_solve 10 ex_fresh = Finished ex_first_run)
    by (vm_compute; reflexivity).
  destruct (proj2 (@DoLARS_lambda_ignored_outside_lasso float _ example_solve
                     10 ex_fresh 7%float eq_refl) _ Hrun)
    as (s' & H1 & H2 & H3 & _).
  exists s'. auto.
Defined.

(** ** What the member functions leave alone *)

Section Frames.

Context {F : Type} `{SF : Scalar F}.

Variable solve : @mat F -> @vec F -> option (@vec F).

Lemma UpdateX_frame (L L' : @Lars F) (col_inds : list Z) (new_cols : @mat F) :
  UpdateX L col_inds new_cols = Some L' ->
  y_ L' = y_ L /\ n_ L' = n_ L /\ p_ L' = p_ L /\
  use_cholesky_ L' = use_cholesky_ L /\
  lasso_ L' = lasso_ L /\ desired_lambda_ L' = desired_lambda_ L /\
  elastic_net_ L' = elastic_net_ L /\ lambda_2_ L' = lambda_2_ L /\
  beta_path_ L' = beta_path_ L /\ lambda_path_ L' = lambda_path_ L /\
  n_active_ L' = n_active_ L /\ active_set_ L' = active_set_ L /\
  is_active_ L' = is_active_ L /\
  (use_cholesky_ L = true -> Gram_ L' = Gram_ L).
Proof.
  unfold UpdateX. intros H.
  match type of H with
  | match ?e with Some _ => _ | None => None end = _ =>
      destruct e as [X1|]; [|discriminate]
  end.
  cbn [use_cholesky_ set_X] in H.
  destruct (use_cholesky_ L) eqn:Hc; cbn [negb] in H.
  - unfold UpdateXty in H. inv_bind H. inversion H; subst; clear H. cbn.
    repeat split; try reflexivity; try assumption; intros; reflexivity.
  - destruct (UpdateGram (set_X L X1) col_inds) as [L1|] eqn:EG; [|discriminate].
    unfold UpdateGram in EG. inv_bind EG. inversion EG; subst; clear EG.
    unfold UpdateXty in H. inv_bind H. inversion H; subst; clear H. cbn.
    repeat split; try reflexivity; try assumption; discriminate.
Qed.

(** X12.  No member function other than the constructor ever clears a
    mode flag.  The four-argument [Init] sets [lasso_] and leaves
    [elastic_net_] and [lambda_2_] as they are, so after a five-argument
    [Init] it keeps Elastic-Net mode with the earlier [lambda_2_]; the
    five-argument [Init] sets both flags; [SetY], [SetDesiredLambda],
    [UpdateX] and a run of [DoLARS] keep both flags. *)
Theorem mode_flags_never_cleared (L : @Lars F) :
  (forall X y c dl L',
     Init4 L X y c dl = Some L' ->
     lasso_ L' = true /\ desired_lambda_ L' = dl /\
     elastic_net_ L' = elastic_net_ L /\ lambda_2_ L' = lambda_2_ L) /\
  (forall X y c dl l2 L',
     Init5 L X y c dl l2 = Some L' ->
     lasso_ L' = true /\ desired_lambda_ L' = dl /\
     elastic_net_ L' = true /\ lambda_2_ L' = l2) /\
  (forall X y c dl l2 dl' L1 L2,
     Init5 L X y c dl l2 = Some L1 -> Init4 L1 X y c dl' = Some L2 ->
     elastic_net_ L2 = true /\ lambda_2_ L2 = l2) /\
  (forall y, lasso_ (SetY L y) = lasso_ L /\
             elastic_net_ (SetY L y) = elastic_net_ L) /\
  (forall dl, lasso_ (SetDesiredLambda L dl) = lasso_ L /\
              elastic_net_ (SetDesiredLambda L dl) = elastic_net_ L) /\
  (forall col_inds new_cols L',
     UpdateX L col_inds new_cols = Some L' ->
     lasso_ L' = lasso_ L /\ elastic_net_ L' = elastic_net_ L) /\
  (forall fuel s,
     DoLARS solve fuel L = Finished s ->
     lasso_ (obj s) = lasso_ L /\ elastic_net_ (obj s) = elastic_net_ L).
Proof.
  assert (H4 : forall (L0 : @Lars F) X y c dl L',
            Init4 L0 X y c dl = Some L' ->
            lasso_ L' = true /\ desired_lambda_ L' = dl /\
            elastic_net_ L' = elastic_net_ L0 /\ lambda_2_ L' = lambda_2_ L0).
  { intros L0 X y c dl L' H. unfold Init4 in H.
    apply Init3_frame in H. cbn in H. tauto. }
  assert (H5 : forall X y c dl l2 L',
            Init5 L X y c dl l2 = Some L' ->
            lasso_ L' = true /\ desired_lambda_ L' = dl /\
            elastic_net_ L' = true /\ lambda_2_ L' = l2).
  { intros X y c dl l2 L' H. unfold Init5 in H. apply H4 in H. cbn in H.
    tauto. }
  split; [apply H4|]. split; [exact H5|]. split.
  - intros X y c dl l2 dl' L1 L2 E5 E4.
    apply H5 in E5. apply H4 in E4.
    destruct E5 as (_ & _ & He & Hl). destruct E4 as (_ & _ & He' & Hl').
    split; congruence.
  - split; [intros; split; reflexivity|].
    split; [intros; split; reflexivity|]. split.
    + intros col_inds new_cols L' H. apply UpdateX_frame in H. tauto.
    + intros fuel s H. unfold DoLARS in H.
      destruct (DoLARS_begin L) as [s0|] eqn:E0; [|discriminate].
      apply DoLARS_begin_same_data in E0. apply main_loop_same_data in H.
      destruct (same_data_trans E0 H)
        as (_ & _ & _ & _ & _ & _ & _ & Hl & _ & He & _).
      rewrite Hl, He.
      destruct (elastic_net_ L) eqn:Een; cbn; split; auto.
Qed.

(** X13.  A run of [DoLARS] that returns leaves the dataset, the
    products [Gram_] and [Xty_], the dimensions and the mode flags as they
    were; among these members and [lambda_2_] it writes [lambda_2_] alone,
    which it overwrites with -1 unless Elastic-Net mode is on.  (The
    paths and the active set are the members a run is there to write.) *)
Theorem DoLARS_frame (fuel : nat) (L : @Lars F) (s : @LoopState F)
  (Hrun : DoLARS solve fuel L = Finished s) :
  X_ (obj s) = X_ L /\ y_ (obj s) = y_ L /\
  n_ (obj s) = n_ L /\ p_ (obj s) = p_ L /\
  Gram_ (obj s) = Gram_ L /\ Xty_ (obj s) = Xty_ L /\
  use_cholesky_ (obj s) = use_cholesky_ L /\
  desired_lambda_ (obj s) = desired_lambda_ L /\
  lambda_2_ (obj s) = (if elastic_net_ L then lambda_2_ L else fopp f1) /\
  lasso_ (obj s) = lasso_ L /\ elastic_net_ (obj s) = elastic_net_ L.
Proof.
  unfold DoLARS in Hrun.
  destruct (DoLARS_begin L) as [s0|] eqn:E0; [|discriminate].
  apply DoLARS_begin_same_data in E0. apply main_loop_same_data in Hrun.
  destruct (same_data_trans E0 Hrun)
    as (H1 & H2 & H3 & H4 & H5 & H6 & H7 & H8 & H9 & H10 & H11).
  rewrite H1, H2, H3, H4, H5, H6, H7, H8, H9, H10, H11.
  destruct (elastic_net_ L) eqn:Een; cbn; rewrite ?Een;
    repeat split; reflexivity.
Qed.

End Frames.

Lemma DoLARS_frame_witness :
  Xty_ (obj ex_first_run) = Xty_ ex_fresh /\
  lambda_2_ (obj ex_first_run) = (-1)%float.
Proof.
  assert (Hrun : DoLARS example_solve 10 ex_fresh = Finished ex_first_run)
    by (vm_compute; reflexivity).
  destruct (DoLARS_frame _ _ _ Hrun)
    as (_ & _ & _ & _ & _ & H6 & _ & _ & H9 & _).
  split; [exact H6 | exact H9].
Defined.

(** ** [UpdateX]: bounds, and what it does not touch *)

Section UpdateFrame.

Context {F : Type} `{SF : Scalar F}.

Lemma foldM_visits {A S : Type} (P : S -> Prop) (f : S -> A -> option S)
  (l : list A) (s s' : S) :
  (forall s a s', In a l -> P s -> f s a = Some s' -> P s') ->
  P s -> foldM f l s = Some s' ->
  P s' /\ forall a, In a l -> exists s1 s2, P s1 /\ f s1 a = Some s2.
Proof.
  revert s. induction l as [|a l IH]; intros s Hstep Hs H; simpl in H.
  - inversion H; subst. split; [exact Hs | intros a []].
  - destruct (f s a) as [s1|] eqn:E; [|discriminate].
    assert (Hs1 : P s1) by (eapply Hstep; [now left | exact Hs | exact E]).
    destruct (IH s1) as [Hs' Hall]; auto.
    { intros s2 a2 s3 Hin. apply Hstep. now right. }
    split; [exact Hs'|]. intros a' [<-|Hin].
    + exists s, s1. split; assumption.
    + apply Hall. exact Hin.
Qed.

Lemma set_col_dims (M M' : @mat F) (j : N) (c : @vec F) :
  set_col M j c = Some M' ->
  (j < n_cols M)%N /\ N.of_nat (length c) = n_rows M /\
  n_rows M' = n_rows M /\ n_cols M' = n_cols M.
Proof.
  unfold set_col, n_cols. intros H. inv_bind H. inversion H; subst; clear H.
  cbn [n_rows mcols]. apply N.eqb_eq in E.
  pose proof (updateN_length _ _ _ E0) as Hl.
  apply updateN_Some in E0. destruct E0 as [Hj _].
  unfold vec in *. repeat split; try lia; try (now rewrite Hl).
Qed.

Lemma set_at_dims (M M' : @mat F) (i j : N) (x : F) :
  set_at M i j x = Some M' ->
  (j < n_cols M)%N /\ n_rows M' = n_rows M /\ n_cols M' = n_cols M.
Proof.
  unfold set_at, n_cols, col. intros H. inv_bind H.
  inversion H; subst; clear H. cbn [n_rows mcols].
  pose proof (updateN_length _ _ _ E1) as Hl.
  apply updateN_Some in E1. destruct E1 as [Hj _].
  unfold vec in *. repeat split; try lia; try (now rewrite Hl).
Qed.

(** X14.  [UpdateX(col_inds, new_cols)] returns only when every listed
    index, converted to [u32], is a column of [X_] and an entry of [Xty_]
    (so a negative index is refused), and [new_cols] has a column for each
    list position.  It keeps the dimensions of [X_], [Gram_] and [Xty_];
    a column of [X_] and an entry of [Xty_] whose index is not listed,
    and an entry of [Gram_] whose row or column is not listed, are left as
    they were. *)
Theorem UpdateX_touches_only_listed (L L' : @Lars F) (col_inds : list Z)
  (new_cols : @mat F)
  (Hupd : UpdateX L col_inds new_cols = Some L') :
  (forall i, In i col_inds ->
     (index_of_int i < n_cols (X_ L))%N /\
     (index_of_int i < N.of_nat (length (Xty_ L)))%N) /\
  (N.of_nat (length col_inds) <= n_cols new_cols)%N /\
  (n_rows (X_ L') = n_rows (X_ L) /\ n_cols (X_ L') = n_cols (X_ L) /\
   n_rows (Gram_ L') = n_rows (Gram_ L) /\
   n_cols (Gram_ L') = n_cols (Gram_ L) /\
   length (Xty_ L') = length (Xty_ L)) /\
  (forall j, ~ In j (map index_of_int col_inds) ->
     col (X_ L') j = col (X_ L) j /\
     lookupN (Xty_ L') j = lookupN (Xty_ L) j) /\
  (forall i j,
     ~ (In i (map index_of_int col_inds) /\
        In j (map index_of_int col_inds)) ->
     at_ (Gram_ L') i j = at_ (Gram_ L) i j).
Proof.
  unfold UpdateX in Hupd.
  match type of Hupd with
  | match ?e with Some _ => _ | None => None end = Some _ =>
      destruct e as [X'|] eqn:EX; [|discriminate]
  end.
  cbn [use_cholesky_ set_X] in Hupd.
  (* the loop over the columns *)
  pose (PX := fun M : @mat F =>
    n_rows M = n_rows (X_ L) /\ n_cols M = n_cols (X_ L) /\
    forall j, ~ In j (map index_of_int col_inds) -> col M j = col (X_ L) j).
  assert (HstepX : forall (M : @mat F) (a : N * Z) (M' : @mat F),
            In a (combine (upto (N.of_nat (length col_inds))) col_inds) ->
            PX M ->
            (c <- col new_cols (fst a) ;;
             set_col M (index_of_int (snd a)) c) = Some M' -> PX M').
  { intros M [k i] M' Hin (Hr & Hc & Hcol) Hst.
    cbn [fst snd] in Hst. inv_bind Hst.
    destruct (set_col_dims _ _ _ Hst) as (_ & _ & Hr' & Hc').
    repeat split; [congruence | congruence |].
    intros j Hj. rewrite <- (Hcol j Hj).
    apply (col_set_col_neq _ _ Hst).
    intros Heq. subst j. apply Hj. apply in_map.
    apply in_combine_r in Hin. exact Hin. }
  assert (HX0 : PX (X_ L)) by (repeat split; reflexivity).
  destruct (@foldM_visits _ _ PX _ _ _ _ HstepX HX0 EX)
    as [(HXr & HXc & HXcol) HXall].
  assert (HinX : forall i, In i col_inds ->
                   (index_of_int i < n_cols (X_ L))%N).
  { intros i Hi. apply In_nth_error in Hi. destruct Hi as [k Hk].
    destruct (HXall (N.of_nat k, i)) as (M1 & M2 & (_ & Hc1 & _) & Hst).
    { apply In_combine_upto. eauto. }
    cbn [fst snd] in Hst. inv_bind Hst.
    destruct (set_col_dims _ _ _ Hst) as (Hlt & _). now rewrite <- Hc1. }
  assert (Hnew : (N.of_nat (length col_inds) <= n_cols new_cols)%N).
  { destruct col_inds as [|i0 rest] eqn:Eci; [cbn; lia|]. rewrite <- Eci in *.
    assert (Hlen : (0 < length col_inds)%nat) by (rewrite Eci; cbn; lia).
    assert (Hlast : exists i, nth_error col_inds (length col_inds - 1) = Some i).
    { destruct (nth_error col_inds (length col_inds - 1)) eqn:En; eauto.
      apply nth_error_None in En. lia. }
    destruct Hlast as [i Hi].
    destruct (HXall (N.of_nat (length col_inds - 1), i)) as (M1 & M2 & _ & Hst).
    { apply In_combine_upto. eauto. }
    cbn [fst snd] in Hst. inv_bind Hst.
    unfold col in E. apply lookupN_Some_lt in E. destruct E as [E _].
    unfold n_cols. unfold vec in *. lia. }
  (* the loop over [Xty_] *)
  assert (HXty : forall (L1 L2 : @Lars F),
            UpdateXty L1 col_inds = Some L2 ->
            X_ L2 = X_ L1 /\ Gram_ L2 = Gram_ L1 /\
            length (Xty_ L2) = length (Xty_ L1) /\
            (forall i, In i col_inds ->
               (index_of_int i < N.of_nat (length (Xty_ L1)))%N) /\
            forall j, ~ In j (map index_of_int col_inds) ->
               lookupN (Xty_ L2) j = lookupN (Xty_ L1) j).
  { intros L1 L2 H. unfold UpdateXty in H.
    match type of H with
    | match ?e with Some _ => _ | None => None end = Some _ =>
        destruct e as [v|] eqn:Ev; [|discriminate]
    end.
    inversion H; subst; clear H. cbn [X_ Gram_ Xty_ set_Xty].
    pose (Pv := fun v : @vec F =>
      length v = length (Xty_ L1) /\
      forall j, ~ In j (map index_of_int col_inds) ->
        lookupN v j = lookupN (Xty_ L1) j).
    assert (Hstepv : forall (v0 : @vec F) (i : Z) (v1 : @vec F),
              In i col_inds -> Pv v0 ->
              (ci <- col (X_ L1) (index_of_int i) ;;
               d <- dot ci (y_ L1) ;;
               updateN v0 (index_of_int i) d) = Some v1 -> Pv v1).
    { intros v0 i v1 Hin (Hl & Hv) Hst. inv_bind Hst.
      split; [rewrite (updateN_length _ _ _ Hst); exact Hl|].
      intros j Hj. rewrite <- (Hv j Hj).
      apply (lookupN_updateN_neq _ _ Hst).
      intros Heq. subst j. apply Hj. apply in_map. exact Hin. }
    assert (Hv0 : Pv (Xty_ L1)) by (split; [reflexivity | intros; reflexivity]).
    destruct (@foldM_visits _ _ Pv _ _ _ _ Hstepv Hv0 Ev)
      as [(Hl & Hv) Hall].
    repeat split; try assumption.
    intros i Hi. destruct (Hall i Hi) as (v1 & v2 & (Hl1 & _) & Hst).
    inv_bind Hst. apply updateN_Some in Hst. destruct Hst as [Hlt _].
    unfold vec in *. lia. }
  (* the loops over [Gram_] *)
  assert (HG : forall (L1 L2 : @Lars F),
            UpdateGram L1 col_inds = Some L2 ->
            X_ L2 = X_ L1 /\ Xty_ L2 = Xty_ L1 /\
            n_rows (Gram_ L2) = n_rows (Gram_ L1) /\
            n_cols (Gram_ L2) = n_cols (Gram_ L1) /\
            forall i j,
              ~ (In i (map index_of_int col_inds) /\
                 In j (map index_of_int col_inds)) ->
              at_ (Gram_ L2) i j = at_ (Gram_ L1) i j).
  { intros L1 L2 H. unfold UpdateGram in H.
    match type of H with
    | match ?e with Some _ => _ | None => None end = Some _ =>
        destruct e as [G1|] eqn:EG1; [|discriminate]
    end.
    match type of H with
    | match ?e with Some _ => _ | None => None end = Some _ =>
        destruct e as [G2|] eqn:EG2; [|discriminate]
    end.
    inversion H; subst; clear H. cbn [X_ Gram_ Xty_ set_Gram].
    pose (PG := fun G : @mat F =>
      n_rows G = n_rows (Gram_ L1) /\ n_cols G = n_cols (Gram_ L1) /\
      forall i j,
        ~ (In i (map index_of_int col_inds) /\
           In j (map index_of_int col_inds)) ->
        at_ G i j = at_ (Gram_ L1) i j).
    assert (Hset : forall G G' i j x,
              In i col_inds -> In j col_inds -> PG G ->
              set_at G (index_of_int i) (index_of_int j) x = Some G' ->
              PG G').
    { intros G G' i j x Hi Hj (Hr & Hc & Hat) Hst.
      destruct (set_at_dims _ _ _ _ Hst) as (_ & Hr' & Hc').
      repeat split; [congruence | congruence |].
      intros i' j' Hij. rewrite <- (Hat i' j' Hij).
      apply (@at_set_at_neq _ G G' (index_of_int i, index_of_int j)
               (i', j') x Hst).
      intros Heq. inversion Heq; subst. apply Hij.
      split; apply in_map; assumption. }
    assert (PG1 : PG G1).
    { refine (proj1 (@foldM_visits _ _ PG _ _ _ _ _ _ EG1)).
      - intros G i G' Hi HP Hin.
        refine (proj1 (@foldM_visits _ _ PG _ _ _ _ _ HP Hin)).
        intros G0 j G0' Hj HP0 Hst. inv_bind Hst.
        exact (Hset _ _ _ _ _ Hi Hj HP0 Hst).
      - repeat split; reflexivity. }
    assert (PG2 : PG G2).
    { destruct (elastic_net_ L1).
      - refine (proj1 (@foldM_visits _ _ PG _ _ _ _ _ PG1 EG2)).
        intros G i G' Hi HP Hst. inv_bind Hst.
        exact (Hset _ _ _ _ _ Hi Hi HP Hst).
      - inversion EG2; subst. exact PG1. }
    destruct PG2 as (Hr & Hc & Hat). repeat split; assumption. }
  destruct (use_cholesky_ L) eqn:Hc; cbn [negb] in Hupd.
  - destruct (HXty _ _ Hupd) as (HX2 & HG2 & Hl2 & Hin2 & Hv2).
    cbn [X_ Gram_ Xty_ set_X] in *.
    rewrite HX2, HG2. repeat split; auto.
    all: try (rewrite Hl2; reflexivity).
    all: try (apply HXcol; assumption).
    all: apply Hv2; assumption.
  - destruct (UpdateGram (set_X L X') col_inds) as [L1|] eqn:EG;
      [|discriminate].
    destruct (HG _ _ EG) as (HX1 & HXty1 & Hr1 & Hc1 & Hat1).
    destruct (HXty _ _ Hupd) as (HX2 & HG2 & Hl2 & Hin2 & Hv2).
    cbn [X_ Gram_ Xty_ set_X] in *.
    rewrite HX2, HG2, HX1. repeat split; auto.
    all: try (rewrite <- HXty1; apply Hin2; assumption).
    all: try (rewrite Hl2, HXty1; reflexivity).
    all: try (apply HXcol; assumption).
    all: rewrite Hv2, HXty1 by assumption; reflexivity.
Qed.

End UpdateFrame.

Lemma UpdateX_touches_only_listed_witness :
  exists L',
    UpdateX ex_sparse [1%Z] (Mat 3 [[1; 2; 3]%float]) = Some L' /\
    col (X_ L') 0 = col (X_ ex_sparse) 0.
Proof.
  eexists. split; [vm_compute; reflexivity|].
  refine (proj1 (proj1 (proj2 (proj2 (proj2
    (@UpdateX_touches_only_listed _ _ ex_sparse _ [1%Z]
       (Mat 3 [[1; 2; 3]%float]) _)))) 0%N _)).
  - vm_compute. reflexivity.
  - vm_compute. intros [H|[]]. discriminate H.
Defined.

(** ** The step length to the next inactive variable *)

Section InactiveScan.

Local Open Scope R_scope.

Variable L : @Lars R.
Variables corr yhd : @vec R.
Variables mc nrm : R.

Lemma inactive_scan_list (l : list N) (gc gc' : R * N) :
  foldM (fun (gc : R * N) ind =>
      act <- lookupN (is_active_ L) ind ;;
      if act : bool then Some gc
      else
        c <- col (X_ L) ind ;;
        dir_corr <- dot c yhd ;;
        ci <- lookupN corr ind ;;
        let val1 := fdiv (fsub mc ci) (fsub nrm dir_corr) in
        let val2 := fdiv (fadd mc ci) (fadd nrm dir_corr) in
        let gc := if fltb f0 val1 && fltb val1 (fst gc)
                  then (val1, ind) else gc in
        let gc := if fltb f0 val2 && fltb val2 (fst gc)
                  then (val2, ind) else gc in
        Some gc) l gc = Some gc' ->
  fst gc' <= fst gc /\
  (gc' = gc \/
   In (snd gc') l /\ 0 < fst gc' < fst gc /\
   exists v1 v2, scan_ratios L corr yhd mc nrm (snd gc') v1 v2 /\
                 (fst gc' = v1 \/ fst gc' = v2)) /\
  (forall ind v1 v2, In ind l -> scan_ratios L corr yhd mc nrm ind v1 v2 ->
     (0 < v1 -> fst gc' <= v1) /\ (0 < v2 -> fst gc' <= v2)).
Proof.
  revert gc. induction l as [|ind l IH]; intros gc H; simpl in H.
  - inversion H; subst. split; [lra|]. split; [now left|].
    intros ind v1 v2 [].
  - match type of H with
    | match ?e with Some _ => _ | None => None end = Some _ =>
        destruct e as [gc1|] eqn:Estep; [|discriminate]
    end.
    destruct (IH _ H) as (Hle & Hwho & Hmin). clear IH H.
    destruct (lookupN (is_active_ L) ind) as [act|] eqn:Eact; [|discriminate].
    destruct act.
    + inversion Estep; subst gc1; clear Estep.
      split; [exact Hle|]. split.
      * destruct Hwho as [->|(Hin & Hpos & Hv)]; [now left|].
        right. split; [now right|]. split; assumption.
      * intros ind' v1 v2 [<-|Hin] Hr.
        -- destruct Hr as (c & dc & ci & Hf & _). congruence.
        -- eapply Hmin; eauto.
    + destruct (col (X_ L) ind) as [c|] eqn:Ec; [|discriminate].
      destruct (dot c yhd) as [dc|] eqn:Ed; [|discriminate].
      destruct (lookupN corr ind) as [ci|] eqn:Eci; [|discriminate].
      cbn [fdiv fsub fadd fltb f0 Scalar_R] in Estep.
      set (val1 := (mc - ci) / (nrm - dc)) in *.
      set (val2 := (mc + ci) / (nrm + dc)) in *.
      assert (Hrat : scan_ratios L corr yhd mc nrm ind val1 val2).
      { exists c, dc, ci. repeat split; assumption. }
      assert (Hstep : fst gc1 <= fst gc /\
                (gc1 = gc \/
                 snd gc1 = ind /\ 0 < fst gc1 < fst gc /\
                 (fst gc1 = val1 \/ fst gc1 = val2)) /\
                (0 < val1 -> fst gc1 <= val1) /\
                (0 < val2 -> fst gc1 <= val2)).
      { inversion Estep; subst gc1; clear Estep.
        destruct (Rltb 0 val1) eqn:E1; destruct (Rltb val1 (fst gc)) eqn:E2;
          cbn [andb fst snd];
          try apply Rltb_true in E1; try apply Rltb_false in E1;
          try apply Rltb_true in E2; try apply Rltb_false in E2;
          destruct (Rltb 0 val2) eqn:E3;
          try apply Rltb_true in E3; try apply Rltb_false in E3;
          cbn [andb fst snd];
          match goal with
          | |- context [Rltb val2 ?g] =>
              destruct (Rltb val2 g) eqn:E4;
              try apply Rltb_true in E4; try apply Rltb_false in E4
          | _ => idtac
          end;
          cbn [andb fst snd] in *;
          (split; [lra|]); (split; [|split; intros; lra]);
          try (left; reflexivity);
          right; (split; [reflexivity|]); (split; [lra|]);
          first [left; reflexivity | right; reflexivity]. }
      destruct Hstep as (Hle1 & Hwho1 & Hm1 & Hm2).
      split; [lra|]. split.
      * destruct Hwho as [->|(Hin & Hpos & Hv)].
        -- destruct Hwho1 as [->|(Hi & Hp & Hv)]; [now left|].
           right. split; [left; now symmetry|]. split; [exact Hp|].
           exists val1, val2. rewrite Hi. split; assumption.
        -- right. split; [now right|]. split; [lra|]. exact Hv.
      * intros ind' v1 v2 [<-|Hin] Hr.
        -- destruct Hr as (c' & dc' & ci' & _ & Hc' & Hd' & Hci' & -> & ->).
           assert (c' = c) by congruence. subst c'.
           assert (dc' = dc) by congruence. subst dc'.
           assert (ci' = ci) by congruence. subst ci'.
           fold val1 val2. split; intros; [specialize (Hm1 H) | specialize (Hm2 H)]; lra.
        -- eapply Hmin; eauto.
Qed.

(** X15.  The minimum-ratio test of [DoLARS] over the inactive variables,
    in exact arithmetic: the step length never grows; it is either the
    one the scan started with, together with the starting [change_ind],
    or a positive ratio of the inactive variable that [change_ind] then
    names, strictly below the starting one; and, whenever some variable
    is still inactive ([n_active_ < p_]), it is at most every positive
    ratio of every inactive variable.  When all variables are active the
    scan is skipped. *)
Theorem inactive_scan_min_ratio (gc gc' : R * N)
  (Hscan : inactive_scan L corr yhd mc nrm gc = Some gc') :
  fst gc' <= fst gc /\
  (gc' = gc \/
   (snd gc' < p_ L)%N /\ 0 < fst gc' < fst gc /\
   exists v1 v2, scan_ratios L corr yhd mc nrm (snd gc') v1 v2 /\
                 (fst gc' = v1 \/ fst gc' = v2)) /\
  ((n_active_ L < p_ L)%N ->
   forall ind v1 v2, (ind < p_ L)%N -> scan_ratios L corr yhd mc nrm ind v1 v2 ->
     (0 < v1 -> fst gc' <= v1) /\ (0 < v2 -> fst gc' <= v2)) /\
  ((p_ L <= n_active_ L)%N -> gc' = gc).
Proof.
  unfold inactive_scan in Hscan.
  destruct (N.ltb_spec (n_active_ L) (p_ L)) as [Hlt|Hge].
  - apply inactive_scan_list in Hscan.
    destruct Hscan as (Hle & Hwho & Hmin).
    split; [exact Hle|]. split; [|split].
    + destruct Hwho as [->|(Hin & Hpos & Hv)]; [now left|].
      right. split; [|split; assumption].
      apply In_upto in Hin. exact Hin.
    + intros _ ind v1 v2 Hind Hr. apply (Hmin ind v1 v2); [|exact Hr].
      apply In_upto. exact Hind.
    + intros Hge. lia.
  - inversion Hscan; subst. split; [lra|]. split; [now left|].
    split; [intros; lia | reflexivity].
Qed.

End InactiveScan.

Lemma inactive_scan_min_ratio_witness :
  exists gc',
    inactive_scan ex_unit [1%R] [1%R] 1%R 2%R (5%R, u32_minus_one) = Some gc' /\
    (fst gc' <= 5)%R.
Proof.
  destruct (inactive_scan ex_unit [1%R] [1%R] 1%R 2%R (5%R, u32_minus_one))
    as [gc'|] eqn:E.
  - exists gc'. split; [reflexivity|].
    exact (proj1 (@inactive_scan_min_ratio ex_unit [1%R] [1%R] 1%R 2%R
                    (5%R, u32_minus_one) gc' E)).
  - exfalso. revert E.
    cbv -[Rplus Rminus Rmult Rdiv Rinv Ropp Rabs sqrt Rltb Rleb Reqb IZR pow].
    repeat match goal with
    | |- context [if ?b then _ else _] => destruct b
    end; discriminate.
Defined.

(** ** Insertion followed by deletion of the new column *)

Section InsertDelete.

Context {F : Type} `{SF : Scalar F}.

Lemma map_firstn_app_one (cs : list (@vec F)) (n : nat) :
  (forall c, In c cs -> length c = n) ->
  map (firstn n) (map (fun c => c ++ [f0]) cs) = cs.
Proof.
  intros Hlen. induction cs as [|c cs IH]; [reflexivity|]. cbn [map].
  rewrite IH by (intros c' Hc'; apply Hlen; now right).
  f_equal. rewrite firstn_app, (Hlen c) by now left.
  rewrite Nat.sub_diag. cbn [firstn]. rewrite app_nil_r.
  rewrite <- (Hlen c) by now left. apply firstn_all.
Qed.

(** X16.  A column inserted by [CholeskyInsert] and removed at once by
    [CholeskyDelete] gives back the factor one started from, entry for
    entry, in any arithmetic: the new column is the last one, and the
    deletion of the last column keeps the leading block.  The factor must
    have had at least one column: after an insertion into the empty
    factor the deletion returns nothing. *)
Theorem CholeskyInsert_then_Delete (L : @Lars F) (Rm Rm' : @mat F)
  (new_x new_Gram_col : @vec F)
  (Hsq : n_cols Rm = n_rows Rm)
  (Hrect : forall c, In c (mcols Rm) -> N.of_nat (length c) = n_rows Rm)
  (Hu32 : (Z.of_N (n_rows Rm) + 1 < u32_modulus)%Z)
  (Hins : CholeskyInsert L Rm new_x new_Gram_col = Some Rm') :
  n_rows Rm' = (n_rows Rm + 1)%N /\ n_cols Rm' = (n_cols Rm + 1)%N /\
  CholeskyDelete Rm' (n_rows Rm) =
    if (n_rows Rm =? 0)%N then None else Some Rm.
Proof.
  destruct Rm as [n cs]. unfold n_cols in *. cbn [n_rows mcols] in *.
  unfold CholeskyInsert in Hins. cbn [n_rows mcols] in Hins.
  destruct (N.eqb_spec n 0) as [Hn|Hn].
  - injection Hins as <-. cbn [n_rows mcols length].
    destruct cs; [|cbn in Hsq; lia]. subst n.
    split; [reflexivity|]. split; [reflexivity|]. reflexivity.
  - destruct (solve_trimatl_trans (Mat n cs) new_Gram_col) as [l|] eqn:Ek;
      [|discriminate].
    injection Hins as <-.
    cbn [n_rows mcols].
    assert (Hlen : length (map (fun c : list F => c ++ [f0]) cs
                           ++ [l ++ [fsqrt (fsub
                                 (if elastic_net_ L
                                  then fadd (dot_raw new_x new_x) (lambda_2_ L)
                                  else dot_raw new_x new_x)
                                 (dot_raw l l))]])
                   = S (length cs)).
    { unfold vec in *. rewrite length_app, length_map. cbn [length]. lia. }
    split; [reflexivity|]. split; [unfold vec in *; rewrite Hlen; lia|].
    unfold CholeskyDelete. cbn [n_rows].
    assert (Hdec : u32_decr (n + 1) = n).
    { unfold u32_decr, wrap32, u32_modulus in *.
      rewrite Z.mod_small by lia. lia. }
    rewrite Hdec, N.eqb_refl.
    assert (Hb : wrap32 (Z.of_N (n + 1) - 2) = (n - 1)%N).
    { unfold wrap32, u32_modulus in *. rewrite Z.mod_small by lia. lia. }
    rewrite Hb. unfold leading_block, n_cols. cbn [n_rows mcols].
    unfold vec in *. rewrite Hlen.
    destruct (N.ltb_spec (n - 1) (n + 1)) as [_|Hf]; [|lia].
    destruct (N.ltb_spec (n - 1) (N.of_nat (S (length cs)))) as [_|Hf];
      [|lia].
    cbn [negb]. do 2 f_equal; [lia|].
    replace (N.to_nat (n - 1 + 1)) with (length cs) by lia.
    rewrite firstn_app, length_map, Nat.sub_diag. cbn [firstn].
    rewrite app_nil_r.
    replace (firstn (length cs) (map (fun c : list F => c ++ [f0]) cs))
      with (map (fun c : list F => c ++ [f0]) cs)
      by (symmetry; rewrite <- (length_map (fun c : list F => c ++ [f0]) cs);
          apply firstn_all).
    apply map_firstn_app_one.
    intros c Hc. specialize (Hrect c Hc). lia.
Qed.

End InsertDelete.

Lemma CholeskyInsert_then_Delete_witness :
  exists Rm',
    CholeskyInsert ex_fresh (Mat 1 [[2%float]]) [1; 1; 1]%float [4%float]
    = Some Rm' /\
    CholeskyDelete Rm' 1 = Some (Mat 1 [[2%float]]).
Proof.
  eexists. split; [vm_compute; reflexivity|].
  refine (proj2 (proj2 (@CholeskyInsert_then_Delete _ _ ex_fresh
            (Mat 1 [[2%float]]) _ [1; 1; 1]%float [4%float] _ _ _ _))).
  - reflexivity.
  - intros c [<-|[]]. reflexivity.
  - reflexivity.
  - vm_compute. reflexivity.
Defined.

(** ** The step when no inactive variable bounds it *)

Section FullStep.

Local Open Scope R_scope.

Variable solve : @mat R -> @vec R -> option (@vec R).

Lemma EPS_nonneg : 0 <= @EPS R Scalar_R.
Proof.
  change (@EPS R Scalar_R) with (1 / 10 ^ 16).
  assert (Hx : 0 < 10 ^ 16) by (apply pow_lt; lra).
  apply Rlt_le. apply Rdiv_lt_0_compat; lra.
Qed.

Lemma main_loop_left (fuel : nat) (s : @LoopState R) :
  loop_cond s = false -> main_loop solve fuel s = Finished s.
Proof. intros H. destruct fuel; cbn [main_loop]; now rewrite H. Qed.

(** X17.  Pure LARS in exact arithmetic: when an iteration ends with
    [change_ind == (u32) -1], no inactive variable has bounded the step,
    the step is [max_corr / normalization], and the new [max_corr] is
    [max_corr - (max_corr / normalization) * normalization]: with a
    non-zero [normalization] it is exactly 0, so the loop is left at once
    and the missing index is never activated. *)
Theorem full_step_ends_run (s s' : @LoopState R) (brk : bool)
  (Hlasso : lasso_ (obj s) = false)
  (Hp : (Z.of_N (p_ (obj s)) < u32_modulus)%Z)
  (Hbody : body solve s = Some (s', brk))
  (Hnone : change_ind s' = u32_minus_one) :
  exists nrm,
    step_normalization solve s = Some nrm /\
    max_corr s' = max_corr s - max_corr s / nrm * nrm /\
    (nrm <> 0 ->
     max_corr s' = 0 /\ loop_cond s' = false /\
     forall fuel, main_loop solve fuel s' = Finished s').
Proof.
  unfold body in Hbody. unfold step_normalization.
  destruct (top_phase s) as [s1|] eqn:Etop; [|discriminate].
  pose proof (top_phase_frame _ Etop) as (Hd1 & _ & _ & _ & _ & _ & Hmc1 & _).
  destruct Hd1 as (_ & _ & _ & Hp1 & _ & _ & _ & Hl1 & _).
  pose proof (rest_phase_inv _ _ Hbody) as
    (sg & bd & nrm & yhd & gc & gamma & Hsg & Hdir & _ & Hscan & Hlb & _ &
     Hmc & _).
  rewrite Hsg, Hdir. cbn [snd]. exists nrm. split; [reflexivity|].
  unfold lasso_bound in Hlb. rewrite Hl1, Hlasso in Hlb.
  injection Hlb as _ Hgc. subst gc.
  assert (Hgamma : gamma = max_corr s1 / nrm).
  { unfold inactive_scan in Hscan.
    destruct (n_active_ (obj s1) <? p_ (obj s1))%N.
    - apply inactive_scan_list in Hscan.
      destruct Hscan as (_ & [Heq|(Hin & _)] & _).
      + now inversion Heq.
      + exfalso. cbn [snd] in Hin. apply In_upto in Hin.
        rewrite Hnone, Hp1 in Hin. unfold u32_minus_one, wrap32 in Hin.
        unfold u32_modulus in *. cbn in Hin. lia.
    - now inversion Hscan. }
  assert (Hnew : max_corr s' = max_corr s - max_corr s / nrm * nrm).
  { rewrite Hmc, Hgamma, Hmc1. reflexivity. }
  split; [exact Hnew|]. intros Hnz.
  assert (H0 : max_corr s' = 0) by (rewrite Hnew; field; exact Hnz).
  assert (Hc : loop_cond s' = false).
  { unfold loop_cond. rewrite H0. apply andb_false_iff. right.
    apply Rltb_false. exact EPS_nonneg. }
  split; [exact H0|]. split; [exact Hc|].
  intros fuel. apply main_loop_left. exact Hc.
Qed.

End FullStep.

Lemma full_step_ends_run_witness :
  exists s' brk nrm,
    body ex_solve ex_last = Some (s', brk) /\
    step_normalization ex_solve ex_last = Some nrm /\
    max_corr s' = (max_corr ex_last - max_corr ex_last / nrm * nrm)%R.
Proof.
  destruct (body ex_solve ex_last) as [[s' brk]|] eqn:E.
  - assert (Hn : change_ind s' = u32_minus_one).
    { revert E.
      cbv -[Rplus Rminus Rmult Rdiv Rinv Ropp Rabs sqrt Rltb Rleb Reqb IZR pow].
      intros E. inversion E. reflexivity. }
    destruct (@full_step_ends_run ex_solve ex_last s' brk eq_refl eq_refl E Hn)
      as (nrm & H1 & H2 & _).
    exists s', brk, nrm. split; [reflexivity|]. split; assumption.
  - exfalso. revert E.
    cbv -[Rplus Rminus Rmult Rdiv Rinv Ropp Rabs sqrt Rltb Rleb Reqb IZR pow].
    discriminate.
Defined.

(** ** The last entries of the two paths *)

Section PathEnds.

Context {F : Type} `{SF : Scalar F}.

Variable solve : @mat F -> @vec F -> option (@vec F).




End PathEnds.



(** * Runs that do not depend on the solver *)

(** ** Two solvers that agree on the systems of a run *)

Section SolverAgreement.

Context {F : Type} `{SF : Scalar F}.

Variables solve solve' : @mat F -> @vec F -> option (@vec F).

Lemma body_agree (s : @LoopState F) :
  (forall A b, In (A, b) (iteration_systems solve' s) ->
               solve A b = solve' A b) ->
  body solve s = body solve' s.
Proof.
  unfold body, iteration_systems.
  destruct (top_phase s) as [s1|]; [|reflexivity].
  unfold rest_phase.
  destruct (signs (obj s1) (corr s1)) as [sg|]; [|reflexivity].
  intros H.
  assert (Hd : direction solve (obj s1) (Rfac s1) sg
               = direction solve' (obj s1) (Rfac s1) sg).
  { unfold direction. unfold gram_system in H.
    destruct (use_cholesky_ (obj s1)).
    - rewrite (H _ _ (or_introl eq_refl)).
      destruct (solve' (trans (Rfac s1)) sg) as [z|]; [|reflexivity].
      rewrite (H _ _ (or_intror (or_introl eq_refl))). reflexivity.
    - match goal with
      | |- match ?e with Some _ => _ | None => None end = _ =>
          destruct e as [GA|]; [|reflexivity]
      end.
      rewrite (H _ _ (or_introl eq_refl)). reflexivity. }
  rewrite Hd. reflexivity.
Qed.

Lemma main_loop_agree (fuel : nat) (s : @LoopState F) :
  (forall A b, In (A, b) (run_systems solve' fuel s) ->
               solve A b = solve' A b) ->
  main_loop solve fuel s = main_loop solve' fuel s.
Proof.
  revert s. induction fuel as [|fuel IH]; intros s H;
    cbn [main_loop run_systems] in *.
  - reflexivity.
  - destruct (loop_cond s); [|reflexivity].
    rewrite body_agree by (intros A b Hin; apply H, in_or_app; now left).
    destruct (body solve' s) as [[s' brk]|]; [|reflexivity].
    destruct brk; [reflexivity|].
    apply IH. intros A b Hin. apply H, in_or_app. now right.
Qed.

Lemma DoLARS_agree (fuel : nat) (L : @Lars F) :
  (forall A b, In (A, b) (DoLARS_systems solve' fuel L) ->
               solve A b = solve' A b) ->
  DoLARS solve fuel L = DoLARS solve' fuel L.
Proof.
  unfold DoLARS, DoLARS_systems.
  destruct (DoLARS_begin L) as [s0|]; [|reflexivity].
  apply main_loop_agree.
Qed.

End SolverAgreement.

(** The hypotheses of the context give the value of [solve] on each
    system of a list obtained by evaluation. *)
Ltac agree_on_systems :=
  let A := fresh "A" in
  let b := fresh "b" in
  let Hin := fresh "Hin" in
  intros A b Hin; vm_compute in Hin;
  repeat (destruct Hin as [Hin|Hin];
          [ injection Hin as <- <-;
            (etransitivity; [eassumption | vm_compute; reflexivity])
          | ]);
  destruct Hin.


(** ** The coefficient of a removed variable, in binary64 (C5) *)

Section RemovedCoefficient.

Variable solve : @mat float -> @vec float -> option (@vec float).

Hypothesis resid_solve_1 :
  solve (Mat 1 [[6]]%float) [1]%float = Some [1 / 6]%float.
Hypothesis resid_solve_2 :
  solve (Mat 2 [[6; 2]; [2; 1]]%float) [1; 1]%float
  = Some [-0.5; 2]%float.
Hypothesis resid_solve_3 :
  solve (Mat 1 [[1]]%float) [1]%float = Some [1]%float.
Hypothesis resid_solve_4 :
  solve (Mat 2 [[1; 2]; [2; 6]]%float) [1; 1]%float
  = Some [2; -0.5]%float.
Hypothesis resid_solve_5 :
  solve (Mat 3 [[1; 2; -1]; [2; 6; -5]; [-1; -5; 6]]%float) [1; 1; 1]%float
  = Some [0; 1; 1]%float.

(** C5, at an input on which it fails.  On the dataset [ex_X5], [ex_y5] in
    LASSO mode with target 0 the first iteration activates variable 2 and
    the second variable 0.  The second iteration flags position 0 of the
    active set [2; 0] (variable 2) and moves its coefficient by
    [gamma * beta_direction] with [gamma = -beta / beta_direction]; in
    binary64 the sum is -2^-55, not 0.  The third iteration removes
    variable 2 and appends a snapshot, taken with the active set [0],
    whose entry 2 is still -2^-55; it stays entry 3 of the coefficient
    path the run returns.  Nothing in the class assigns zero to the
    coefficient of a removed variable.  The run depends on the solver
    only through five systems: the first is 1 x 1 and its solution is one
    division, the solutions of the other four are representable in
    binary64. *)
Theorem removed_coefficient_not_zeroed :
  Init4 (Lars_new ex_raw) ex_X5 ex_y5 false 0%float = Some ex_resid /\
  (DoLARS_begin ex_resid = Some ex_resid_s0 /\
   body solve ex_resid_s0 = Some (ex_resid_s1, false) /\
   body solve ex_resid_s1 = Some (ex_resid_s2, false) /\
   body solve ex_resid_s2 = Some (ex_resid_s3, false)) /\
  (active_set_ (obj ex_resid_s2) = [2%N; 0%N] /\
   kick_out ex_resid_s2 = true /\ change_ind ex_resid_s2 = 0%N /\
   lookupN (beta ex_resid_s2) 2 = Some (-0x1p-55)%float) /\
  (active_set_ (obj ex_resid_s3) = [0%N] /\
   is_active_ (obj ex_resid_s3) = [true; false; false] /\
   nth_error (beta_path_ (obj ex_resid_s3)) 3 = Some (beta ex_resid_s3) /\
   lookupN (beta ex_resid_s3) 2 = Some (-0x1p-55)%float) /\
  (DoLARS solve 10 ex_resid = Finished ex_resid_run /\
   exists b, nth_error (beta_path_ (obj ex_resid_run)) 3 = Some b /\
             lookupN b 2 = Some (-0x1p-55)%float) /\
  PrimFloat.eqb (-0x1p-55) 0 = false.
Proof using resid_solve_1 resid_solve_2 resid_solve_3 resid_solve_4 resid_solve_5.
  split; [vm_compute; reflexivity|].
  split.
  { split; [vm_compute; reflexivity|].
    repeat split.
    - rewrite (@body_agree _ _ solve example_solve) by agree_on_systems.
      vm_compute; reflexivity.
    - rewrite (@body_agree _ _ solve example_solve) by agree_on_systems.
      vm_compute; reflexivity.
    - rewrite (@body_agree _ _ solve example_solve) by agree_on_systems.
      vm_compute; reflexivity. }
  split; [repeat split; vm_compute; reflexivity|].
  split; [repeat split; vm_compute; reflexivity|].
  split; [|vm_compute; reflexivity].
  split.
  - rewrite (@DoLARS_agree _ _ solve example_solve) by agree_on_systems.
    vm_compute; reflexivity.
  - eexists. split; vm_compute; reflexivity.
Qed.

End RemovedCoefficient.

Lemma removed_coefficient_not_zeroed_witness :
  exists b, nth_error (beta_path_ (obj ex_resid_run)) 3 = Some b /\
            lookupN b 2 = Some (-0x1p-55)%float.
Proof.
  refine (proj2 (proj1 (proj2 (proj2 (proj2 (proj2
    (@removed_coefficient_not_zeroed example_solve _ _ _ _ _))))))).
  all: vm_compute; reflexivity.
Defined.


(** ** A removal flagged when every variable is active (C3) *)

Section PendingRemoval.

Context {F : Type} `{SF : Scalar F}.

Variable solve : @mat F -> @vec F -> option (@vec F).

(** The loop condition does not look at [kick_out]: a removal flagged by
    an iteration that leaves [n_active_ == p_] is never carried out. *)
Lemma pending_removal_dropped (s : @LoopState F) :
  kick_out s = true -> n_active_ (obj s) = p_ (obj s) ->
  forall fuel, main_loop solve fuel s = Finished s.
Proof.
  intros _ Hn fuel.
  assert (Hc : loop_cond s = false).
  { unfold loop_cond. rewrite Hn, N.ltb_irrefl. reflexivity. }
  destruct fuel; cbn [main_loop]; now rewrite Hc.
Qed.

End PendingRemoval.

Section FlaggedNeverRemoved.

Variable solve : @mat float -> @vec float -> option (@vec float).

Hypothesis stuck_solve_1 :
  solve (Mat 1 [[8]]%float) [1]%float = Some [0.125]%float.
Hypothesis stuck_solve_2 :
  solve (Mat 2 [[8; 6]; [6; 5]]%float) [1; 1]%float
  = Some [-0.25; 0.5]%float.

(** C3, at an input on which it fails.  On the dataset [ex_X_stuck],
    [ex_y_stuck] in LASSO mode with target 0, the first iteration
    activates variable 1 and the second variable 0.  In the second
    iteration the ratio of position 0 of the active set [1; 0] (variable
    1) is below the step: the position is flagged, [kick_out] is set and
    the step takes the coefficient of variable 1 to 0, with
    [max_corr = 2].  Now [n_active_ == p_], the loop condition fails and
    the run returns with the removal still pending: variable 1 stays in
    the active set, the factor and [is_active_], and the path stops at
    lambda 2, above the target 0.  The run depends on the solver only
    through two systems whose solutions binary64 represents. *)
Theorem flagged_variable_never_removed :
  Init4 (Lars_new ex_raw) ex_X_stuck ex_y_stuck false 0%float
  = Some ex_stuck /\
  DoLARS solve 10 ex_stuck = Finished ex_stuck_run /\
  (kick_out ex_stuck_run = true /\ change_ind ex_stuck_run = 0%N /\
   active_set_ (obj ex_stuck_run) = [1%N; 0%N] /\
   is_active_ (obj ex_stuck_run) = [true; true] /\
   n_active_ (obj ex_stuck_run) = 2%N /\ p_ (obj ex_stuck_run) = 2%N) /\
  (beta_path_ (obj ex_stuck_run) = [[0; 0]; [0; -0.5]; [1; 0]]%float /\
   lambda_path_ (obj ex_stuck_run) = [8; 4; 2]%float /\
   max_corr ex_stuck_run = 2%float /\
   desired_lambda_ (obj ex_stuck_run) = 0%float) /\
  (forall fuel, main_loop solve fuel ex_stuck_run = Finished ex_stuck_run).
Proof using stuck_solve_1 stuck_solve_2.
  split; [vm_compute; reflexivity|].
  split.
  { rewrite (@DoLARS_agree _ _ solve example_solve) by agree_on_systems.
    vm_compute; reflexivity. }
  split; [repeat split; vm_compute; reflexivity|].
  split; [repeat split; vm_compute; reflexivity|].
  apply pending_removal_dropped; vm_compute; reflexivity.
Qed.

End FlaggedNeverRemoved.

Lemma flagged_variable_never_removed_witness :
  DoLARS example_solve 10 ex_stuck = Finished ex_stuck_run /\
  kick_out ex_stuck_run = true /\
  active_set_ (obj ex_stuck_run) = [1%N; 0%N].
Proof.
  destruct (@flagged_variable_never_removed example_solve)
    as (_ & Hrun & (Hk & _ & Ha & _) & _).
  - vm_compute; reflexivity.
  - vm_compute; reflexivity.
  - split; [exact Hrun|]. split; [exact Hk | exact Ha].
Defined.

(** ** Pure LARS in binary64: the activation of the index -1 (C7) *)

Section MissingIndex.

Variable solve : @mat float -> @vec float -> option (@vec float).

Hypothesis drift_solve_1 :
  solve (Mat 1 [[10]]%float) [1]%float = Some [1 / 10]%float.

(** C7, at an input on which it fails.  On the dataset [ex_X_drift],
    [ex_y_drift] with LASSO mode off the first iteration activates
    variable 0; no ratio of the inactive variable 1 is below the step
    [max_corr / normalization], so [change_ind] stays [(u32) -1], and the
    new [max_corr = max_corr - gamma * normalization] is 2^-50 in
    binary64, not 0.  It is above [EPS] and [n_active_ = 1 < p_ = 2], so
    the loop goes on, and the second iteration calls
    [Activate(4294967295)], which indexes [is_active_] outside its two
    entries: the iteration does not return and the run is aborted with one
    variable active.  The only system of the run is 1 x 1. *)
Theorem pure_LARS_activates_missing_index :
  Init3 (Lars_new ex_raw) ex_X_drift ex_y_drift false = Some ex_drift /\
  (DoLARS_begin ex_drift = Some ex_drift_s0 /\
   body solve ex_drift_s0 = Some (ex_drift_s1, false)) /\
  (lasso_ (obj ex_drift_s1) = false /\ kick_out ex_drift_s1 = false /\
   n_active_ (obj ex_drift_s1) = 1%N /\ p_ (obj ex_drift_s1) = 2%N /\
   length (is_active_ (obj ex_drift_s1)) = 2%nat /\
   change_ind ex_drift_s1 = u32_minus_one /\
   max_corr ex_drift_s1 = 0x1p-50%float /\
   fltb EPS (max_corr ex_drift_s1) = true /\
   loop_cond ex_drift_s1 = true) /\
  (Activate (obj ex_drift_s1) (change_ind ex_drift_s1) = None /\
   body solve ex_drift_s1 = None) /\
  (forall fuel, (2 <= fuel)%nat -> DoLARS solve fuel ex_drift = Crashed).
Proof using drift_solve_1.
  assert (H0 : DoLARS_begin ex_drift = Some ex_drift_s0)
    by (vm_compute; reflexivity).
  assert (H1 : body solve ex_drift_s0 = Some (ex_drift_s1, false)).
  { rewrite (@body_agree _ _ solve example_solve) by agree_on_systems.
    vm_compute; reflexivity. }
  assert (H2 : body solve ex_drift_s1 = None).
  { rewrite (@body_agree _ _ solve example_solve) by agree_on_systems.
    vm_compute; reflexivity. }
  split; [vm_compute; reflexivity|].
  split; [split; assumption|].
  split; [repeat split; vm_compute; reflexivity|].
  split; [split; [vm_compute; reflexivity | exact H2]|].
  intros [|[|fuel]] Hfuel; [lia | lia |].
  unfold DoLARS. rewrite H0. cbn [main_loop].
  replace (loop_cond ex_drift_s0) with true by (vm_compute; reflexivity).
  rewrite H1.
  replace (loop_cond ex_drift_s1) with true by (vm_compute; reflexivity).
  rewrite H2. reflexivity.
Qed.

End MissingIndex.

Lemma pure_LARS_activates_missing_index_witness :
  DoLARS example_solve 10 ex_drift = Crashed.
Proof.
  refine (proj2 (proj2 (proj2 (proj2
    (@pure_LARS_activates_missing_index example_solve _)))) 10%nat _).
  - vm_compute; reflexivity.
  - lia.
Defined.

(** ** A second run in Cholesky mode (C1) *)

Section SecondRunFactor.

Variable solve : @mat float -> @vec float -> option (@vec float).

Hypothesis twice_solve_1 :
  solve (Mat 1 [[1]]%float) [1]%float = Some [1]%float.

(** C1, at an input on which it fails.  [Init(X, y, true)] on the two
    unit vectors with [y] the first of them, then [DoLARS()] twice.  The
    first run activates variable 0 and stops with [max_corr = 0] and
    [n_active_ = 1]; its factor is the 1 x 1 matrix [1].  The second call
    starts from an empty factor although [n_active_] is still 1, since
    [R] is a local of [DoLARS] and the active set is reset by [Init]
    only.  Its first iteration inserts column 0 into the empty factor and
    activates variable 0 again: the factor is 1 x 1, [n_active_] is 2 and
    the active set is [0; 0].  The direction step then asks [solve] for a
    1 x 1 matrix and a right-hand side of length 2; with a solver that
    refuses it the run is aborted. *)
Theorem second_run_factor_mismatch :
  Init3 (Lars_new ex_raw) ex_X_twice ex_y_twice true = Some ex_twice /\
  DoLARS solve 10 ex_twice = Finished ex_twice_run /\
  (use_cholesky_ (obj ex_twice_run) = true /\
   n_active_ (obj ex_twice_run) = 1%N /\ p_ (obj ex_twice_run) = 2%N /\
   active_set_ (obj ex_twice_run) = [0%N] /\
   Rfac ex_twice_run = Mat 1 [[1]]%float) /\
  (DoLARS_begin (obj ex_twice_run) = Some ex_twice_s0 /\
   Rfac ex_twice_s0 = empty_mat /\
   n_active_ (obj ex_twice_s0) = 1%N /\
   loop_cond ex_twice_s0 = true) /\
  (top_phase ex_twice_s0 = Some ex_twice_s1 /\
   Rfac ex_twice_s1 = Mat 1 [[1]]%float /\
   n_active_ (obj ex_twice_s1) = 2%N /\
   active_set_ (obj ex_twice_s1) = [0%N; 0%N] /\
   hd_error (iteration_systems solve ex_twice_s0)
   = Some (Mat 1 [[1]]%float, [1; 1]%float)) /\
  (solve (Mat 1 [[1]]%float) [1; 1]%float = None ->
   DoLARS solve 10 (obj ex_twice_run) = Crashed).
Proof using twice_solve_1.
  split; [vm_compute; reflexivity|].
  split.
  { rewrite (@DoLARS_agree _ _ solve example_solve) by agree_on_systems.
    vm_compute; reflexivity. }
  split; [repeat split; vm_compute; reflexivity|].
  split; [repeat split; vm_compute; reflexivity|].
  split; [repeat split; vm_compute; reflexivity|].
  intros Hrefuse.
  rewrite (@DoLARS_agree _ _ solve example_solve) by agree_on_systems.
  vm_compute; reflexivity.
Qed.

End SecondRunFactor.

Lemma second_run_factor_mismatch_witness :
  DoLARS example_solve 10 ex_twice = Finished ex_twice_run /\
  DoLARS example_solve 10 (obj ex_twice_run) = Crashed.
Proof.
  destruct (@second_run_factor_mismatch example_solve)
    as (_ & Hrun & _ & _ & _ & Hcrash).
  - vm_compute; reflexivity.
  - split; [exact Hrun|]. apply Hcrash. vm_compute; reflexivity.
Defined.


(** ** Column replacement with repeated indices (C2) *)

Section StoreLoopOrder.

Variables (S Loc V X : Type).
Variable get : S -> Loc -> option V.
Variable set : S -> Loc -> V -> option S.
Variable loc : X -> Loc.
Variable val : X -> option V.

Hypothesis get_set_eq : forall s s' k v, set s k v = Some s' -> get s' k = Some v.
Hypothesis get_set_neq :
  forall s s' k k' v, set s k v = Some s' -> k <> k' -> get s' k' = get s k'.



End StoreLoopOrder.

Section UpdateRepeated.

Context {F : Type} `{SF : Scalar F}.





End UpdateRepeated.


